(** * goRPC: the call-multiplexing client and the reflective-dispatch server

    A shallow embedding of the Go sources of the repository: the method
    handles of package [service], the server's handshake and request
    pipeline with its handlers, the client's pending-call table with its
    send path and receive loop, the discovery of servers, the registry, and
    the client over several servers.  Pure Go functions are Rocq functions; a
    function that mutates an object takes the store it lives in and returns
    the new store; what the codec, the connection or another goroutine does
    is an input of the model and what the code does on them is recorded in a
    log. *)

From stdpp Require Import base option list gmap strings sorting.
From Stdlib Require Import ZArith Lia Ascii.

Set Warnings "-register-all".

Local Open Scope Z_scope.

(** ** Package [reflect], as far as the method handles use it *)

Module reflect.

(** [reflect.Kind], over the types below. *)
Inductive Kind :=
| Bool | Int | Uint64 | String | Array | Chan | Func | Interface
| Map | Ptr | Slice | Struct.

#[global] Instance Kind_eq_dec : EqDecision Kind.
Proof. solve_decision. Defined.

(** [reflect.Type]. *)
Inductive Type_ :=
| TBool | TInt | TUint64 | TString
| TArray (len : nat) (elem : Type_)
| TChan (elem : Type_)
| TFunc
| TInterface
| TMap (key elem : Type_)
| TPtr (elem : Type_)
| TSlice (elem : Type_)
| TStruct (fields : list Type_)
| TNamed (pkgPath name : string) (underlying : Type_).   (* type name T underlying *)

Fixpoint Type_Kind (t : Type_) : Kind :=
  match t with
  | TBool => Bool | TInt => Int | TUint64 => Uint64 | TString => String
  | TArray _ _ => Array | TChan _ => Chan | TFunc => Func
  | TInterface => Interface | TMap _ _ => Map | TPtr _ => Ptr
  | TSlice _ => Slice | TStruct _ => Struct
  | TNamed _ _ u => Type_Kind u
  end.

(** [Type.Name()] and [Type.PkgPath()]: a predeclared type has its name and
    no package path, a composite type literal has neither. *)
Definition Type_Name (t : Type_) : string :=
  match t with
  | TBool => "bool" | TInt => "int" | TUint64 => "uint64" | TString => "string"
  | TNamed _ name _ => name
  | _ => ""
  end.

Definition Type_PkgPath (t : Type_) : string :=
  match t with
  | TNamed pkgPath _ _ => pkgPath
  | _ => ""
  end.

(** The predeclared interface type [error]. *)
Definition TError : Type_ := TNamed "" "error" TInterface.

Definition Type_is_error (t : Type_) : bool :=
  match t with
  | TNamed pkgPath name TInterface =>
      bool_decide (pkgPath = "") && bool_decide (name = "error")
  | _ => false
  end.

(** [Type.Elem()]: the element type of an array, channel, map, pointer or
    slice type; [None] is the panic of every other kind. *)
Fixpoint Type_Elem (t : Type_) : option Type_ :=
  match t with
  | TArray _ e | TChan e | TMap _ e | TPtr e | TSlice e => Some e
  | TNamed _ _ u => Type_Elem u
  | _ => None
  end.

(** An address of the Go heap. *)
Abbreviation loc := positive.

(** Go values.  A nil map and an empty map are different values, and so
    are a nil slice and an empty slice. *)
Inductive val :=
| VBool (b : bool)
| VInt (n : Z)
| VString (s : string)
| VNil                                  (* nil pointer, channel, func, interface *)
| VPtr (a : loc)
| VNilMap
| VMap (entries : list (val * val))
| VNilSlice
| VSlice (elems : list val)
| VArray (elems : list val)
| VStruct (fields : list val).

(** The zero value of a type. *)
Fixpoint zero (t : Type_) : val :=
  match t with
  | TBool => VBool false
  | TInt | TUint64 => VInt 0
  | TString => VString ""
  | TArray n e => VArray (replicate n (zero e))
  | TChan _ | TFunc | TInterface | TPtr _ => VNil
  | TMap _ _ => VNilMap
  | TSlice _ => VNilSlice
  | TStruct fs => VStruct (map zero fs)
  | TNamed _ _ u => zero u
  end.

(** The heap: every variable that [reflect.New] allocated, with its type. *)
Abbreviation heap := (gmap loc (Type_ * val)).

(** [reflect.Value]: a value with its type, or the addressable variable
    behind a pointer (what [Value.Elem] of a pointer is). *)
Inductive Value :=
| ValueOf (t : Type_) (v : val)
| Variable_ (t : Type_) (a : loc).

Definition Value_Type (v : Value) : Type_ :=
  match v with ValueOf t _ | Variable_ t _ => t end.

(** [reflect.New(t)]: a pointer to a new variable holding [zero t]. *)
Definition New (t : Type_) (h : heap) : Value * heap :=
  let a := fresh (dom h) in
  (ValueOf (TPtr t) (VPtr a), <[a := (t, zero t)]> h).

(** [v.Elem()] of a pointer; [None] is the panic (nil pointer aside, which
    gives the zero Value in Go and is not used here). *)
Definition Value_Elem (v : Value) : option Value :=
  match v with
  | ValueOf (TPtr t) (VPtr a) => Some (Variable_ t a)
  | _ => None
  end.

(** [v.Set(x)]: assigns to the variable; [None] when [v] is not
    addressable (Go panics). *)
Definition Value_Set (v : Value) (x : val) (h : heap) : option heap :=
  match v with
  | Variable_ t a => Some (<[a := (t, x)]> h)
  | ValueOf _ _ => None
  end.

(** [reflect.Method]: its name and the parameter and result types of its
    function type; parameter 0 is the receiver. *)
Record Method := mkMethod {
  Name : string;
  In : list Type_;
  Out : list Type_ }.

(** [reflect.MakeMap(t)] and [reflect.MakeSlice(t, len, cap)]. *)
Definition MakeMap (t : Type_) : val := VMap [].
Definition MakeSlice (t : Type_) (len cap : Z) : val :=
  VSlice (replicate (Z.to_nat len) (match Type_Elem t with Some e => zero e | None => VNil end)).

End reflect.

(** ** Package [codec]: the message envelope and the codec interface *)

Module codec.

(** [Header]: [Seq] is a uint64. *)
Record Header := mkHeader {
  ServiceMethod : string;
  Seq : Z;
  Error : string }.

(** [codec.Type] and the two tags. *)
Definition Type_ := string.
Definition GobType : Type_ := "application/gob".
Definition JsonType : Type_ := "application/json".

(** The constructors a codec type can be bound to. *)
Variant NewCodecFun := NewGobCodec.

(** [NewCodecFuncMap] as [init] fills it: only the gob codec is bound. *)
Definition NewCodecFuncMap : gmap Type_ NewCodecFun :=
  <[GobType := NewGobCodec]> ∅.

(** An error value that [ReadHeader], [ReadBody], [Write] or the connection
    returns.  The code never builds one: it tests it against nil, passes it
    on, or takes its message with [err.Error()]. *)
Variant io_error := io_err (message : string).

Definition io_message (e : io_error) : string :=
  match e with io_err m => m end.

(** [io.EOF]. *)
Definition EOF : io_error := io_err "EOF".

End codec.

(** ** Package [service]: method handles *)

Module service.
Import reflect.

(** [methodType]. *)
Record methodType := mkMethodType {
  method : Method;
  ArgType : Type_;
  ReplyType : Type_;
  numCalls : Z }.

(** [newArgv]: a pointer argument gets a new variable of the pointed-to
    type, any other argument the new variable itself. *)
Definition newArgv (m : methodType) (h : heap) : option (Value * heap) :=
  if decide (Type_Kind (ArgType m) = Ptr) then
    e ← Type_Elem (ArgType m);
    Some (New e h)
  else
    let '(p, h1) := New (ArgType m) h in
    argv ← Value_Elem p;
    Some (argv, h1).

(** [newReplyv]; [None] is a panic of [reflect]. *)
Definition newReplyv (m : methodType) (h : heap) : option (Value * heap) :=
  et ← Type_Elem (ReplyType m);
  let '(replyv, h1) := New et h in
  match Type_Kind et with
  | Map =>
      e ← Value_Elem replyv;
      h2 ← Value_Set e (MakeMap et) h1;
      Some (replyv, h2)
  | Slice =>
      e ← Value_Elem replyv;
      h2 ← Value_Set e (MakeSlice et 0 0) h1;
      Some (replyv, h2)
  | _ => Some (replyv, h1)
  end.

(** What reflection tells about a receiver [rcvr]: the name of its type
    behind the pointer, its type, and the method set of that type in the
    order of [Type.Method(i)]. *)
Record receiver := mkReceiver {
  rcvr_name : string;
  rcvr_type : Type_;
  rcvr_methods : list Method }.

(** [service]: [methods] is the map [method] of the struct. *)
Record service := mkService {
  name : string;
  typ : Type_;
  rcvr : receiver;
  methods : gmap string methodType }.

(** *** Packages [utf8], [unicode] and [ast] *)

(** A Go string is its bytes. *)
Definition byte_of (c : ascii) : Z := Z.of_N (N_of_ascii c).

(** [utf8.RuneError], the rune that a wrong or empty encoding decodes to. *)
Definition RuneError : Z := 0xFFFD.

(** A continuation byte. *)
Definition is_cont (b : Z) : bool := (0x80 <=? b) && (b <=? 0xBF).

(** The rune of [utf8.DecodeRuneInString(s)], the first rune of [s]: one
    byte below 0x80; two bytes from 0xC2 to 0xDF on; three bytes from 0xE0
    to 0xEF on, the second from 0xA0 after 0xE0 and up to 0x9F after 0xED
    (no surrogates); four bytes from 0xF0 to 0xF4 on, the second from 0x90
    after 0xF0 and up to 0x8F after 0xF4. *)
Definition DecodeRuneInString (s : string) : Z :=
  match s with
  | EmptyString => RuneError
  | String.String c0 s1 =>
      let b0 := byte_of c0 in
      if b0 <? 0x80 then b0
      else if (0xC2 <=? b0) && (b0 <=? 0xDF) then
        match s1 with
        | String.String c1 _ =>
            let b1 := byte_of c1 in
            if is_cont b1 then Z.land b0 0x1F * 64 + Z.land b1 0x3F else RuneError
        | _ => RuneError
        end
      else if (0xE0 <=? b0) && (b0 <=? 0xEF) then
        match s1 with
        | String.String c1 (String.String c2 _) =>
            let b1 := byte_of c1 in
            let b2 := byte_of c2 in
            let lo := if b0 =? 0xE0 then 0xA0 else 0x80 in
            let hi := if b0 =? 0xED then 0x9F else 0xBF in
            if (lo <=? b1) && (b1 <=? hi) && is_cont b2
            then (Z.land b0 0x0F * 64 + Z.land b1 0x3F) * 64 + Z.land b2 0x3F
            else RuneError
        | _ => RuneError
        end
      else if (0xF0 <=? b0) && (b0 <=? 0xF4) then
        match s1 with
        | String.String c1 (String.String c2 (String.String c3 _)) =>
            let b1 := byte_of c1 in
            let b2 := byte_of c2 in
            let b3 := byte_of c3 in
            let lo := if b0 =? 0xF0 then 0x90 else 0x80 in
            let hi := if b0 =? 0xF4 then 0x8F else 0xBF in
            if (lo <=? b1) && (b1 <=? hi) && is_cont b2 && is_cont b3
            then ((Z.land b0 0x07 * 64 + Z.land b1 0x3F) * 64 + Z.land b2 0x3F) * 64
                 + Z.land b3 0x3F
            else RuneError
        | _ => RuneError
        end
      else RuneError
  end.

(** [unicode.Upper], the table of the upper case letters (category Lu, as
    of Unicode 14.0.0), in the format of the package: the runes from [lo]
    to [hi] by steps of [stride]. *)
Definition Upper : list (Z * Z * Z) :=
  [(0x41, 0x5A, 1); (0xC0, 0xD6, 1); (0xD8, 0xDE, 1); (0x100, 0x136, 2);
   (0x139, 0x147, 2); (0x14A, 0x176, 2); (0x178, 0x179, 1);
   (0x17B, 0x17B, 1); (0x17D, 0x17D, 1); (0x181, 0x182, 1);
   (0x184, 0x184, 1); (0x186, 0x187, 1); (0x189, 0x18B, 1);
   (0x18E, 0x191, 1); (0x193, 0x194, 1); (0x196, 0x198, 1);
   (0x19C, 0x19D, 1); (0x19F, 0x1A0, 1); (0x1A2, 0x1A2, 1);
   (0x1A4, 0x1A4, 1); (0x1A6, 0x1A7, 1); (0x1A9, 0x1A9, 1);
   (0x1AC, 0x1AC, 1); (0x1AE, 0x1AF, 1); (0x1B1, 0x1B3, 1);
   (0x1B5, 0x1B5, 1); (0x1B7, 0x1B8, 1); (0x1BC, 0x1BC, 1);
   (0x1C4, 0x1C4, 1); (0x1C7, 0x1C7, 1); (0x1CA, 0x1CA, 1);
   (0x1CD, 0x1DB, 2); (0x1DE, 0x1EE, 2); (0x1F1, 0x1F1, 1);
   (0x1F4, 0x1F4, 1); (0x1F6, 0x1F8, 1); (0x1FA, 0x232, 2);
   (0x23A, 0x23B, 1); (0x23D, 0x23E, 1); (0x241, 0x241, 1);
   (0x243, 0x246, 1); (0x248, 0x24E, 2); (0x370, 0x370, 1);
   (0x372, 0x372, 1); (0x376, 0x376, 1); (0x37F, 0x37F, 1);
   (0x386, 0x386, 1); (0x388, 0x38A, 1); (0x38C, 0x38C, 1);
   (0x38E, 0x38F, 1); (0x391, 0x3A1, 1); (0x3A3, 0x3AB, 1);
   (0x3CF, 0x3CF, 1); (0x3D2, 0x3D4, 1); (0x3D8, 0x3EE, 2);
   (0x3F4, 0x3F4, 1); (0x3F7, 0x3F7, 1); (0x3F9, 0x3FA, 1);
   (0x3FD, 0x42F, 1); (0x460, 0x480, 2); (0x48A, 0x4BE, 2);
   (0x4C0, 0x4C1, 1); (0x4C3, 0x4CD, 2); (0x4D0, 0x52E, 2);
   (0x531, 0x556, 1); (0x10A0, 0x10C5, 1); (0x10C7, 0x10C7, 1);
   (0x10CD, 0x10CD, 1); (0x13A0, 0x13F5, 1); (0x1C90, 0x1CBA, 1);
   (0x1CBD, 0x1CBF, 1); (0x1E00, 0x1E94, 2); (0x1E9E, 0x1EFE, 2);
   (0x1F08, 0x1F0F, 1); (0x1F18, 0x1F1D, 1); (0x1F28, 0x1F2F, 1);
   (0x1F38, 0x1F3F, 1); (0x1F48, 0x1F4D, 1); (0x1F59, 0x1F5F, 2);
   (0x1F68, 0x1F6F, 1); (0x1FB8, 0x1FBB, 1); (0x1FC8, 0x1FCB, 1);
   (0x1FD8, 0x1FDB, 1); (0x1FE8, 0x1FEC, 1); (0x1FF8, 0x1FFB, 1);
   (0x2102, 0x2102, 1); (0x2107, 0x2107, 1); (0x210B, 0x210D, 1);
   (0x2110, 0x2112, 1); (0x2115, 0x2115, 1); (0x2119, 0x211D, 1);
   (0x2124, 0x2128, 2); (0x212A, 0x212D, 1); (0x2130, 0x2133, 1);
   (0x213E, 0x213F, 1); (0x2145, 0x2145, 1); (0x2183, 0x2183, 1);
   (0x2C00, 0x2C2F, 1); (0x2C60, 0x2C60, 1); (0x2C62, 0x2C64, 1);
   (0x2C67, 0x2C6B, 2); (0x2C6D, 0x2C70, 1); (0x2C72, 0x2C72, 1);
   (0x2C75, 0x2C75, 1); (0x2C7E, 0x2C80, 1); (0x2C82, 0x2CE2, 2);
   (0x2CEB, 0x2CEB, 1); (0x2CED, 0x2CED, 1); (0x2CF2, 0x2CF2, 1);
   (0xA640, 0xA66C, 2); (0xA680, 0xA69A, 2); (0xA722, 0xA72E, 2);
   (0xA732, 0xA76E, 2); (0xA779, 0xA779, 1); (0xA77B, 0xA77B, 1);
   (0xA77D, 0xA77E, 1); (0xA780, 0xA786, 2); (0xA78B, 0xA78B, 1);
   (0xA78D, 0xA78D, 1); (0xA790, 0xA790, 1); (0xA792, 0xA792, 1);
   (0xA796, 0xA7A8, 2); (0xA7AA, 0xA7AE, 1); (0xA7B0, 0xA7B4, 1);
   (0xA7B6, 0xA7C2, 2); (0xA7C4, 0xA7C7, 1); (0xA7C9, 0xA7C9, 1);
   (0xA7D0, 0xA7D0, 1); (0xA7D6, 0xA7D6, 1); (0xA7D8, 0xA7D8, 1);
   (0xA7F5, 0xA7F5, 1); (0xFF21, 0xFF3A, 1); (0x10400, 0x10427, 1);
   (0x104B0, 0x104D3, 1); (0x10570, 0x1057A, 1); (0x1057C, 0x1058A, 1);
   (0x1058C, 0x10592, 1); (0x10594, 0x10595, 1); (0x10C80, 0x10CB2, 1);
   (0x118A0, 0x118BF, 1); (0x16E40, 0x16E5F, 1); (0x1D400, 0x1D419, 1);
   (0x1D434, 0x1D44D, 1); (0x1D468, 0x1D481, 1); (0x1D49C, 0x1D49C, 1);
   (0x1D49E, 0x1D49F, 1); (0x1D4A2, 0x1D4A2, 1); (0x1D4A5, 0x1D4A6, 1);
   (0x1D4A9, 0x1D4AC, 1); (0x1D4AE, 0x1D4B5, 1); (0x1D4D0, 0x1D4E9, 1);
   (0x1D504, 0x1D505, 1); (0x1D507, 0x1D50A, 1); (0x1D50D, 0x1D514, 1);
   (0x1D516, 0x1D51C, 1); (0x1D538, 0x1D539, 1); (0x1D53B, 0x1D53E, 1);
   (0x1D540, 0x1D544, 1); (0x1D546, 0x1D546, 1); (0x1D54A, 0x1D550, 1);
   (0x1D56C, 0x1D585, 1); (0x1D5A0, 0x1D5B9, 1); (0x1D5D4, 0x1D5ED, 1);
   (0x1D608, 0x1D621, 1); (0x1D63C, 0x1D655, 1); (0x1D670, 0x1D689, 1);
   (0x1D6A8, 0x1D6C0, 1); (0x1D6E2, 0x1D6FA, 1); (0x1D71C, 0x1D734, 1);
   (0x1D756, 0x1D76E, 1); (0x1D790, 0x1D7A8, 1); (0x1D7CA, 0x1D7CA, 1);
   (0x1E900, 0x1E921, 1)].

(** [unicode.Is(table, r)]. *)
Definition unicode_Is (table : list (Z * Z * Z)) (r : Z) : bool :=
  existsb (λ '(lo, hi, stride),
             (lo <=? r) && (r <=? hi) && ((r - lo) mod stride =? 0)) table.

(** [unicode.IsUpper(r)]. *)
Definition IsUpper (r : Z) : bool := unicode_Is Upper r.

(** [ast.IsExported(name)]: the first rune of the name is an upper case
    letter. *)
Definition IsExported (name : string) : bool :=
  IsUpper (DecodeRuneInString name).

Definition isExportedOrBuiltinType (t : Type_) : bool :=
  IsExported (Type_Name t) || bool_decide (Type_PkgPath t = "").

(** [registerMethods]: the loop over the method set; a method is kept when
    it has three parameters and one result, the result is [error], and the
    two parameter types after the receiver are exported or builtin. *)
Definition registerMethods (typ_methods : list Method) : gmap string methodType :=
  foldl (λ (acc : gmap string methodType) (method : Method),
    if bool_decide (length (In method) ≠ 3%nat ∨ length (Out method) ≠ 1%nat) then acc
    else
      match Out method !! 0%nat, In method !! 1%nat, In method !! 2%nat with
      | Some out0, Some argType, Some replyType =>
          if negb (Type_is_error out0) then acc
          else if negb (isExportedOrBuiltinType argType)
                  || negb (isExportedOrBuiltinType replyType) then acc
          else <[Name method :=
                  {| method := method; ArgType := argType;
                     ReplyType := replyType; numCalls := 0 |}]> acc
      | _, _, _ => acc
      end) ∅ typ_methods.

(** [newService]; [None] is the exit of [log.Fatalf]. *)
Definition newService (r : receiver) : option service :=
  if negb (IsExported (rcvr_name r)) then None
  else Some {| name := rcvr_name r; typ := rcvr_type r; rcvr := r;
               methods := registerMethods (rcvr_methods r) |}.

(** [errors.New(text)], and an error of the codec passed on. *)
Inductive error :=
| errors_New (text : string)
| of_codec (e : codec.io_error).

(** [err.Error()]. *)
Definition Error (e : error) : string :=
  match e with
  | errors_New text => text
  | of_codec e => codec.io_message e
  end.

(** [Option], the handshake record; [MagicNumber] is an int. *)
Record Option := mkOption {
  Option_MagicNumber : Z;
  Option_CodecType : codec.Type_ }.

Definition MagicNumber : Z := 0x3bef5c.

Definition DefaultOption : Option :=
  {| Option_MagicNumber := MagicNumber; Option_CodecType := codec.GobType |}.

(** [Server]: [serviceMap] is a [sync.Map] from service names to services. *)
Record Server := mkServer { serviceMap : gmap string service }.

Definition NewServer : Server := {| serviceMap := ∅ |}.

(** [Register]: the service of [rcvr] is stored unless its name is taken;
    the outer [None] is the exit of [newService]. *)
Definition Register (server : Server) (r : receiver) : option (Server * option error) :=
  s ← newService r;
  match serviceMap server !! name s with
  | Some _ => Some (server, Some (errors_New ("rpc: service already defined: " +:+ name s)))
  | None => Some ({| serviceMap := <[name s := s]> (serviceMap server) |}, None)
  end.

(** [request]; [argv] and [replyv] are zero Values until they are made. *)
Record request := mkRequest {
  h : codec.Header;
  argv : option Value;
  replyv : option Value;
  mtype : option methodType;
  svc : option service }.

(** [invalidRequest], the placeholder [struct{}{}]. *)
Definition invalidRequest : val := VStruct [].

(** *** Package [strings] *)

(** [strings.LastIndex(s, substr)]: the index of the last instance of
    [substr] in [s], or -1. *)
Fixpoint LastIndex (s substr : string) : Z :=
  match s with
  | EmptyString => if decide (substr = "") then 0 else -1
  | String.String _ s' =>
      let i := LastIndex s' substr in
      if decide (i = -1) then (if String.prefix substr s then 0 else -1)
      else i + 1
  end.

(** Whether the byte [c] occurs in [s]. *)
Fixpoint contains (c : ascii) (s : string) : bool :=
  match s with
  | EmptyString => false
  | String.String a s' => if decide (a = c) then true else contains c s'
  end.

(** The slices [s[:n]] and [s[n:]]. *)
Fixpoint slice_to (s : string) (n : nat) : string :=
  match n, s with
  | S n', String.String c s' => String.String c (slice_to s' n')
  | _, _ => ""
  end.

Fixpoint slice_from (s : string) (n : nat) : string :=
  match n, s with
  | S n', String.String _ s' => slice_from s' n'
  | _, _ => s
  end.

(** *** [findService] *)

(** The three named results [svc], [mtype], [err]. *)
Definition findService (server : Server) (serviceMethod : string)
  : option service * option methodType * option error :=
  let dot := LastIndex serviceMethod "." in
  if decide (dot < 0) then
    (None, None,
     Some (errors_New ("rpc server: service/method request ill-formed: " +:+ serviceMethod)))
  else
    let serviceName := slice_to serviceMethod (Z.to_nat dot) in
    let methodName := slice_from serviceMethod (Z.to_nat (dot + 1)) in
    match serviceMap server !! serviceName with
    | None =>
        (None, None, Some (errors_New ("rpc server: can't find service" +:+ serviceName)))
    | Some svc =>
        match methods svc !! methodName with
        | None =>
            (Some svc, None,
             Some (errors_New ("rpc server: can't find method " +:+ methodName)))
        | Some mtype => (Some svc, Some mtype, None)
        end
    end.

(** *** The connection, as the server sees it *)

(** One encoded value that the peer sent: what decoding it as a header
    gives, and what decoding it into an argument variable gives.  Each read
    of the codec consumes one of them; at the end of the stream a read
    returns [io.EOF]. *)
Record item := mkItem {
  as_header : codec.io_error + codec.Header;
  as_body : codec.io_error + val }.

(** What the server does on the connection, in order. *)
Inductive event :=
| EvDecodeOption                              (* json.NewDecoder(conn).Decode(&opt) *)
| EvReadHeader                                (* cc.ReadHeader(&h) *)
| EvReadBody (target : loc)                   (* cc.ReadBody(argvi) *)
| EvWrite (h : codec.Header) (body : val)     (* cc.Write(h, body) *)
| EvGoHandleRequest (req : request)           (* go server.handleRequest(cc, req, sending, wg) *)
| EvWait                                      (* wg.Wait() *)
| EvCodecClose                                (* cc.Close() *)
| EvConnClose.                                (* conn.Close() *)

(** The world of one [ServeConn]: what the handshake decodes to, the values
    still to be read, the server's heap, and the log of what it did. *)
Record World := mkWorld {
  handshake : codec.io_error + Option;
  inbox : list item;
  mem : heap;
  log : list event }.

Definition emit (e : event) (w : World) : World :=
  {| handshake := handshake w; inbox := inbox w; mem := mem w;
     log := log w ++ [e] |}.

Definition set_inbox (l : list item) (w : World) : World :=
  {| handshake := handshake w; inbox := l; mem := mem w; log := log w |}.

Definition set_mem (m : heap) (w : World) : World :=
  {| handshake := handshake w; inbox := inbox w; mem := m; log := log w |}.

(** [cc.ReadHeader(&h)]. *)
Definition ReadHeader (w : World) : (codec.io_error + codec.Header) * World :=
  match inbox w with
  | [] => (inl codec.EOF, emit EvReadHeader w)
  | it :: rest => (as_header it, emit EvReadHeader (set_inbox rest w))
  end.

(** [cc.ReadBody(argvi)] with [argvi] the pointer [a]: the decoded value is
    stored in the variable. *)
Definition ReadBody (a : loc) (w : World) : option codec.io_error * World :=
  match inbox w with
  | [] => (Some codec.EOF, emit (EvReadBody a) w)
  | it :: rest =>
      let w1 := emit (EvReadBody a) (set_inbox rest w) in
      match as_body it with
      | inl e => (Some e, w1)
      | inr v => (None, set_mem (alter (λ c, (c.1, v)) a (mem w1)) w1)
      end
  end.

(** [Value.Interface()] and [Value.Addr()]. *)
Definition Value_Interface (v : Value) (m : heap) : option val :=
  match v with
  | ValueOf _ x => Some x
  | Variable_ _ a => snd <$> m !! a
  end.

Definition Value_Addr (v : Value) : option Value :=
  match v with
  | Variable_ t a => Some (ValueOf (TPtr t) (VPtr a))
  | ValueOf _ _ => None
  end.

(** *** The request pipeline *)

Definition readRequestHeader (w : World) : option codec.Header * option error * World :=
  let '(r, w1) := ReadHeader w in
  match r with
  | inl err => (None, Some (of_codec err), w1)
  | inr h => (Some h, None, w1)
  end.

(** What [readRequest] ends in: its two results, or a panic. *)
Inductive read_result :=
| ReadReturns (req : option request) (err : option error) (w : World)
| ReadPanics (w : World).

(** The two holders of [readRequest] and the pointer [argvi] that is given
    to [ReadBody]; [None] is a panic of [reflect] (or of a nil [mtype]). *)
Definition new_holders (mtype : option methodType) (m0 : heap)
  : option (Value * Value * loc * heap) :=
  m ← mtype;
  '(argv, m1) ← newArgv m m0;
  '(replyv, m2) ← newReplyv m m1;
  argvi ← (if decide (Type_Kind (Value_Type argv) ≠ Ptr)
           then Value_Addr argv ≫= λ p, Value_Interface p m2
           else Value_Interface argv m2);
  match argvi with
  | VPtr a => Some (argv, replyv, a, m2)
  | _ => None
  end.

Definition readRequest (server : Server) (w : World) : read_result :=
  let '(h, err, w1) := readRequestHeader w in
  match err, h with
  | Some err, _ => ReadReturns None (Some err) w1
  | None, None => ReadPanics w1
  | None, Some h =>
      let '(svc, mtype, err) := findService server (codec.ServiceMethod h) in
      let req := {| h := h; argv := None; replyv := None; mtype := mtype; svc := svc |} in
      match err with
      | Some err => ReadReturns (Some req) (Some err) w1
      | None =>
          match new_holders mtype (mem w1) with
          | None => ReadPanics w1
          | Some (argv, replyv, a, m2) =>
              let req := {| h := h; argv := Some argv; replyv := Some replyv;
                            mtype := mtype; svc := svc |} in
              let '(err, w2) := ReadBody a (set_mem m2 w1) in
              match err with
              | Some err => ReadReturns (Some req) (Some (of_codec err)) w2
              | None => ReadReturns (Some req) None w2
              end
          end
      end
  end.

(** [sendResponse]: the write under the [sending] lock; its error is only
    logged. *)
Definition sendResponse (h : codec.Header) (body : val) (w : World) : World :=
  emit (EvWrite h body) w.

Definition set_Error (text : string) (h : codec.Header) : codec.Header :=
  {| codec.ServiceMethod := codec.ServiceMethod h; codec.Seq := codec.Seq h;
     codec.Error := text |}.

(** *** Readings of the log *)

(** The reads of a header, the responses written and the requests handed
    to a goroutine of [handleRequest]. *)
Definition is_read_header (e : event) : bool :=
  match e with EvReadHeader => true | _ => false end.
Definition is_answer (e : event) : bool :=
  match e with EvWrite _ _ => true | _ => false end.
Definition is_dispatch (e : event) : bool :=
  match e with EvGoHandleRequest _ => true | _ => false end.

(** What the loop of [serveCodec] does on the codec. *)
Definition in_loop (e : event) : bool :=
  match e with
  | EvReadHeader | EvReadBody _ | EvWrite _ _ | EvGoHandleRequest _ => true
  | _ => false
  end.

Fixpoint tally (f : event → bool) (l : list event) : nat :=
  match l with
  | [] => 0
  | e :: l => ((if f e then 1 else 0) + tally f l)%nat
  end.

(** *** [serveCodec] and [ServeConn] *)

(** How far the goroutine of [ServeConn] gets: it returns, it panics, or it
    is in [wg.Wait()], which returns when every handler that was started
    has called [wg.Done()]; the handlers are not in this part of the model
    (they are in [serve_step] below). *)
Inductive outcome :=
| Returns (w : World)
| Panics (w : World)
| Waits (w : World).

Definition outcome_world (o : outcome) : World :=
  match o with Returns w | Panics w | Waits w => w end.

(** The [for] loop of [serveCodec]; [Returns] carries the world at the
    [break].  Every turn that does not break has read a value, so the loop
    ends; [None] is only for a [fuel] smaller than the loop needs. *)
Fixpoint serve_loop (fuel : nat) (server : Server) (w : World) : option outcome :=
  match fuel with
  | O => None
  | S fuel =>
      match readRequest server w with
      | ReadPanics w1 => Some (Panics w1)
      | ReadReturns req (Some err) w1 =>
          match req with
          | None => Some (Returns w1)
          | Some req =>
              let h := set_Error (Error err) (h req) in
              serve_loop fuel server (sendResponse h invalidRequest w1)
          end
      | ReadReturns (Some req) None w1 =>
          serve_loop fuel server (emit (EvGoHandleRequest req) w1)
      | ReadReturns None None w1 => Some (Panics w1)
      end
  end.

(** The handlers that were started between the worlds [w] and [w1]: the
    count of the [wg.Add(1)] of the loop. *)
Definition started (w w1 : World) : nat :=
  tally is_dispatch (drop (length (log w)) (log w1)).

(** [serveCodec]: the loop, then [wg.Wait()] and [cc.Close()].  When the
    loop started no handler, [wg.Wait()] returns at once and the codec is
    closed; when it started some, [serveCodec] is in [wg.Wait()]. *)
Definition serveCodec (server : Server) (w : World) : option outcome :=
  o ← serve_loop (S (length (inbox w))) server w;
  match o with
  | Returns w1 =>
      if decide (started w w1 = 0%nat)
      then Some (Returns (emit EvCodecClose (emit EvWait w1)))
      else Some (Waits w1)
  | Panics w1 => Some (Panics w1)
  | Waits w1 => Some (Waits w1)
  end.

(** [ServeConn], with the table of codec constructors it consults; the
    deferred [conn.Close()] runs on every way out, and not while
    [serveCodec] is in [wg.Wait()]. *)
Definition ServeConn (codecs : gmap codec.Type_ codec.NewCodecFun)
    (server : Server) (w : World) : option outcome :=
  let w := emit EvDecodeOption w in
  match handshake w with
  | inl err => Some (Returns (emit EvConnClose w))
  | inr opt =>
      if decide (Option_MagicNumber opt ≠ MagicNumber)
      then Some (Returns (emit EvConnClose w))
      else
        match codecs !! Option_CodecType opt with
        | None => Some (Returns (emit EvConnClose w))
        | Some f =>
            o ← serveCodec server w;
            match o with
            | Returns w1 => Some (Returns (emit EvConnClose w1))
            | Panics w1 => Some (Panics (emit EvConnClose w1))
            | Waits w1 => Some (Waits w1)
            end
        end
  end.

(** *** The handlers *)











End service.

(** ** Package [goRPC]: the client *)

Module client.
Import reflect.

(** Error values, by the way the code gets them: [errors.New(text)],
    [fmt.Errorf(format, a...)], or an error of the codec passed on. *)
Inductive error :=
| errors_New (text : string)
| fmt_Errorf (format : string) (a : list string)
| of_codec (e : codec.io_error).

Definition ErrShutdown : error := errors_New "connecting is shut down".

(** [Option], [MagicNumber]: the declarations of the package's server.go. *)
Record Option := mkOption {
  Option_MagicNumber : Z;
  Option_CodecType : codec.Type_ }.

Definition MagicNumber : Z := 0x3bef5c.

(** A [*Call] is an address of the store of calls. *)
Abbreviation call_ptr := N.

(** A [chan *Call]: its identity and its capacity.  The channel that [Go]
    makes for a call is named after the call. *)
Inductive chan_id :=
| chan_of_user (n : N)
| chan_of_Go (p : call_ptr).

Record chan := mkChan {
  chan_name : chan_id;
  cap : Z }.

(** [Call]; [Seq] is a uint64, [Error] and [Done] may be nil. *)
Record Call := mkCall {
  Seq : Z;
  ServiceMethod : string;
  Args : val;
  Reply : val;
  Error : option error;
  Done : option chan }.

(** The calls that the client makes on its codec, logged when they return. *)
Inductive op :=
| OpReadHeader                             (* cc.ReadHeader(&h) *)
| OpReadBody (target : val)                (* cc.ReadBody(target); VNil discards *)
| OpWrite (h : codec.Header) (args : val)  (* cc.Write(&c.header, call.Args) *)
| OpClose.                                 (* cc.Close() *)

(** Where the goroutine of [receive] stands. *)
Inductive receive_state :=
| AtReadHeader                                         (* in the loop, reading a header *)
| AtReadBody (h : codec.Header) (call : option call_ptr)  (* in the switch, reading the body *)
| AtTerminate (err : codec.io_error)                   (* out of the loop, before terminateCalls *)
| Exited.

(** The client and what surrounds it.  [header], [seq], [pending],
    [closing] and [shutdown] are the fields of [Client]; [sending] is the
    lock of that name, held by the [send] whose [Write] is under way, with
    its [call] and its [seq]; [calls] is the store of [Call] objects;
    [ops] and [signals] log the calls on the codec and the sends on [Done]
    channels; [accepted] is the history of the calls that [registerCall]
    registered. *)
Record Client := mkClient {
  header : codec.Header;
  seq : Z;
  pending : gmap Z call_ptr;
  closing : bool;
  shutdown : bool;
  sending : option (call_ptr * Z);
  receiving : receive_state;
  calls : gmap call_ptr Call;
  next_call : call_ptr;
  ops : list op;
  signals : list (chan * call_ptr);
  accepted : list call_ptr }.

Definition set_header (x : codec.Header) (c : Client) : Client :=
  mkClient x (seq c) (pending c) (closing c) (shutdown c) (sending c) (receiving c)
    (calls c) (next_call c) (ops c) (signals c) (accepted c).
Definition set_seq (x : Z) (c : Client) : Client :=
  mkClient (header c) x (pending c) (closing c) (shutdown c) (sending c) (receiving c)
    (calls c) (next_call c) (ops c) (signals c) (accepted c).
Definition set_pending (x : gmap Z call_ptr) (c : Client) : Client :=
  mkClient (header c) (seq c) x (closing c) (shutdown c) (sending c) (receiving c)
    (calls c) (next_call c) (ops c) (signals c) (accepted c).
Definition set_closing (x : bool) (c : Client) : Client :=
  mkClient (header c) (seq c) (pending c) x (shutdown c) (sending c) (receiving c)
    (calls c) (next_call c) (ops c) (signals c) (accepted c).
Definition set_shutdown (x : bool) (c : Client) : Client :=
  mkClient (header c) (seq c) (pending c) (closing c) x (sending c) (receiving c)
    (calls c) (next_call c) (ops c) (signals c) (accepted c).
Definition set_sending (x : option (call_ptr * Z)) (c : Client) : Client :=
  mkClient (header c) (seq c) (pending c) (closing c) (shutdown c) x (receiving c)
    (calls c) (next_call c) (ops c) (signals c) (accepted c).
Definition set_receiving (x : receive_state) (c : Client) : Client :=
  mkClient (header c) (seq c) (pending c) (closing c) (shutdown c) (sending c) x
    (calls c) (next_call c) (ops c) (signals c) (accepted c).
Definition set_calls (x : gmap call_ptr Call) (c : Client) : Client :=
  mkClient (header c) (seq c) (pending c) (closing c) (shutdown c) (sending c) (receiving c)
    x (next_call c) (ops c) (signals c) (accepted c).
Definition set_next_call (x : call_ptr) (c : Client) : Client :=
  mkClient (header c) (seq c) (pending c) (closing c) (shutdown c) (sending c) (receiving c)
    (calls c) x (ops c) (signals c) (accepted c).
Definition set_ops (x : list op) (c : Client) : Client :=
  mkClient (header c) (seq c) (pending c) (closing c) (shutdown c) (sending c) (receiving c)
    (calls c) (next_call c) x (signals c) (accepted c).
Definition set_signals (x : list (chan * call_ptr)) (c : Client) : Client :=
  mkClient (header c) (seq c) (pending c) (closing c) (shutdown c) (sending c) (receiving c)
    (calls c) (next_call c) (ops c) x (accepted c).
Definition set_accepted (x : list call_ptr) (c : Client) : Client :=
  mkClient (header c) (seq c) (pending c) (closing c) (shutdown c) (sending c) (receiving c)
    (calls c) (next_call c) (ops c) (signals c) x.

Definition did (o : op) (c : Client) : Client := set_ops (ops c ++ [o]) c.

(** Assignments to the fields of a call. *)
Definition set_Seq (x : Z) (call : Call) : Call :=
  mkCall x (ServiceMethod call) (Args call) (Reply call) (Error call) (Done call).
Definition set_Error (x : error) (call : Call) : Call :=
  mkCall (Seq call) (ServiceMethod call) (Args call) (Reply call) (Some x) (Done call).

Definition assign (p : call_ptr) (f : Call → Call) (c : Client) : Client :=
  set_calls (alter f p (calls c)) c.

(** [uint64] increment. *)
Definition uint64_succ (x : Z) : Z := (x + 1) mod 2 ^ 64.

(** [call.done()]: the send [call.Done <- call], taken at the moment it
    completes (a nil channel never lets it). *)
Definition done (p : call_ptr) (c : Client) : Client :=
  match calls c !! p with
  | Some call =>
      match Done call with
      | Some ch => set_signals (signals c ++ [(ch, p)]) c
      | None => c
      end
  | None => c
  end.

(** [Close]; [r] is what [cc.Close()] returns. *)
Definition Close (r : option codec.io_error) (c : Client) : Client * option error :=
  if closing c then (c, Some ErrShutdown)
  else (did OpClose (set_closing true c), of_codec <$> r).

Definition IsAvailable (c : Client) : bool :=
  negb (shutdown c) && negb (closing c).

(** [registerCall]: the two results and the client after it. *)
Definition registerCall (p : call_ptr) (c : Client) : Client * (Z * option error) :=
  if closing c || shutdown c then (c, (0, Some ErrShutdown))
  else
    let c1 := assign p (set_Seq (seq c)) c in
    let c2 := set_pending (<[seq c := p]> (pending c1)) c1 in
    let c3 := set_seq (uint64_succ (seq c2)) c2 in
    (set_accepted (accepted c3 ++ [p]) c3, (seq c, None)).

Definition removeCall (s : Z) (c : Client) : Client * option call_ptr :=
  (set_pending (delete s (pending c)) c, pending c !! s).

(** [terminateCalls]: Go ranges over the map in an order of its own; the
    model takes the order of [map_to_list]. *)
Definition terminateCalls (err : error) (c : Client) : Client :=
  foldl (λ c kp, done kp.2 (assign kp.2 (set_Error err) c))
        (set_shutdown true c) (map_to_list (pending c)).

(** *** [receive] *)

(** A turn of the loop of [receive] up to the call of [ReadBody]; [r] is
    what [ReadHeader] returned. *)
Definition receive_header (r : codec.io_error + codec.Header) (c : Client) : Client :=
  let c := did OpReadHeader c in
  match r with
  | inl err => set_receiving (AtTerminate err) c
  | inr h =>
      let '(c1, call) := removeCall (codec.Seq h) c in
      match call with
      | None => set_receiving (AtReadBody h None) c1
      | Some p =>
          if decide (codec.Error h ≠ "")
          then set_receiving (AtReadBody h (Some p))
                 (assign p (set_Error (fmt_Errorf (codec.Error h) [])) c1)
          else set_receiving (AtReadBody h (Some p)) c1
      end
  end.

(** The rest of the turn; [r] is what [ReadBody] returned.  The loop goes
    on while [err == nil]. *)
Definition receive_body (r : option codec.io_error) (c : Client) : Client :=
  match receiving c with
  | AtReadBody h call =>
      let c1 :=
        match call with
        | None => did (OpReadBody VNil) c
        | Some p =>
            if decide (codec.Error h ≠ "")
            then done p (did (OpReadBody VNil) c)
            else
              let target := default VNil (Reply <$> calls c !! p) in
              let c1 := did (OpReadBody target) c in
              let c2 :=
                match r with
                | Some err =>
                    assign p (set_Error (errors_New ("reading body " +:+ codec.io_message err))) c1
                | None => c1
                end in
              done p c2
        end in
      match r with
      | None => set_receiving AtReadHeader c1
      | Some err => set_receiving (AtTerminate err) c1
      end
  | _ => c
  end.

(** After the loop: [c.terminateCalls(err)]. *)
Definition receive_exit (c : Client) : Client :=
  match receiving c with
  | AtTerminate err => set_receiving Exited (terminateCalls (of_codec err) c)
  | _ => c
  end.

(** *** [send] *)

(** [send] up to the call of [Write]: when [registerCall] fails the call is
    completed and [send] returns, which frees [sending]. *)
Definition send_begin (p : call_ptr) (c : Client) : Client :=
  let '(c1, (s, err)) := registerCall p c in
  match err with
  | Some err => done p (assign p (set_Error err) c1)
  | None =>
      let h := {| codec.ServiceMethod := default "" (ServiceMethod <$> calls c1 !! p);
                  codec.Seq := s; codec.Error := "" |} in
      set_sending (Some (p, s)) (set_header h c1)
  end.

(** The rest of [send]; [r] is what [Write] returned. *)
Definition send_end (r : option codec.io_error) (c : Client) : Client :=
  match sending c with
  | Some (p, s) =>
      let c1 := did (OpWrite (header c) (default VNil (Args <$> calls c !! p))) c in
      let c2 :=
        match r with
        | None => c1
        | Some err =>
            let '(c2, call) := removeCall s c1 in
            match call with
            | Some q => done q (assign q (set_Error (of_codec err)) c2)
            | None => c2
            end
        end in
      set_sending None c2
  | None => c
  end.

(** [send] with nothing in between. *)
Definition send (p : call_ptr) (r : option codec.io_error) (c : Client) : Client :=
  send_end r (send_begin p c).

(** *** [Go] *)

(** The choice of the channel and the new [Call]; [None] is the panic of
    [log.Panic]. *)
Definition new_call (serviceMethod : string) (args reply : val) (done : option chan)
    (c : Client) : option (call_ptr * Client) :=
  let p := next_call c in
  done ← match done with
         | None => Some (mkChan (chan_of_Go p) 10)
         | Some ch => if decide (cap ch = 0) then None else Some ch
         end;
  let call := {| Seq := 0; ServiceMethod := serviceMethod; Args := args;
                 Reply := reply; Error := None; Done := Some done |} in
  Some (p, set_next_call (N.succ p) (set_calls (<[p := call]> (calls c)) c)).

(** [Go], with what its [Write] returns when there is one. *)
Definition Go (serviceMethod : string) (args reply : val) (done : option chan)
    (r : option codec.io_error) (c : Client) : option (call_ptr * Client) :=
  '(p, c1) ← new_call serviceMethod args reply done c;
  Some (p, send p r c1).

(** [newClientCodec]: the new client, its [receive] started. *)
Definition newClientCodec : Client :=
  {| header := codec.mkHeader "" 0 ""; seq := 1; pending := ∅;
     closing := false; shutdown := false; sending := None;
     receiving := AtReadHeader; calls := ∅; next_call := 0%N;
     ops := []; signals := []; accepted := [] |}.

(** *** The goroutines together *)

(** What happens to a client: a goroutine in [Go] gets the lock [sending],
    a call on the codec returns, [terminateCalls] gets its two locks, or
    [Close] is called.  Each is one step; between the steps of one goroutine
    the others may take theirs. *)
Inductive event :=
| EvGo (serviceMethod : string) (args reply : val) (done : option chan)
| EvWritten (r : option codec.io_error)
| EvHeader (r : codec.io_error + codec.Header)
| EvBody (r : option codec.io_error)
| EvTerminate
| EvClose (r : option codec.io_error).

(** [None]: the event cannot happen in this state (the lock is taken, the
    goroutine is elsewhere) or [Go] panics. *)
Definition step (c : Client) (e : event) : option Client :=
  match e with
  | EvGo serviceMethod args reply done =>
      match sending c with
      | Some _ => None
      | None =>
          '(p, c1) ← new_call serviceMethod args reply done c;
          Some (send_begin p c1)
      end
  | EvWritten r =>
      match sending c with
      | Some _ => Some (send_end r c)
      | None => None
      end
  | EvHeader r =>
      match receiving c with
      | AtReadHeader => Some (receive_header r c)
      | _ => None
      end
  | EvBody r =>
      match receiving c with
      | AtReadBody _ _ => Some (receive_body r c)
      | _ => None
      end
  | EvTerminate =>
      match receiving c, sending c with
      | AtTerminate _, None => Some (receive_exit c)
      | _, _ => None
      end
  | EvClose r => Some (Close r c).1
  end.

Fixpoint run (c : Client) (es : list event) : option Client :=
  match es with
  | [] => Some c
  | e :: es => c1 ← step c e; run c1 es
  end.

(** The states of a client that [newClientCodec] made. *)
Inductive reachable : Client → Prop :=
| reachable_new : reachable newClientCodec
| reachable_step c e c1 : reachable c → step c e = Some c1 → reachable c1.

(** The completion signals that the call [p] got. *)
Definition signals_of (p : call_ptr) (c : Client) : list (chan * call_ptr) :=
  filter (λ s, s.2 = p) (signals c).

(** The calls of [cc.Close()] in a log. *)
Definition is_close (o : op) : bool :=
  match o with OpClose => true | _ => false end.

Definition closes (l : list op) : nat :=
  length (filter (λ o, is_close o = true) l).

(** *** What holds of every reachable client *)

(** The calls of the store are those below [next_call], each with a channel;
    a pending call was accepted and sits under its own [Seq]; a call that is
    pending before the shutdown, or that [receive] has taken out of the
    table and not yet completed, has no signal; every signal went to the
    channel of its call, and no call has two; the client is shut down
    exactly when [receive] has returned, and then no [send] holds the lock. *)
Record consistent (c : Client) : Prop := mkConsistent {
  cons_fresh : ∀ p, (next_call c ≤ p)%N → calls c !! p = None;
  cons_Done : ∀ p, (p < next_call c)%N → ∃ ch, Done <$> calls c !! p = Some (Some ch);
  cons_accepted : ∀ p, p ∈ accepted c → (p < next_call c)%N;
  cons_pending : ∀ k p, pending c !! k = Some p →
                        p ∈ accepted c ∧ Seq <$> calls c !! p = Some k;
  cons_quiet : shutdown c = false → ∀ k p, pending c !! k = Some p → signals_of p c = [];
  cons_held : ∀ h p, receiving c = AtReadBody h (Some p) →
                     p ∈ accepted c ∧ signals_of p c = [] ∧ ∀ k, pending c !! k ≠ Some p;
  cons_signals : ∀ ch p, (ch, p) ∈ signals c → Done <$> calls c !! p = Some (Some ch);
  cons_once : ∀ p, (length (signals_of p c) ≤ 1)%nat;
  cons_exited : shutdown c = true ↔ receiving c = Exited;
  cons_lock : shutdown c = true → sending c = None }.

(** The sequence counter has not come round: at most 2^64 calls were
    accepted, so that no number was given twice. *)
Definition unwrapped (c : Client) : Prop :=
  Z.of_nat (length (accepted c)) ≤ 2 ^ 64.

(** While the counter has not come round: the counter is one more than the
    number of accepted calls, the j-th accepted call has number 1 + j, and
    an accepted call without a signal is still pending or in the hands of
    [receive]. *)
Record counted (c : Client) : Prop := mkCounted {
  cnt_seq : seq c = (1 + Z.of_nat (length (accepted c))) mod 2 ^ 64;
  cnt_Seq : ∀ (j : nat) p, accepted c !! j = Some p →
                   Seq <$> calls c !! p = Some ((1 + Z.of_nat j) mod 2 ^ 64);
  cnt_live : ∀ p, p ∈ accepted c → signals_of p c = [] →
                  (shutdown c = false ∧ ∃ k, pending c !! k = Some p)
                  ∨ (∃ h, receiving c = AtReadBody h (Some p)) }.

(** A client with one call pending: [Go("Foo.Sum", 1, &reply, nil)] on a
    new client, the request written. *)
Definition one_pending : Client :=
  default newClientCodec
    (run newClientCodec [EvGo "Foo.Sum" (VInt 1) (VPtr 1%positive) None; EvWritten None]).

(** The client of [one_pending] after the end of the stream. *)
Definition one_terminated : Client :=
  default newClientCodec (run one_pending [EvHeader (inl codec.EOF); EvTerminate]).

(** [n] calls that are written and never answered, then the end of the
    stream. *)
Definition flood (n : N) : list event :=
  N.iter n (λ es, EvGo "Foo.Sum" VNil VNil None :: EvWritten None :: es)
    [EvHeader (inl codec.EOF); EvTerminate].

(** A client after [m] such calls. *)
Definition flooded (m : N) (c : Client) : Prop :=
  reachable c ∧ sending c = None ∧ receiving c = AtReadHeader
  ∧ closing c = false ∧ shutdown c = false ∧ signals c = []
  ∧ next_call c = m ∧ seq c = (1 + Z.of_N m) mod 2 ^ 64
  ∧ (∀ k, pending c !! k = Some 0%N → k = 1)
  ∧ (m ≠ 0%N → 0%N ∈ accepted c ∧ pending c !! (Z.of_N m mod 2 ^ 64) = Some (N.pred m)).

(** *** [parseOptions] and [Dial] *)

(** An [*Option] is an address of the store of options; [DefaultOption] is
    the address that the package variable holds. *)
Abbreviation opt_ptr := N.
Definition DefaultOption : opt_ptr := 0%N.

Abbreviation options := (gmap opt_ptr Option).

(** The store when the package is initialised. *)
Definition options_init : options :=
  {[ DefaultOption := {| Option_MagicNumber := MagicNumber;
                         Option_CodecType := codec.GobType |} ]}.

Definition set_MagicNumber (x : Z) (o : Option) : Option :=
  mkOption x (Option_CodecType o).
Definition set_CodecType (x : codec.Type_) (o : Option) : Option :=
  mkOption (Option_MagicNumber o) x.

(** [parseOptions]: the two results and the store after it; a nil option
    is [None]; the outer [None] is the panic of a dangling pointer. *)
Definition parseOptions (opts : list (option opt_ptr)) (m : options)
  : option (option opt_ptr * option error * options) :=
  match opts with
  | [] | None :: _ => Some (Some DefaultOption, None, m)
  | Some opt :: _ =>
      if decide (length opts ≠ 1%nat)
      then Some (None, Some (errors_New "number of options is more than 1"), m)
      else
        d ← m !! DefaultOption;
        _ ← m !! opt;
        let m1 := alter (set_MagicNumber (Option_MagicNumber d)) opt m in
        o ← m1 !! opt;
        if decide (Option_CodecType o = "")
        then d ← m1 !! DefaultOption;
             Some (Some opt, None, alter (set_CodecType (Option_CodecType d)) opt m1)
        else Some (Some opt, None, m1)
  end.

(** What [Dial] does outside the client. *)
Inductive dial_event :=
| DialNet                       (* net.Dial(network, address) *)
| EncodeOption (o : Option)     (* json.NewEncoder(conn).Encode(opt) *)
| ConnClose.                    (* conn.Close() *)

(** [NewClient]; [enc] is what the encoding of the option returns. *)
Definition NewClient (codecs : gmap codec.Type_ codec.NewCodecFun)
    (opt : opt_ptr) (m : options) (enc : option codec.io_error)
  : option (option Client * option error * list dial_event) :=
  o ← m !! opt;
  match codecs !! Option_CodecType o with
  | None =>
      Some (None, Some (fmt_Errorf "invalid codec type %s" [Option_CodecType o]), [])
  | Some f =>
      match enc with
      | Some err => Some (None, Some (of_codec err), [EncodeOption o; ConnClose])
      | None => Some (Some newClientCodec, None, [EncodeOption o])
      end
  end.

(** [Dial]; [conn] is the error of [net.Dial] if it fails.  The deferred
    function closes the connection when [NewClient] returns an error. *)
Definition Dial (codecs : gmap codec.Type_ codec.NewCodecFun)
    (opts : list (option opt_ptr)) (m : options)
    (conn enc : option codec.io_error)
  : option (option Client * option error * options * list dial_event) :=
  '(opt, err, m1) ← parseOptions opts m;
  match err with
  | Some err => Some (None, Some err, m1, [])
  | None =>
      match conn with
      | Some err => Some (None, Some (of_codec err), m1, [DialNet])
      | None =>
          opt ← opt;
          '(client, err, l) ← NewClient codecs opt m1 enc;
          Some (client, err, m1,
                DialNet :: l ++ (if err is Some _ then [ConnClose] else []))
      end
  end.

End client.

(** ** Package [main] of the timeout iteration: the service it registers *)

Module main.
Import reflect service.

(** [type Foo int], [type Args struct{ Num1, Num2 int }] and
    [func (f Foo) Sum(args Args, reply *int) error]. *)
Definition Foo : Type_ := TNamed "main" "Foo" TInt.
Definition Args : Type_ := TNamed "main" "Args" (TStruct [TInt; TInt]).
Definition Sum : Method := mkMethod "Sum" [TPtr Foo; Args; TPtr TInt] [TError].

(** [&foo], as [Register] sees it. *)
Definition foo : receiver := mkReceiver "Foo" (TPtr Foo) [Sum].

(** The server after [Register(&foo)]. *)
Definition server : Server :=
  match Register NewServer foo with
  | Some (server, _) => server
  | None => NewServer
  end.

End main.

(** ** Package [xclient]: the discovery of servers *)

Module discovery.

(** [SelectMode], an int, and its two constants. *)
Abbreviation SelectMode := Z.
Definition RandomSelect : SelectMode := 0.
Definition RoundRobinSelect : SelectMode := 1.

(** [errors.New(text)]. *)
Variant error := errors_New (text : string).

(** [MultiServersDiscovery]: the servers and the position of the
    round robin, an int.  The source [r] of random numbers is outside the
    model: what [r.Intn] returns is an input. *)
Record MultiServersDiscovery := mkDiscovery {
  servers : list string;
  index : Z }.

(** The arithmetic of [int], on 64 bits: a sum wraps around; [%] is
    [Z.rem], which truncates toward zero. *)
Definition int_wrap (x : Z) : Z := (x + 2 ^ 63) mod 2 ^ 64 - 2 ^ 63.

(** [s[i]]; [None] is the panic of an index out of range. *)
Definition at_index (s : list string) (i : Z) : option string :=
  if decide (0 ≤ i) then s !! Z.to_nat i else None.

(** [NewMultiServerDiscovery]; [r0] is what [d.r.Intn(math.MaxInt32 - 1)]
    returns. *)
Definition NewMultiServerDiscovery (servers : list string) (r0 : Z)
  : MultiServersDiscovery :=
  {| servers := servers; index := r0 |}.

Definition Refresh (d : MultiServersDiscovery) : option error := None.


(** [Get]; [rnd] is what [d.r.Intn(n)] returns when the mode asks for it;
    [None] is the panic of an index out of range. *)
Definition Get (mode : SelectMode) (rnd : Z) (d : MultiServersDiscovery)
  : option (MultiServersDiscovery * (string * option error)) :=
  let n := Z.of_nat (length (servers d)) in
  if decide (n = 0) then
    Some (d, ("", Some (errors_New "rpc discovery: no available servers")))
  else if decide (mode = RandomSelect) then
    s ← at_index (servers d) rnd;
    Some (d, (s, None))
  else if decide (mode = RoundRobinSelect) then
    s ← at_index (servers d) (Z.rem (index d) n);
    Some ({| servers := servers d; index := Z.rem (int_wrap (index d + 1)) n |},
          (s, None))
  else
    Some (d, ("", Some (errors_New "rpc discovery: not supported select mode"))).


(** [k] calls of [Get(RoundRobinSelect)] in a row, with what they return. *)
Fixpoint round_robin (k : nat) (d : MultiServersDiscovery)
  : option (MultiServersDiscovery * list (string * option error)) :=
  match k with
  | O => Some (d, [])
  | S k =>
      '(d1, r) ← Get RoundRobinSelect 0 d;
      '(d2, rs) ← round_robin k d1;
      Some (d2, r :: rs)
  end.

(** The position is not negative, and it and the number of servers are
    numbers that an int holds with room for one more. *)
Definition in_range (d : MultiServersDiscovery) : Prop :=
  0 ≤ index d < 2 ^ 63 - 1 ∧ Z.of_nat (length (servers d)) < 2 ^ 63.

End discovery.

(** ** Package [regi]: the registry *)

Module regi.

(** The instants of [time.Time] and the durations of [time.Duration] are
    integers, in nanoseconds; what [time.Now()] returns is an input. *)
Record ServerItem := mkServerItem {
  Addr : string;
  start : Z }.

Record GoRegistry := mkRegistry {
  timeout : Z;
  servers : gmap string ServerItem }.

(** [time.Minute * 5]. *)
Definition defaultTimeout : Z := 60000000000 * 5.

Definition New (timeout : Z) : GoRegistry :=
  {| timeout := timeout; servers := ∅ |}.

Definition DefaultGoRegister : GoRegistry := New defaultTimeout.

(** [putServer]; [now] is the instant of the call. *)
Definition putServer (addr : string) (now : Z) (r : GoRegistry) : GoRegistry :=
  match servers r !! addr with
  | None =>
      {| timeout := timeout r;
         servers := <[addr := {| Addr := addr; start := now |}]> (servers r) |}
  | Some s =>
      {| timeout := timeout r;
         servers := <[addr := {| Addr := Addr s; start := now |}]> (servers r) |}
  end.

(** The test of [aliveServers] on one server:
    [r.timeout == 0 || s.start.Add(r.timeout).After(time.Now())]. *)
Definition is_alive (r : GoRegistry) (now : Z) (s : ServerItem) : bool :=
  bool_decide (timeout r = 0) || bool_decide (now < start s + timeout r).

(** [sort.Strings]: the strings in increasing order, byte by byte. *)
Definition sort_Strings (l : list string) : list string :=
  merge_sort String.le l.

(** [aliveServers]: the loop over the map, in the order of [map_to_list],
    then the sort; [now addr] is the instant read in the turn of [addr]. *)
Definition aliveServers (now : string → Z) (r : GoRegistry) : GoRegistry * list string :=
  let res :=
    foldl (λ (acc : gmap string ServerItem * list string) (kv : string * ServerItem),
             if is_alive r (now kv.1) kv.2
             then (acc.1, acc.2 ++ [kv.1])
             else (delete kv.1 acc.1, acc.2))
          (servers r, []) (map_to_list (servers r)) in
  ({| timeout := timeout r; servers := res.1 |}, sort_Strings res.2).

(** [strings.Join(elems, sep)]. *)
Fixpoint Join (elems : list string) (sep : string) : string :=
  match elems with
  | [] => ""
  | [x] => x
  | x :: rest => x +:+ sep +:+ Join rest sep
  end.

(** What [ServeHTTP] does on the response: the status it writes, if any,
    and the header [X-goRPC-Servers] it sets, if any. *)
Record response := mkResponse {
  status : option Z;
  X_goRPC_Servers : option string }.

Definition StatusInternalServerError : Z := 500.
Definition StatusMethodNotAllowed : Z := 405.

(** [ServeHTTP]; [method] is [req.Method], [server] is what
    [req.Header.Get("X-goRPC-Server")] returns, [now] is the instant of
    [putServer] and [nows] the instants of [aliveServers]. *)
Definition ServeHTTP (method server : string) (now : Z) (nows : string → Z)
    (r : GoRegistry) : GoRegistry * response :=
  if decide (method = "GET") then
    let '(r1, alive) := aliveServers nows r in
    (r1, {| status := None; X_goRPC_Servers := Some (Join alive ",") |})
  else if decide (method = "POST") then
    if decide (server = "") then
      (r, {| status := Some StatusInternalServerError; X_goRPC_Servers := None |})
    else (putServer server now r, {| status := None; X_goRPC_Servers := None |})
  else (r, {| status := Some StatusMethodNotAllowed; X_goRPC_Servers := None |}).

End regi.

(** ** Package [xclient]: the client over several servers *)

Module xclient.
Import reflect.

Section XClient.

(** The clients are those of package [loadBalance], and so are [XDial] and
    the errors: of a client the model takes what [IsAvailable] returns, of
    [XDial] what it returns. *)
Context {Client error : Type}.
Variable IsAvailable : Client → bool.

(** What [XClient] does outside itself. *)
Inductive event :=
| EvClientClose (client : Client)     (* client.Close() *)
| EvXDial (rpcAddr : string).         (* loadBalance.XDial(rpcAddr, xc.opt) *)

(** [XClient]: the cache [clients], and the log of what was done. *)
Record XClient := mkXClient {
  clients : gmap string Client;
  log : list event }.

Definition NewXClient : XClient := {| clients := ∅; log := [] |}.

(** [Close]: every client is closed and deleted, in the order of
    [map_to_list]. *)
Definition Close (xc : XClient) : XClient * option error :=
  (foldl (λ (xc : XClient) (kc : string * Client),
            {| clients := delete kc.1 (clients xc);
               log := log xc ++ [EvClientClose kc.2] |})
         xc (map_to_list (clients xc)),
   None).

(** [dial]; [xdial] is what [XDial] returns if it is called. *)
Definition dial (rpcAddr : string) (xdial : error + Client) (xc : XClient)
  : XClient * (option Client * option error) :=
  let '(xc1, client) :=
    match clients xc !! rpcAddr with
    | Some client =>
        if negb (IsAvailable client)
        then ({| clients := delete rpcAddr (clients xc);
                 log := log xc ++ [EvClientClose client] |}, None)
        else (xc, Some client)
    | None => (xc, None)
    end in
  match client with
  | None =>
      let xc2 := {| clients := clients xc1; log := log xc1 ++ [EvXDial rpcAddr] |} in
      match xdial with
      | inl err => (xc2, (None, Some err))
      | inr client =>
          ({| clients := <[rpcAddr := client]> (clients xc2); log := log xc2 |},
           (Some client, None))
      end
  | Some client => (xc1, (Some client, None))
  end.

(** The variables that the goroutines of [Broadcast] share, under [mu]:
    [e], [replyDone], the variable behind [reply] if [reply] is not nil,
    and the calls of [cancel]. *)
Record shared := mkShared {
  e : option error;
  replyDone : bool;
  reply : option val;
  cancels : nat }.

(** The critical section of a goroutine whose [xc.call] returned [err]
    and left [cloned] in its own reply. *)
Definition join (st : shared) (res : option error * val) : shared :=
  let st1 :=
    match res.1, e st with
    | Some err, None =>
        {| e := Some err; replyDone := replyDone st; reply := reply st;
           cancels := S (cancels st) |}
    | _, _ => st
    end in
  match res.1 with
  | None =>
      if negb (replyDone st1)
      then {| e := e st1; replyDone := true; reply := Some res.2; cancels := cancels st1 |}
      else st1
  | Some _ => st1
  end.

(** [Broadcast] after [GetAll]: [reply] is the value behind the pointer
    [reply], or [None] for a nil [reply]; [results] are the results of the
    calls, in the order in which the goroutines get [mu].  After
    [wg.Wait()], [e] is returned. *)
Definition Broadcast (reply : option val) (results : list (option error * val)) : shared :=
  foldl join
    {| e := None; replyDone := bool_decide (reply = None); reply := reply; cancels := 0 |}
    results.

End XClient.

End xclient.

(** * Properties *)

Section ServiceProperties.
Import reflect service.

Example findService_ex :
  let Sum := mkMethodType (mkMethod "Sum" [TInt; TInt; TPtr TInt] [TError]) TInt (TPtr TInt) 0 in
  let foo := {| name := "Foo"; typ := TInt; rcvr := mkReceiver "Foo" TInt [];
                methods := {[ "Sum" := Sum ]} |} in
  let srv := {| serviceMap := {[ "Foo" := foo ]} |} in
  findService srv "Foo.Sum" = (Some foo, Some (Sum), None)
  /\ findService srv "a.Foo.Sum" = (None, None, Some (errors_New "rpc server: can't find servicea.Foo"))
  /\ findService srv "Foo.Bar" = (Some foo, None, Some (errors_New "rpc server: can't find method Bar"))
  /\ findService srv "FooSum" = (None, None, Some (errors_New "rpc server: service/method request ill-formed: FooSum")).
Proof. vm_compute. repeat split. Qed.

(** [strings.LastIndex] on the separator of method names. *)
Lemma LastIndex_dot_cons c s :
  LastIndex (String.String c s) "." =
  if decide (LastIndex s "." = -1)
  then (if decide (c = "."%char) then 0 else -1)
  else LastIndex s "." + 1.
Proof.
  cbn [LastIndex]. destruct (decide (LastIndex s "." = -1)) as [_|_]; [|done].
  cbn [String.prefix]. destruct (Ascii.ascii_dec "." c) as [<-|Hne].
  - rewrite decide_True by done. by destruct s.
  - by rewrite decide_False by congruence.
Qed.

Lemma LastIndex_dot_range s :
  -1 ≤ LastIndex s "." < Z.of_nat (String.length s).
Proof.
  induction s as [|c s IH].
  - cbn. case_decide; [done|lia].
  - rewrite LastIndex_dot_cons. cbn [String.length].
    repeat case_decide; lia.
Qed.

Lemma LastIndex_dot_absent s :
  contains "." s = false → LastIndex s "." = -1.
Proof.
  induction s as [|c s IH]; [done|].
  cbn [contains]. rewrite LastIndex_dot_cons.
  destruct (decide (c = "."%char)); [done|].
  intros H. rewrite (IH H). by rewrite decide_True.
Qed.

Lemma LastIndex_dot_split a b :
  contains "." b = false →
  LastIndex (a +:+ "." +:+ b) "." = Z.of_nat (String.length a).
Proof.
  intros Hb. induction a as [|c a IH].
  - change ("" +:+ "." +:+ b) with (String.String "." b).
    rewrite LastIndex_dot_cons, (LastIndex_dot_absent _ Hb).
    by rewrite !decide_True.
  - change (String.String c a +:+ "." +:+ b) with (String.String c (a +:+ "." +:+ b)).
    rewrite LastIndex_dot_cons, IH. cbn [String.length].
    rewrite decide_False by lia. lia.
Qed.

Lemma slice_to_app a b : slice_to (a +:+ b) (String.length a) = a.
Proof.
  induction a as [|c a IH]; [by destruct b|].
  simpl. by rewrite IH.
Qed.

(** A name with a ['.'] is a service part, the last ['.'], and a method
    part without ['.']. *)
Lemma last_dot_decompose s :
  contains "." s = true → ∃ a b, s = a +:+ "." +:+ b ∧ contains "." b = false.
Proof.
  induction s as [|c s IH]; [done|].
  cbn [contains]. destruct (contains "." s) eqn:Hs.
  - intros _. destruct (IH eq_refl) as (a & b & -> & Hb).
    by exists (String.String c a), b.
  - destruct (decide (c = "."%char)) as [->|]; [|done].
    intros _. by exists "", s.
Qed.

(** C5. [findService] splits the name at its last ['.']: a name without
    ['.'] gets the ill-formed error; any other name is [a.b] with no ['.']
    in [b] and is looked up as service [a] and method [b]: an unknown
    service or an unknown method gets a can't-find error (the service is
    still returned in the second case), and otherwise the service and the
    method handle come back with no error. *)
Theorem findService_splits_at_last_dot (server : Server) (serviceMethod : string) :
  (contains "." serviceMethod = false →
   findService server serviceMethod =
   (None, None,
    Some (errors_New ("rpc server: service/method request ill-formed: " +:+ serviceMethod))))
  ∧ (contains "." serviceMethod = true →
     ∃ a b, serviceMethod = a +:+ "." +:+ b ∧ contains "." b = false)
  ∧ (∀ a b, serviceMethod = a +:+ "." +:+ b → contains "." b = false →
     findService server serviceMethod =
     match serviceMap server !! a with
     | None => (None, None, Some (errors_New ("rpc server: can't find service" +:+ a)))
     | Some svc =>
         match methods svc !! b with
         | None => (Some svc, None, Some (errors_New ("rpc server: can't find method " +:+ b)))
         | Some mtype => (Some svc, Some mtype, None)
         end
     end).
Proof.
  split; [|split].
  - intros H. unfold findService. rewrite (LastIndex_dot_absent _ H).
    by rewrite decide_True by lia.
  - apply last_dot_decompose.
  - intros a b -> Hb. unfold findService.
    rewrite (LastIndex_dot_split _ _ Hb).
    rewrite decide_False by lia.
    rewrite Nat2Z.id, slice_to_app.
    replace (Z.to_nat (Z.of_nat (String.length a) + 1)) with (S (String.length a)) by lia.
    change (slice_from (a +:+ "." +:+ b) (S (String.length a)))
      with (slice_from (a +:+ String.String "." b) (S (String.length a))).
    assert (Hs : ∀ x y c, slice_from (x +:+ String.String c y) (S (String.length x)) = y).
    { intros x y c. induction x as [|d x IH]; cbn; [by destruct y|done]. }
    by rewrite Hs.
Qed.

Lemma findService_splits_at_last_dot_witness :
  let Sum := mkMethodType (mkMethod "Sum" [TInt; TInt; TPtr TInt] [TError]) TInt (TPtr TInt) 0 in
  let foo := {| name := "Foo"; typ := TInt; rcvr := mkReceiver "Foo" TInt [];
                methods := {[ "Sum" := Sum ]} |} in
  let srv := {| serviceMap := {[ "a.Foo" := foo ]} |} in
  findService srv "FooSum" =
    (None, None, Some (errors_New "rpc server: service/method request ill-formed: FooSum"))
  ∧ findService srv "a.Foo.Sum" =
    (Some foo, Some (Sum), None).
Proof.
  intros Sum foo srv. split.
  - apply (proj1 (findService_splits_at_last_dot srv "FooSum")). reflexivity.
  - apply (proj2 (proj2 (findService_splits_at_last_dot srv "a.Foo.Sum")) "a.Foo" "Sum");
      reflexivity.
Defined.

(** *** [newReplyv] *)

Lemma newReplyv_pointer_reply (m : methodType) (hp : heap) (et : Type_) :
  Type_Elem (ReplyType m) = Some et →
  ∃ a v, newReplyv m hp = Some (ValueOf (TPtr et) (VPtr a), <[a := (et, v)]> hp)
         ∧ hp !! a = None
         ∧ v = match Type_Kind et with
               | Map => VMap []
               | Slice => VSlice []
               | _ => zero et
               end.
Proof.
  intros He. unfold newReplyv. rewrite He. cbn.
  set (a := fresh (dom hp)).
  assert (Ha : hp !! a = None).
  { apply not_elem_of_dom. apply is_fresh. }
  destruct (Type_Kind et) eqn:Hk; cbn;
    try (eexists a, _; split; [reflexivity|]; split; [done|]; done).
  - exists a, (VMap []). by rewrite insert_insert_eq.
  - exists a, (VSlice []). by rewrite insert_insert_eq.
Qed.

(** *** The request pipeline *)

Lemma readRequest_reads_header (server : Server) (w : World) :
  match readRequest server w with
  | ReadReturns req err w1 =>
      (∃ tl, log w1 = log w ++ EvReadHeader :: tl)
      ∧ (is_Some req → (length (inbox w1) < length (inbox w))%nat)
  | ReadPanics w1 => ∃ tl, log w1 = log w ++ EvReadHeader :: tl
  end.
Proof.
  unfold readRequest, readRequestHeader, ReadHeader.
  destruct (inbox w) as [|it rest] eqn:Hin.
  { cbn. split; [by eexists|]. by intros [? [=]]. }
  destruct (as_header it) as [e|hd]; cbn.
  { split; [by eexists|]. by intros [? [=]]. }
  destruct (findService server (codec.ServiceMethod hd)) as [[sv mt] [err|]]; cbn.
  { split; [by eexists|]. intros _. lia. }
  destruct (new_holders mt _) as [[[[av rv] a] m2]|]; cbn; [|by eexists].
  unfold ReadBody; cbn. destruct rest as [|it2 rest2]; cbn.
  { split; [rewrite <- app_assoc; by eexists|]. intros _. lia. }
  destruct (as_body it2) as [e|v]; cbn;
    (split; [rewrite <- app_assoc; by eexists|]; intros _; lia).
Qed.

Lemma serve_loop_reads_header (fuel : nat) (server : Server) (w : World) (o : outcome) :
  serve_loop fuel server w = Some o →
  ∃ tl, log (outcome_world o) = log w ++ EvReadHeader :: tl.
Proof.
  revert w. induction fuel as [|fuel IH]; intros w; [done|].
  cbn [serve_loop]. pose proof (readRequest_reads_header server w) as Hr.
  destruct (readRequest server w) as [req err w1|w1].
  - destruct Hr as [[tl Htl] _].
    destruct err as [err|]; destruct req as [req|].
    + intros Ho. apply IH in Ho as [tl' Ho]. rewrite Ho. cbn. rewrite Htl.
      rewrite <- !app_assoc. cbn. by eexists.
    + intros [= <-]. cbn. by eexists.
    + intros Ho. apply IH in Ho as [tl' Ho]. rewrite Ho. cbn. rewrite Htl.
      rewrite <- !app_assoc. cbn. by eexists.
    + intros [= <-]. cbn. by eexists.
  - intros [= <-]. exact Hr.
Qed.

Lemma serve_loop_more_fuel (fuel fuel' : nat) (server : Server) (w : World) (o : outcome) :
  serve_loop fuel server w = Some o → (fuel ≤ fuel')%nat →
  serve_loop fuel' server w = Some o.
Proof.
  revert fuel' w. induction fuel as [|fuel IH]; intros fuel' w; [done|].
  intros Ho Hle. destruct fuel' as [|fuel']; [lia|].
  cbn [serve_loop] in *.
  destruct (readRequest server w) as [[req|] [err|] w1|w1]; try done;
    apply IH; [done|lia|done|lia].
Qed.

(** The loop of [serveCodec] ends: the fuel that [serveCodec] gives it is
    enough. *)
Lemma serve_loop_ends (fuel : nat) (server : Server) (w : World) :
  (length (inbox w) < fuel)%nat → is_Some (serve_loop fuel server w).
Proof.
  revert w. induction fuel as [|fuel IH]; intros w Hlt; [lia|].
  cbn [serve_loop]. pose proof (readRequest_reads_header server w) as Hr.
  destruct (readRequest server w) as [[req|] [err|] w1|w1]; try done.
  - destruct Hr as [_ Hr]. apply IH. cbn. specialize (Hr (mk_is_Some _ _ eq_refl)). lia.
  - destruct Hr as [_ Hr]. apply IH. cbn. specialize (Hr (mk_is_Some _ _ eq_refl)). lia.
Qed.

(** [serveCodec] goes on from where its loop ended. *)
Lemma serveCodec_after_loop (server : Server) (w : World) :
  ∃ o1 o tl,
    serve_loop (S (length (inbox w))) server w = Some o1
    ∧ serveCodec server w = Some o
    ∧ log (outcome_world o) = log (outcome_world o1) ++ tl.
Proof.
  unfold serveCodec.
  destruct (serve_loop_ends (S (length (inbox w))) server w) as [o1 Ho]; [lia|].
  rewrite Ho. cbn. destruct o1 as [w1|w1|w1].
  - destruct (decide (started w w1 = 0%nat)).
    + exists (Returns w1), (Returns (emit EvCodecClose (emit EvWait w1))), [EvWait; EvCodecClose].
      split; [done|]. split; [done|]. cbn. by rewrite <- app_assoc.
    + exists (Returns w1), (Waits w1), []. by rewrite app_nil_r.
  - exists (Panics w1), (Panics w1), []. by rewrite app_nil_r.
  - exists (Waits w1), (Waits w1), []. by rewrite app_nil_r.
Qed.

Lemma serveCodec_ends (server : Server) (w : World) : is_Some (serveCodec server w).
Proof.
  destruct (serveCodec_after_loop server w) as (o1 & o & tl & _ & Ho & _).
  by exists o.
Qed.

Lemma serveCodec_reads_header (server : Server) (w : World) (o : outcome) :
  serveCodec server w = Some o →
  ∃ tl, log (outcome_world o) = log w ++ EvReadHeader :: tl.
Proof.
  destruct (serveCodec_after_loop server w) as (o1 & o' & tl2 & Hl & Ho & Hlog).
  rewrite Ho. intros [= <-].
  apply serve_loop_reads_header in Hl as [tl Htl].
  rewrite Hlog, Htl. rewrite <- app_assoc. cbn. by eexists.
Qed.

Lemma serve_loop_fuel_irrelevant (fuel fuel' : nat) (server : Server) (w : World) :
  (length (inbox w) < fuel)%nat → (length (inbox w) < fuel')%nat →
  serve_loop fuel server w = serve_loop fuel' server w.
Proof.
  intros H1 H2.
  destruct (serve_loop_ends (S (length (inbox w))) server w) as [o Ho]; [lia|].
  rewrite (serve_loop_more_fuel _ fuel _ _ _ Ho) by lia.
  by rewrite (serve_loop_more_fuel _ fuel' _ _ _ Ho) by lia.
Qed.

(** C4, on requests whose method is not resolved (step 2).  [readRequest]
    returns the error of [findService] before it reads the body, so the
    body stays in the stream.  The server writes the error response, with
    the failure text in the error field of the header and [invalidRequest]
    as body; the next read of a header then falls on the body that was left,
    fails, and ends the loop: [serveCodec] closes the codec and [ServeConn]
    the connection, and the request that the peer sent afterwards is never
    read.  So it is for a method, a service or a name that is not found.
    The same stream with a method that resolves is served to its end: both
    requests are handed to a handler. *)
Theorem unresolved_method_closes_the_connection :
  let body := mkItem (inl (codec.io_err "not a header")) (inr (VStruct [VInt 1; VInt 2])) in
  let request := λ (sm : string) (seq : Z),
    mkItem (inr (codec.mkHeader sm seq "")) (inl (codec.io_err "not a body")) in
  let stream := λ sm : string,
    mkWorld (inr DefaultOption) [request sm 7; body; request "Foo.Sum" 8; body] ∅ [] in
  let closed := λ (sm text : string) (tl : list event),
    mkWorld (inr DefaultOption) [request "Foo.Sum" 8; body] ∅
      ([EvReadHeader; EvWrite (codec.mkHeader sm 7 text) invalidRequest;
        EvReadHeader; EvWait; EvCodecClose] ++ tl) in
  serveCodec main.server (stream "Foo.Missing")
  = Some (Returns (closed "Foo.Missing" "rpc server: can't find method Missing" []))
  ∧ serveCodec main.server (stream "Bar.Sum")
    = Some (Returns (closed "Bar.Sum" "rpc server: can't find serviceBar" []))
  ∧ serveCodec main.server (stream "FooSum")
    = Some (Returns (closed "FooSum"
                       "rpc server: service/method request ill-formed: FooSum" []))
  ∧ ServeConn codec.NewCodecFuncMap main.server (stream "Foo.Missing")
    = Some (Returns
              (mkWorld (inr DefaultOption) [request "Foo.Sum" 8; body] ∅
                 [EvDecodeOption; EvReadHeader;
                  EvWrite (codec.mkHeader "Foo.Missing" 7
                             "rpc server: can't find method Missing") invalidRequest;
                  EvReadHeader; EvWait; EvCodecClose; EvConnClose]))
  ∧ ∃ w1, serveCodec main.server (stream "Foo.Sum") = Some (Waits w1)
          ∧ inbox w1 = []
          ∧ tally is_dispatch (log w1) = 2%nat
          ∧ tally is_answer (log w1) = 0%nat.
Proof.
  intros body request stream closed.
  split; [vm_compute; reflexivity|]. split; [vm_compute; reflexivity|].
  split; [vm_compute; reflexivity|]. split; [vm_compute; reflexivity|].
  eexists. split; [vm_compute; reflexivity|]. by repeat split.
Qed.

(** C6. When the decoded [Option] has another magic number, or a codec type
    that no constructor is bound to, [ServeConn] only closes the connection:
    after the decoding of the option its one act is [conn.Close()]; no value
    is read from the connection and nothing is written on it. *)
Theorem ServeConn_drops_bad_handshake
    (codecs : gmap codec.Type_ codec.NewCodecFun) (server : Server) (w : World)
    (opt : Option) :
  handshake w = inr opt →
  Option_MagicNumber opt ≠ MagicNumber ∨ codecs !! Option_CodecType opt = None →
  ServeConn codecs server w =
  Some (Returns {| handshake := handshake w; inbox := inbox w; mem := mem w;
                   log := log w ++ [EvDecodeOption; EvConnClose] |}).
Proof.
  intros Hh Hbad.
  assert (Hw : emit EvConnClose (emit EvDecodeOption w)
               = {| handshake := handshake w; inbox := inbox w; mem := mem w;
                    log := log w ++ [EvDecodeOption; EvConnClose] |}).
  { unfold emit. cbn. by rewrite <- app_assoc. }
  rewrite <- Hw. unfold ServeConn. cbv zeta.
  change (handshake (emit EvDecodeOption w)) with (handshake w). rewrite Hh.
  destruct (decide (Option_MagicNumber opt ≠ MagicNumber)) as [|Heq]; [done|].
  destruct Hbad as [Hm|Hc]; [done|]. by rewrite Hc.
Qed.

Lemma ServeConn_drops_bad_handshake_witness :
  let w := mkWorld (inr (mkOption 1 codec.GobType))
             [mkItem (inr (codec.mkHeader "Foo.Sum" 1 "")) (inl (codec.io_err "not a body"))]
             ∅ [] in
  ServeConn codec.NewCodecFuncMap main.server w =
  Some (Returns {| handshake := handshake w; inbox := inbox w; mem := mem w;
                   log := [EvDecodeOption; EvConnClose] |})
  ∧ ServeConn codec.NewCodecFuncMap main.server
      (mkWorld (inr (mkOption MagicNumber codec.JsonType)) (inbox w) ∅ []) =
    Some (Returns {| handshake := inr (mkOption MagicNumber codec.JsonType);
                     inbox := inbox w; mem := ∅;
                     log := [EvDecodeOption; EvConnClose] |}).
Proof.
  intros w. split.
  - apply (ServeConn_drops_bad_handshake codec.NewCodecFuncMap main.server w
             (mkOption 1 codec.GobType)); [reflexivity|].
    left. vm_compute. discriminate.
  - apply (ServeConn_drops_bad_handshake codec.NewCodecFuncMap main.server
             (mkWorld (inr (mkOption MagicNumber codec.JsonType)) (inbox w) ∅ [])
             (mkOption MagicNumber codec.JsonType)); [reflexivity|].
    right. vm_compute. reflexivity.
Defined.

(** C10, on a handle that [registerMethods] lets in.  A method
    [Bad(args int, reply int) error] passes every test of [registerMethods]
    (three parameters, one result of type [error], builtin parameter types);
    its [ReplyType] is [int], which has no element type, so [newReplyv]
    panics in [Type.Elem()] and returns no pointer; a request for the method
    makes the goroutine of [ServeConn] panic. *)
Theorem newReplyv_panics_on_value_reply :
  let Bad := mkMethod "Bad" [TPtr main.Foo; TInt; TInt] [TError] in
  let foo := mkReceiver "Foo" (TPtr main.Foo) [Bad] in
  let m := mkMethodType Bad TInt TInt 0 in
  (methods <$> newService foo) = Some {[ "Bad" := m ]}
  ∧ newReplyv m ∅ = None
  ∧ ∃ server,
      Register NewServer foo = Some (server, None)
      ∧ ServeConn codec.NewCodecFuncMap server
          (mkWorld (inr DefaultOption)
             [mkItem (inr (codec.mkHeader "Foo.Bad" 1 "")) (inl (codec.io_err "not a body"));
              mkItem (inl (codec.io_err "not a header")) (inr (VInt 3))]
             ∅ [])
        = Some (Panics (mkWorld (inr DefaultOption)
                          [mkItem (inl (codec.io_err "not a header")) (inr (VInt 3))]
                          ∅ [EvDecodeOption; EvReadHeader; EvConnClose])).
Proof.
  intros Bad foo m. split; [reflexivity|]. split; [reflexivity|].
  eexists. split; reflexivity.
Qed.

(** ** More of package [service] *)

(** *** [registerMethods], [Register] and [findService] *)

Lemma registerMethods_snoc_cases (ms : list Method) (x : Method) :
  registerMethods (ms ++ [x]) = registerMethods ms
  ∨ ∃ rc a rp o,
      In x = [rc; a; rp] ∧ Out x = [o] ∧ Type_is_error o = true
      ∧ isExportedOrBuiltinType a = true ∧ isExportedOrBuiltinType rp = true
      ∧ registerMethods (ms ++ [x])
        = <[Name x := mkMethodType x a rp 0]> (registerMethods ms).
Proof.
  unfold registerMethods. rewrite foldl_snoc. cbv beta.
  destruct (In x) as [|rc [|a [|rp [|? ?]]]] eqn:Hi;
    destruct (Out x) as [|o [|? ?]] eqn:Ho; cbn; try (by left).
  destruct (Type_is_error o) eqn:He; cbn; [|by left].
  destruct (isExportedOrBuiltinType a) eqn:Ha; cbn; [|by left].
  destruct (isExportedOrBuiltinType rp) eqn:Hr; cbn; [|by left].
  right. by exists rc, a, rp, o.
Qed.

Lemma registerMethods_snoc_eligible (ms : list Method) (x : Method) (rc a rp o : Type_) :
  In x = [rc; a; rp] → Out x = [o] → Type_is_error o = true →
  isExportedOrBuiltinType a = true → isExportedOrBuiltinType rp = true →
  registerMethods (ms ++ [x]) = <[Name x := mkMethodType x a rp 0]> (registerMethods ms).
Proof.
  intros Hi Ho He Ha Hr. unfold registerMethods. rewrite foldl_snoc. cbv beta.
  rewrite Hi, Ho. cbn. by rewrite He, Ha, Hr.
Qed.

(** A handle in the table comes from a method that passes the tests. *)
Lemma registerMethods_sound (ms : list Method) (nm : string) (mt : methodType) :
  registerMethods ms !! nm = Some mt →
  ∃ m rc a rp o,
    m ∈ ms ∧ Name m = nm ∧ In m = [rc; a; rp] ∧ Out m = [o]
    ∧ Type_is_error o = true ∧ isExportedOrBuiltinType a = true
    ∧ isExportedOrBuiltinType rp = true ∧ mt = mkMethodType m a rp 0.
Proof.
  induction ms as [|x ms IH] using rev_ind; [done|].
  intros Hl.
  destruct (registerMethods_snoc_cases ms x)
    as [E|(rc & a & rp & o & Hi & Ho & He & Ha & Hr & E)]; rewrite E in Hl.
  - destruct (IH Hl) as (m & rc & a & rp & o & Hm & H).
    exists m, rc, a, rp, o. split; [|done]. apply elem_of_app. by left.
  - apply lookup_insert_Some in Hl as [[<- <-]|[Hne Hl]].
    + exists x, rc, a, rp, o. split; [|done].
      apply elem_of_app. right. by apply list_elem_of_singleton.
    + destruct (IH Hl) as (m & rc' & a' & rp' & o' & Hm & H).
      exists m, rc', a', rp', o'. split; [|done]. apply elem_of_app. by left.
Qed.

(** A method that passes the tests gets its handle, the names of a method
    set being different. *)
Lemma registerMethods_complete (ms : list Method) (m : Method) (rc a rp o : Type_) :
  NoDup (Name <$> ms) → m ∈ ms →
  In m = [rc; a; rp] → Out m = [o] → Type_is_error o = true →
  isExportedOrBuiltinType a = true → isExportedOrBuiltinType rp = true →
  registerMethods ms !! Name m = Some (mkMethodType m a rp 0).
Proof.
  induction ms as [|x ms IH] using rev_ind; intros Hnd Hm Hi Ho He Ha Hr.
  { by apply elem_of_nil in Hm. }
  rewrite fmap_app in Hnd. apply NoDup_app in Hnd as (Hnd & Hx & _).
  apply elem_of_app in Hm as [Hm|Hm].
  - assert (Hne : Name x ≠ Name m).
    { intros E. apply (Hx (Name m)).
      - apply list_elem_of_fmap. by exists m.
      - rewrite <- E. cbn. by apply list_elem_of_singleton. }
    destruct (registerMethods_snoc_cases ms x)
      as [E|(rc' & a' & rp' & o' & _ & _ & _ & _ & _ & E)]; rewrite E.
    + by apply IH.
    + rewrite lookup_insert_ne by done. by apply IH.
  - apply list_elem_of_singleton in Hm as ->.
    rewrite (registerMethods_snoc_eligible ms x rc a rp o) by done.
    by rewrite lookup_insert_eq.
Qed.

(** [ast.IsExported] looks at the first rune, not at the first byte: a name
    that begins with an upper case letter outside ASCII is exported, one
    that begins with a lower case letter, a title case letter, a letter
    without case or an underscore is not, and neither is the empty name nor
    a name that begins with a wrong encoding. *)
Lemma IsExported_first_rune :
  IsExported "Args" = true ∧ IsExported "args" = false
  ∧ "Ärgs" = String.String (ascii_of_nat 195) (String.String (ascii_of_nat 132) "rgs")
  ∧ DecodeRuneInString "Ärgs" = 0xC4
  ∧ IsExported "Ärgs" = true ∧ IsExported "ärgs" = false
  ∧ IsExported "Δx" = true ∧ IsExported "δx" = false
  ∧ IsExported "ǅ" = false ∧ IsExported "世界" = false
  ∧ IsExported "_Args" = false ∧ IsExported "" = false
  ∧ IsExported (String.String (ascii_of_nat 195) "rgs") = false.
Proof. by vm_compute. Qed.

(** X1. [registerMethods] keeps exactly the methods that pass its tests:
    in the table of a method set (whose names differ), a name has a handle
    if and only if the method of that name has three parameters and one
    result, the result is [error], and the two parameter types after the
    receiver are exported or builtin; the handle then holds the method, its
    second and third parameter types as [ArgType] and [ReplyType], and a
    call count of zero. *)
Theorem registerMethods_keeps_eligible (ms : list Method) (nm : string) (mt : methodType) :
  NoDup (Name <$> ms) →
  registerMethods ms !! nm = Some mt ↔
  ∃ m rc a rp o,
    m ∈ ms ∧ Name m = nm ∧ In m = [rc; a; rp] ∧ Out m = [o]
    ∧ Type_is_error o = true ∧ isExportedOrBuiltinType a = true
    ∧ isExportedOrBuiltinType rp = true ∧ mt = mkMethodType m a rp 0.
Proof.
  intros Hnd. split; [apply registerMethods_sound|].
  intros (m & rc & a & rp & o & Hm & <- & Hi & Ho & He & Ha & Hr & ->).
  by apply (registerMethods_complete ms m rc a rp o).
Qed.

Lemma registerMethods_keeps_eligible_witness :
  let Ärgs := TNamed "main" "Ärgs" (TStruct [TInt; TInt]) in
  let args := TNamed "main" "ärgs" (TStruct [TInt; TInt]) in
  let Swap := mkMethod "Swap" [TPtr main.Foo; Ärgs; TPtr TInt] [TError] in
  let swap := mkMethod "Low" [TPtr main.Foo; args; TPtr TInt] [TError] in
  NoDup (Name <$> [main.Sum; Swap; swap])
  ∧ registerMethods [main.Sum; Swap; swap] !! "Swap"
    = Some (mkMethodType Swap Ärgs (TPtr TInt) 0)
  ∧ registerMethods [main.Sum; Swap; swap] !! "Low" = None.
Proof.
  intros Ärgs args Swap swap.
  assert (Hnd : NoDup (Name <$> [main.Sum; Swap; swap])).
  { apply NoDup_ListNoDup. repeat constructor; cbn; intuition discriminate. }
  split; [exact Hnd|]. split.
  - apply (registerMethods_keeps_eligible [main.Sum; Swap; swap] "Swap" _ Hnd).
    exists Swap, (TPtr main.Foo), Ärgs, (TPtr TInt), TError.
    split; [apply elem_of_cons; right; apply elem_of_cons; by left|].
    repeat split; reflexivity.
  - destruct (registerMethods [main.Sum; Swap; swap] !! "Low") as [mt|] eqn:Hl; [|done].
    apply (registerMethods_keeps_eligible [main.Sum; Swap; swap] "Low" _ Hnd) in Hl
      as (m & rc & a & rp & o & Hm & Hn & Hi & _ & _ & Ha & _).
    repeat (apply elem_of_cons in Hm as [->|Hm]; [by (discriminate Hn || (injection Hi as _ <- _; discriminate Ha))|]).
    by apply elem_of_nil in Hm.
Defined.

(** [findService] on a name whose method part has no ['.']. *)
Lemma findService_dot (server : Server) (a b : string) :
  contains "." b = false →
  findService server (a +:+ "." +:+ b) =
  match serviceMap server !! a with
  | None => (None, None, Some (errors_New ("rpc server: can't find service" +:+ a)))
  | Some svc =>
      match methods svc !! b with
      | None => (Some svc, None, Some (errors_New ("rpc server: can't find method " +:+ b)))
      | Some mtype => (Some svc, Some mtype, None)
      end
  end.
Proof.
  intros Hb. unfold findService.
  rewrite (LastIndex_dot_split _ _ Hb).
  rewrite decide_False by lia.
  rewrite Nat2Z.id, slice_to_app.
  replace (Z.to_nat (Z.of_nat (String.length a) + 1)) with (S (String.length a)) by lia.
  change (slice_from (a +:+ "." +:+ b) (S (String.length a)))
    with (slice_from (a +:+ String.String "." b) (S (String.length a))).
  assert (Hs : ∀ x y c, slice_from (x +:+ String.String c y) (S (String.length x)) = y).
  { intros x y c. induction x as [|d x IH]; cbn; [by destruct y|done]. }
  by rewrite Hs.
Qed.

(** X2. What [Register] stores, [findService] finds: after the
    registration of a receiver whose type name is exported and not yet
    taken, the name [Type.Method] of every method that passes the tests of
    [registerMethods] resolves to the new service and to the handle of that
    method, without error; the services of the other names are as before. *)
Theorem Register_then_findService
    (server : Server) (r : receiver) (m : Method) (rc a rp o : Type_) :
  IsExported (rcvr_name r) = true →
  serviceMap server !! rcvr_name r = None →
  NoDup (Name <$> rcvr_methods r) →
  m ∈ rcvr_methods r →
  contains "." (Name m) = false →
  In m = [rc; a; rp] → Out m = [o] → Type_is_error o = true →
  isExportedOrBuiltinType a = true → isExportedOrBuiltinType rp = true →
  ∃ server1 s,
    Register server r = Some (server1, None)
    ∧ name s = rcvr_name r ∧ rcvr s = r
    ∧ findService server1 (rcvr_name r +:+ "." +:+ Name m)
      = (Some s, Some (mkMethodType m a rp 0), None)
    ∧ ∀ k, k ≠ rcvr_name r → serviceMap server1 !! k = serviceMap server !! k.
Proof.
  intros Hex Hfree Hnd Hm Hdot Hi Ho He Ha Hr.
  set (s := {| name := rcvr_name r; typ := rcvr_type r; rcvr := r;
               methods := registerMethods (rcvr_methods r) |}).
  exists {| serviceMap := <[rcvr_name r := s]> (serviceMap server) |}, s.
  split; [|split; [done|split; [done|split]]].
  - unfold Register, newService. rewrite Hex. cbn. by rewrite Hfree.
  - rewrite (findService_dot _ _ _ Hdot). cbn. rewrite lookup_insert_eq. cbn.
    by rewrite (registerMethods_complete _ m rc a rp o).
  - intros k Hk. cbn. by rewrite lookup_insert_ne.
Qed.

Lemma Register_then_findService_witness :
  ∃ server1 s,
    Register NewServer main.foo = Some (server1, None)
    ∧ name s = "Foo" ∧ rcvr s = main.foo
    ∧ findService server1 "Foo.Sum"
      = (Some s, Some (mkMethodType main.Sum main.Args (TPtr TInt) 0), None)
    ∧ ∀ k, k ≠ "Foo" → serviceMap server1 !! k = serviceMap NewServer !! k.
Proof.
  apply (Register_then_findService NewServer main.foo main.Sum
           (TPtr main.Foo) main.Args (TPtr TInt) TError); try reflexivity.
  - apply NoDup_singleton.
  - by apply list_elem_of_singleton.
Defined.

(** X3. [Register] keeps the first service of a name: once a receiver is
    registered, the registration of a receiver of the same type name returns
    the error "rpc: service already defined: " followed by the name, and
    the server is as it was, the first receiver still under the name. *)
Theorem Register_keeps_first_service (server server1 : Server) (r r2 : receiver) :
  Register server r = Some (server1, None) →
  rcvr_name r2 = rcvr_name r →
  Register server1 r2
  = Some (server1, Some (errors_New ("rpc: service already defined: " +:+ rcvr_name r)))
  ∧ rcvr <$> serviceMap server1 !! rcvr_name r = Some r.
Proof.
  unfold Register, newService. intros H1 Hn. rewrite Hn.
  destruct (IsExported (rcvr_name r)); [|done]. cbn in *.
  destruct (serviceMap server !! rcvr_name r); [done|].
  injection H1 as <-. cbn. by rewrite lookup_insert_eq.
Qed.

Lemma Register_keeps_first_service_witness :
  Register main.server (mkReceiver "Foo" (TPtr main.Foo) [])
  = Some (main.server, Some (errors_New "rpc: service already defined: Foo"))
  ∧ rcvr <$> serviceMap main.server !! "Foo" = Some main.foo.
Proof.
  apply (Register_keeps_first_service NewServer main.server main.foo
           (mkReceiver "Foo" (TPtr main.Foo) [])); reflexivity.
Defined.

(** *** [newArgv] and the holders of [readRequest] *)

Lemma Type_Elem_of_Ptr (t : Type_) : Type_Kind t = Ptr → ∃ e, Type_Elem t = Some e.
Proof. induction t; cbn; try done; eauto. Qed.

(** X4. [newArgv] never panics, whatever the argument type: it allocates
    one new variable, holding the zero value; for an argument type of kind
    pointer the variable has the pointed-to type and the result is the
    pointer to it, for any other argument type the variable has the
    argument type and the result is the variable itself. *)
Theorem newArgv_allocates (m : methodType) (hp : heap) :
  ∃ a T,
    hp !! a = None
    ∧ (if decide (Type_Kind (ArgType m) = Ptr)
       then Type_Elem (ArgType m) = Some T else T = ArgType m)
    ∧ newArgv m hp
      = Some (if decide (Type_Kind (ArgType m) = Ptr)
              then ValueOf (TPtr T) (VPtr a) else Variable_ T a,
              <[a := (T, zero T)]> hp).
Proof.
  assert (Ha : hp !! fresh (dom hp) = None).
  { apply not_elem_of_dom. apply is_fresh. }
  unfold newArgv. destruct (decide (Type_Kind (ArgType m) = Ptr)) as [Hk|Hk].
  - destruct (Type_Elem_of_Ptr _ Hk) as [e He]. rewrite He. cbn.
    by exists (fresh (dom hp)), e.
  - cbn. by exists (fresh (dom hp)), (ArgType m).
Qed.

(** The holders of [readRequest] are made whenever the reply type has an
    element type. *)
Lemma new_holders_succeed (mt : methodType) (hp : heap) (et : Type_) :
  Type_Elem (ReplyType mt) = Some et →
  ∃ av rv a m2, new_holders (Some mt) hp = Some (av, rv, a, m2).
Proof.
  intros Het. unfold new_holders, newArgv. cbn.
  destruct (decide (Type_Kind (ArgType mt) = Ptr)) as [Hk|Hk].
  - destruct (Type_Elem_of_Ptr _ Hk) as [e He]. rewrite He. cbn.
    destruct (newReplyv_pointer_reply mt (<[fresh (dom hp) := (e, zero e)]> hp) et Het)
      as (b & x & -> & _). cbn. by eexists _, _, _, _.
  - cbn.
    destruct (newReplyv_pointer_reply mt
                (<[fresh (dom hp) := (ArgType mt, zero (ArgType mt))]> hp) et Het)
      as (b & x & -> & _). cbn. rewrite decide_True by done. cbn. by eexists _, _, _, _.
Qed.

(** A request whose body does not decode (step 3) is answered, with the
    text of the error in the header, and the loop goes on in step with the
    stream: the header and the body are consumed, and the next read of a
    header gets the value that follows the body. *)
Lemma body_failure_keeps_the_pipeline
    (server : Server) (w : World) (it bd : item) (rest : list item)
    (hd : codec.Header) (sv : option service) (mt : methodType) (et : Type_)
    (e : codec.io_error) (fuel : nat) :
  inbox w = it :: bd :: rest →
  as_header it = inr hd →
  findService server (codec.ServiceMethod hd) = (sv, Some mt, None) →
  Type_Elem (ReplyType mt) = Some et →
  as_body bd = inl e →
  ∃ a w1,
    inbox w1 = rest
    ∧ log w1 = log w ++ [EvReadHeader; EvReadBody a]
    ∧ serve_loop (S fuel) server w
      = serve_loop fuel server
          (emit (EvWrite (set_Error (codec.io_message e) hd) invalidRequest) w1).
Proof.
  intros Hin Hit Hf Het Hbd.
  destruct (new_holders_succeed mt (mem w) et Het) as (av & rv & a & m2 & Hh).
  exists a, (emit (EvReadBody a)
               (set_inbox rest (set_mem m2 (emit EvReadHeader (set_inbox (bd :: rest) w))))).
  split; [done|]. split; [cbn; by rewrite <- app_assoc|].
  cbn [serve_loop]. unfold readRequest, readRequestHeader, ReadHeader.
  rewrite Hin, Hit, Hf. cbn [mem emit set_inbox]. rewrite Hh.
  unfold ReadBody. cbn. by rewrite Hbd.
Qed.

(** X5. A request whose method resolves, whose reply type has an element
    type and whose body decodes, is read into two new variables: the decoded
    value is stored in the argument variable, the reply variable is another
    one, no variable that existed before is touched; [readRequest] returns
    the request with both holders and no error, and [serveCodec] hands it to
    a goroutine of [handleRequest] and reads the next header, without
    writing anything itself. *)
Theorem readRequest_decodes_into_new_argument
    (server : Server) (w : World) (it bd : item) (rest : list item)
    (hd : codec.Header) (sv : option service) (mt : methodType) (et : Type_) (v : val) :
  inbox w = it :: bd :: rest →
  as_header it = inr hd →
  findService server (codec.ServiceMethod hd) = (sv, Some mt, None) →
  Type_Elem (ReplyType mt) = Some et →
  as_body bd = inr v →
  ∃ av a T b x w1,
    let req := mkRequest hd (Some av) (Some (ValueOf (TPtr et) (VPtr b))) (Some mt) sv in
    readRequest server w = ReadReturns (Some req) None w1
    ∧ inbox w1 = rest
    ∧ log w1 = log w ++ [EvReadHeader; EvReadBody a]
    ∧ av = (if decide (Type_Kind (ArgType mt) = Ptr)
            then ValueOf (TPtr T) (VPtr a) else Variable_ T a)
    ∧ a ≠ b ∧ mem w !! a = None ∧ mem w !! b = None
    ∧ mem w1 !! a = Some (T, v) ∧ mem w1 !! b = Some (et, x)
    ∧ (∀ l, l ≠ a → l ≠ b → mem w1 !! l = mem w !! l)
    ∧ ∃ o tl, serveCodec server w = Some o
              ∧ log (outcome_world o)
                = log w ++ [EvReadHeader; EvReadBody a; EvGoHandleRequest req; EvReadHeader] ++ tl.
Proof.
  intros Hin Hit Hf Het Hbd.
  assert (Harg : ∃ a T,
            mem w !! a = None
            ∧ (if decide (Type_Kind (ArgType mt) = Ptr)
               then Type_Elem (ArgType mt) = Some T else T = ArgType mt)
            ∧ newArgv mt (mem w)
              = Some (if decide (Type_Kind (ArgType mt) = Ptr)
                      then ValueOf (TPtr T) (VPtr a) else Variable_ T a,
                      <[a := (T, zero T)]> (mem w))).
  { assert (Hnew : mem w !! fresh (dom (mem w)) = None).
    { apply not_elem_of_dom. apply is_fresh. }
    unfold newArgv. destruct (decide (Type_Kind (ArgType mt) = Ptr)) as [Hk|Hk].
    - destruct (Type_Elem_of_Ptr _ Hk) as [e He]. rewrite He. cbn.
      by exists (fresh (dom (mem w))), e.
    - cbn. by exists (fresh (dom (mem w))), (ArgType mt). }
  destruct Harg as (a & T & Ha & HT & Hav).
  destruct (newReplyv_pointer_reply mt (<[a := (T, zero T)]> (mem w)) et Het)
    as (b & x & Hrv & Hb & _).
  assert (Hab : a ≠ b).
  { intros <-. by rewrite lookup_insert_eq in Hb. }
  rewrite lookup_insert_ne in Hb by done.
  set (av := if decide (Type_Kind (ArgType mt) = Ptr)
             then ValueOf (TPtr T) (VPtr a) else Variable_ T a) in *.
  set (m2 := <[b := (et, x)]> (<[a := (T, zero T)]> (mem w))) in *.
  assert (Hh : new_holders (Some mt) (mem w)
               = Some (av, ValueOf (TPtr et) (VPtr b), a, m2)).
  { unfold new_holders. cbn. rewrite Hav. cbn. rewrite Hrv. cbn.
    subst av. destruct (decide (Type_Kind (ArgType mt) = Ptr)) as [Hk|Hk]; cbn.
    - done.
    - subst T. by rewrite decide_True by done. }
  set (w1 := set_mem (alter (λ c : Type_ * val, (c.1, v)) a m2)
               (emit (EvReadBody a) (set_inbox rest
                  (set_mem m2 (emit EvReadHeader (set_inbox (bd :: rest) w)))))).
  set (req := mkRequest hd (Some av) (Some (ValueOf (TPtr et) (VPtr b))) (Some mt) sv).
  assert (Hrd : readRequest server w = ReadReturns (Some req) None w1).
  { unfold readRequest, readRequestHeader, ReadHeader. rewrite Hin, Hit, Hf.
    cbn [mem emit set_inbox]. rewrite Hh. unfold ReadBody. cbn. by rewrite Hbd. }
  exists av, a, T, b, x, w1. cbv zeta. fold req.
  split; [exact Hrd|]. split; [done|].
  split; [cbn; by rewrite <- app_assoc|]. split; [done|].
  split; [done|]. split; [done|]. split; [done|].
  split.
  { cbn. rewrite lookup_alter_eq. unfold m2.
    by rewrite lookup_insert_ne, lookup_insert_eq by done. }
  split.
  { cbn. rewrite lookup_alter_ne by done. unfold m2. by rewrite lookup_insert_eq. }
  split.
  { intros l Hla Hlb. cbn. rewrite lookup_alter_ne by done. unfold m2.
    by rewrite !lookup_insert_ne by done. }
  set (w2 := emit (EvGoHandleRequest req) w1).
  destruct (serveCodec_after_loop server w) as (o1 & o & tl2 & Hl & Ho & Hlog).
  assert (Hs : serve_loop (length (inbox w)) server w2 = Some o1).
  { rewrite <- Hl. cbn [serve_loop]. by rewrite Hrd. }
  apply serve_loop_reads_header in Hs as [tl Htl].
  exists o, (tl ++ tl2). split; [done|].
  rewrite Hlog, Htl. cbn. by rewrite <- !app_assoc.
Qed.

Lemma readRequest_decodes_into_new_argument_witness :
  let hd := codec.mkHeader "Foo.Sum" 1 "" in
  let args := VStruct [VInt 1; VInt 2] in
  let w := mkWorld (inr DefaultOption)
             [mkItem (inr hd) (inl (codec.io_err "not a body"));
              mkItem (inl (codec.io_err "not a header")) (inr args)] ∅ [] in
  ∃ av a T b x w1,
    let req := mkRequest hd (Some av) (Some (ValueOf (TPtr TInt) (VPtr b)))
                 (Some (mkMethodType main.Sum main.Args (TPtr TInt) 0))
                 (serviceMap main.server !! "Foo") in
    readRequest main.server w = ReadReturns (Some req) None w1
    ∧ inbox w1 = []
    ∧ log w1 = log w ++ [EvReadHeader; EvReadBody a]
    ∧ av = (if decide (Type_Kind main.Args = Ptr)
            then ValueOf (TPtr T) (VPtr a) else Variable_ T a)
    ∧ a ≠ b ∧ mem w !! a = None ∧ mem w !! b = None
    ∧ mem w1 !! a = Some (T, args) ∧ mem w1 !! b = Some (TInt, x)
    ∧ (∀ l, l ≠ a → l ≠ b → mem w1 !! l = mem w !! l)
    ∧ ∃ o tl, serveCodec main.server w = Some o
              ∧ log (outcome_world o)
                = log w ++ [EvReadHeader; EvReadBody a; EvGoHandleRequest req; EvReadHeader] ++ tl.
Proof.
  intros hd args w.
  apply (readRequest_decodes_into_new_argument main.server w
           (mkItem (inr hd) (inl (codec.io_err "not a body")))
           (mkItem (inl (codec.io_err "not a header")) (inr args)) []
           hd (serviceMap main.server !! "Foo")
           (mkMethodType main.Sum main.Args (TPtr TInt) 0) TInt args);
    reflexivity.
Defined.

(** X6. A request whose method is not resolved leaves its body in the
    stream ([readRequest] returns before [ReadBody]).  When that body does
    not decode as a header, the error response is the last thing the server
    writes on the connection: the next read of a header fails on the body,
    the loop ends, and [serveCodec] waits and closes the codec; what the
    peer sent after that body is never read. *)
Theorem unresolved_method_ends_the_pipeline
    (server : Server) (w : World) (it body : item) (rest : list item)
    (hd : codec.Header) (sv : option service) (mt : option methodType)
    (err : error) (e : codec.io_error) :
  inbox w = it :: body :: rest →
  as_header it = inr hd →
  findService server (codec.ServiceMethod hd) = (sv, mt, Some err) →
  as_header body = inl e →
  serveCodec server w
  = Some (Returns {| handshake := handshake w; inbox := rest; mem := mem w;
                     log := log w ++ [EvReadHeader;
                                      EvWrite (set_Error (Error err) hd) invalidRequest;
                                      EvReadHeader; EvWait; EvCodecClose] |}).
Proof.
  intros Hin Hit Hf Hbody.
  set (w1 := {| handshake := handshake w; inbox := rest; mem := mem w;
                log := log w ++ [EvReadHeader;
                                 EvWrite (set_Error (Error err) hd) invalidRequest;
                                 EvReadHeader] |}).
  assert (Hl : serve_loop (S (length (inbox w))) server w = Some (Returns w1)).
  { rewrite Hin. cbn [length serve_loop].
    unfold readRequest at 1, readRequestHeader, ReadHeader. rewrite Hin, Hit, Hf.
    cbn [h].
    destruct (length rest) as [|n]; cbn [serve_loop];
      unfold readRequest, readRequestHeader, ReadHeader; cbn; rewrite Hbody; cbn;
      unfold emit, w1; cbn; by rewrite <- !app_assoc. }
  unfold serveCodec. rewrite Hl. cbn. rewrite decide_True.
  - unfold emit. cbn. by rewrite <- !app_assoc.
  - unfold started. cbn [log w1]. by rewrite drop_app_length.
Qed.

Lemma unresolved_method_ends_the_pipeline_witness :
  let hd := codec.mkHeader "Foo.Missing" 7 "" in
  let it := mkItem (inr hd) (inl (codec.io_err "not a body")) in
  let body := mkItem (inl (codec.io_err "not a header")) (inr (VString "x")) in
  let next := mkItem (inr (codec.mkHeader "Foo.Sum" 8 "")) (inl (codec.io_err "not a body")) in
  serveCodec main.server (mkWorld (inr DefaultOption) [it; body; next] ∅ [])
  = Some (Returns (mkWorld (inr DefaultOption) [next] ∅
                     [EvReadHeader;
                      EvWrite (codec.mkHeader "Foo.Missing" 7
                                 "rpc server: can't find method Missing") invalidRequest;
                      EvReadHeader; EvWait; EvCodecClose])).
Proof.
  intros hd it body next.
  apply (unresolved_method_ends_the_pipeline main.server
           (mkWorld (inr DefaultOption) [it; body; next] ∅ []) it body [next] hd
           (serviceMap main.server !! "Foo") None
           (errors_New "rpc server: can't find method Missing")
           (codec.io_err "not a header")); reflexivity.
Defined.

(** *** The log of a connection *)

Lemma tally_app (f : event → bool) (l k : list event) :
  tally f (l ++ k) = (tally f l + tally f k)%nat.
Proof. induction l as [|e l IH]; cbn; [done|]. rewrite IH. lia. Qed.

(** What [readRequest] does on the codec: it reads a header, and then
    perhaps a body. *)
Lemma readRequest_log (server : Server) (w : World) :
  ∃ new,
    log (match readRequest server w with ReadReturns _ _ w1 | ReadPanics w1 => w1 end)
    = log w ++ EvReadHeader :: new
    ∧ (new = [] ∨ ∃ a, new = [EvReadBody a]).
Proof.
  unfold readRequest, readRequestHeader, ReadHeader.
  destruct (inbox w) as [|it rest] eqn:Hin.
  { cbn. exists []. by split; [|left]. }
  destruct (as_header it) as [e|hd]; cbn.
  { exists []. by split; [|left]. }
  destruct (findService server (codec.ServiceMethod hd)) as [[sv mt] [err|]]; cbn.
  { exists []. by split; [|left]. }
  destruct (new_holders mt _) as [[[[av rv] a] m2]|]; cbn.
  2: { exists []. by split; [|left]. }
  unfold ReadBody; cbn. destruct rest as [|it2 rest2]; cbn.
  { exists [EvReadBody a]. rewrite <- app_assoc. split; [done|]. right. by exists a. }
  destruct (as_body it2) as [e|v]; cbn;
    (exists [EvReadBody a]; rewrite <- app_assoc; split; [done|]; right; by exists a).
Qed.

(** The loop reads, answers and dispatches, and nothing else; when it ends,
    one header more was read than requests were answered or dispatched. *)
Lemma serve_loop_log (fuel : nat) (server : Server) (w : World) (o : outcome) :
  serve_loop fuel server w = Some o →
  ∃ new,
    log (outcome_world o) = log w ++ new
    ∧ Forall (λ e, in_loop e = true) new
    ∧ tally is_read_header new = S (tally is_answer new + tally is_dispatch new).
Proof.
  revert w o. induction fuel as [|fuel IH]; intros w o; [done|].
  cbn [serve_loop].
  destruct (readRequest_log server w) as (nw & Hlog & Hnw).
  assert (Hin : Forall (λ e, in_loop e = true) (EvReadHeader :: nw)).
  { destruct Hnw as [->|[a ->]]; repeat constructor. }
  assert (Ht : tally is_read_header (EvReadHeader :: nw) = 1%nat
               ∧ tally is_answer (EvReadHeader :: nw) = 0%nat
               ∧ tally is_dispatch (EvReadHeader :: nw) = 0%nat).
  { by destruct Hnw as [->|[a ->]]. }
  destruct Ht as (Ht1 & Ht2 & Ht3).
  assert (Hend : ∀ w1, log w1 = log w ++ EvReadHeader :: nw →
            ∃ new, log w1 = log w ++ new
              ∧ Forall (λ e, in_loop e = true) new
              ∧ tally is_read_header new = S (tally is_answer new + tally is_dispatch new)).
  { intros w1 H1. exists (EvReadHeader :: nw). split; [done|]. split; [done|].
    rewrite Ht1, Ht2, Ht3. done. }
  assert (Hgo : ∀ w1 e o, log w1 = log w ++ EvReadHeader :: nw →
            in_loop e = true → is_read_header e = false →
            ((if is_answer e then 1 else 0) + (if is_dispatch e then 1 else 0) = 1)%nat →
            serve_loop fuel server (emit e w1) = Some o →
            ∃ new, log (outcome_world o) = log w ++ new
              ∧ Forall (λ e, in_loop e = true) new
              ∧ tally is_read_header new = S (tally is_answer new + tally is_dispatch new)).
  { intros w1 e o' H1 He1 He2 He3 Ho. apply IH in Ho as (new & Hn & Hf & Hc).
    exists ((EvReadHeader :: nw) ++ [e] ++ new). split.
    { rewrite Hn. cbn [log emit]. rewrite H1. by rewrite <- !app_assoc. }
    split.
    { apply Forall_app. split; [done|]. apply Forall_app. split; [|done].
      by repeat constructor. }
    rewrite !tally_app, Ht1, Ht2, Ht3, Hc. cbn [tally]. rewrite He2.
    destruct (is_answer e), (is_dispatch e); cbn in He3; lia. }
  destruct (readRequest server w) as [[req|] [err|] w1|w1]; cbn in Hlog.
  - apply Hgo; done.
  - apply Hgo; done.
  - intros [= <-]. by apply Hend.
  - intros [= <-]. by apply Hend.
  - intros [= <-]. by apply Hend.
Qed.

Lemma serve_loop_not_Waits (fuel : nat) (server : Server) (w w1 : World) :
  serve_loop fuel server w ≠ Some (Waits w1).
Proof.
  revert w. induction fuel as [|fuel IH]; intros w; [done|].
  cbn [serve_loop].
  destruct (readRequest server w) as [[req|] [err|] w2|w2]; try done; apply IH.
Qed.

(** How [serveCodec] ends, after its loop. *)
Lemma serveCodec_log (server : Server) (w : World) :
  ∃ o new,
    serveCodec server w = Some o
    ∧ log (outcome_world o)
      = log w ++ new ++ (if o is Returns _ then [EvWait; EvCodecClose] else [])
    ∧ Forall (λ e, in_loop e = true) new
    ∧ match o with
      | Returns _ => tally is_dispatch new = 0%nat
      | Waits _ => tally is_dispatch new ≠ 0%nat
      | Panics _ => True
      end.
Proof.
  unfold serveCodec.
  destruct (serve_loop_ends (S (length (inbox w))) server w) as [o Ho]; [lia|].
  rewrite Ho. cbn.
  destruct (serve_loop_log _ _ _ _ Ho) as (new & Hn & Hf & _).
  destruct o as [w1|w1|w1]; [| |by apply serve_loop_not_Waits in Ho]; cbn in *.
  - assert (Hst : started w w1 = tally is_dispatch new).
    { unfold started. by rewrite Hn, drop_app_length. }
    rewrite Hst. destruct (decide (tally is_dispatch new = 0%nat)) as [Hz|Hz].
    + exists (Returns (emit EvCodecClose (emit EvWait w1))), new.
      split; [done|]. split; [|done]. cbn. rewrite Hn. by rewrite <- !app_assoc.
    + exists (Waits w1), new. split; [done|]. split; [|done].
      cbn. by rewrite app_nil_r.
  - exists (Panics w1), new. split; [done|]. split; [|done].
    cbn. by rewrite app_nil_r.
Qed.

(** X7. [serveCodec] accounts for every header it reads.  On a connection
    on which the peer has sent finitely many values and nothing after them
    (a later read returns [io.EOF]), the loop of [serveCodec] ends; on the
    codec it only reads headers and bodies, writes responses and starts
    handlers, and all its reads of a header but the last one were followed
    by exactly one error response or one start of a handler.  When the loop
    has started no handler, [wg.Wait()] returns at once and [serveCodec]
    closes the codec and returns; when it has started handlers,
    [serveCodec] is in [wg.Wait()] and the codec is open; when a panic has
    ended the loop, the codec is not closed. *)
Theorem serveCodec_accounts_for_every_header (server : Server) (w : World) :
  ∃ o new,
    serveCodec server w = Some o
    ∧ log (outcome_world o)
      = log w ++ new ++ (if o is Returns _ then [EvWait; EvCodecClose] else [])
    ∧ Forall (λ e, in_loop e = true) new
    ∧ tally is_read_header new = S (tally is_answer new + tally is_dispatch new)
    ∧ match o with
      | Returns _ => tally is_dispatch new = 0%nat
      | Waits _ => tally is_dispatch new ≠ 0%nat
      | Panics _ => True
      end.
Proof.
  unfold serveCodec.
  destruct (serve_loop_ends (S (length (inbox w))) server w) as [o Ho]; [lia|].
  rewrite Ho. cbn.
  destruct (serve_loop_log _ _ _ _ Ho) as (new & Hn & Hf & Hc).
  destruct o as [w1|w1|w1]; [| |by apply serve_loop_not_Waits in Ho]; cbn in *.
  - assert (Hst : started w w1 = tally is_dispatch new).
    { unfold started. by rewrite Hn, drop_app_length. }
    rewrite Hst. destruct (decide (tally is_dispatch new = 0%nat)) as [Hz|Hz].
    + exists (Returns (emit EvCodecClose (emit EvWait w1))), new.
      split; [done|]. split; [|done]. cbn. rewrite Hn. by rewrite <- !app_assoc.
    + exists (Waits w1), new. split; [done|]. split; [|done].
      cbn. by rewrite app_nil_r.
  - exists (Panics w1), new. split; [done|]. split; [|done].
    cbn. by rewrite app_nil_r.
Qed.

(** X8. The first act of [ServeConn] is the decoding of the option, and
    on every way out its last act is [conn.Close()], which it does once:
    when the handshake does not decode or is refused, when the loop of
    [serveCodec] has ended without a handler started (then after the close
    of the codec), and when a panic of [reflect] has ended the pipeline.
    When handlers have been started [ServeConn] is in the [wg.Wait()] of
    [serveCodec]: it has neither closed the codec nor the connection, and
    what it did after the handshake are the acts of the loop. *)
Theorem ServeConn_closes_the_connection
    (codecs : gmap codec.Type_ codec.NewCodecFun) (server : Server) (w : World) :
  ∃ o new,
    ServeConn codecs server w = Some o
    ∧ Forall (λ e, e ≠ EvConnClose ∧ e ≠ EvDecodeOption) new
    ∧ match o with
      | Returns _ | Panics _ =>
          log (outcome_world o) = log w ++ [EvDecodeOption] ++ new ++ [EvConnClose]
      | Waits _ =>
          log (outcome_world o) = log w ++ [EvDecodeOption] ++ new
          ∧ Forall (λ e, in_loop e = true) new
          ∧ tally is_dispatch new ≠ 0%nat
      end.
Proof.
  assert (Hnil : ∀ w1, w1 = emit EvConnClose (emit EvDecodeOption w) →
            ∃ o new, Some (Returns w1) = Some o
              ∧ Forall (λ e, e ≠ EvConnClose ∧ e ≠ EvDecodeOption) new
              ∧ match o with
                | Returns _ | Panics _ =>
                    log (outcome_world o) = log w ++ [EvDecodeOption] ++ new ++ [EvConnClose]
                | Waits _ =>
                    log (outcome_world o) = log w ++ [EvDecodeOption] ++ new
                    ∧ Forall (λ e, in_loop e = true) new
                    ∧ tally is_dispatch new ≠ 0%nat
                end).
  { intros w1 ->. exists (Returns (emit EvConnClose (emit EvDecodeOption w))), [].
    split; [done|]. split; [done|]. cbn. by rewrite <- app_assoc. }
  unfold ServeConn. cbv zeta.
  change (handshake (emit EvDecodeOption w)) with (handshake w).
  destruct (handshake w) as [err|opt]; [by apply Hnil|].
  destruct (decide (Option_MagicNumber opt ≠ MagicNumber)); [by apply Hnil|].
  destruct (codecs !! Option_CodecType opt); [|by apply Hnil].
  destruct (serveCodec_log server (emit EvDecodeOption w))
    as (o & new & Ho & Hl & Hf & Hd).
  rewrite Ho. cbn.
  assert (Hnew : Forall (λ e, e ≠ EvConnClose ∧ e ≠ EvDecodeOption) new).
  { eapply Forall_impl; [exact Hf|]. intros e He. by destruct e. }
  destruct o as [w1|w1|w1]; cbn in *.
  - exists (Returns (emit EvConnClose w1)), (new ++ [EvWait; EvCodecClose]).
    split; [done|]. split.
    + apply Forall_app. split; [done|]. by repeat constructor.
    + cbn. rewrite Hl. by rewrite <- !app_assoc.
  - exists (Panics (emit EvConnClose w1)), new.
    split; [done|]. split; [done|]. cbn. rewrite Hl.
    rewrite app_nil_r. by rewrite <- !app_assoc.
  - exists (Waits w1), new. split; [done|]. split; [done|].
    cbn. rewrite Hl. rewrite app_nil_r. by rewrite <- !app_assoc.
Qed.

End ServiceProperties.

Section ClientProperties.
Import reflect client.

(** *** How the operations act on the fields *)

Lemma done_calls p c : calls (done p c) = calls c.
Proof. unfold done. by repeat case_match. Qed.
Lemma done_pending p c : pending (done p c) = pending c.
Proof. unfold done. by repeat case_match. Qed.
Lemma done_ops p c : ops (done p c) = ops c.
Proof. unfold done. by repeat case_match. Qed.
Lemma done_seq p c : seq (done p c) = seq c.
Proof. unfold done. by repeat case_match. Qed.
Lemma done_header p c : header (done p c) = header c.
Proof. unfold done. by repeat case_match. Qed.
Lemma done_closing p c : closing (done p c) = closing c.
Proof. unfold done. by repeat case_match. Qed.
Lemma done_shutdown p c : shutdown (done p c) = shutdown c.
Proof. unfold done. by repeat case_match. Qed.
Lemma done_sending p c : sending (done p c) = sending c.
Proof. unfold done. by repeat case_match. Qed.
Lemma done_receiving p c : receiving (done p c) = receiving c.
Proof. unfold done. by repeat case_match. Qed.
Lemma done_next_call p c : next_call (done p c) = next_call c.
Proof. unfold done. by repeat case_match. Qed.
Lemma done_accepted p c : accepted (done p c) = accepted c.
Proof. unfold done. by repeat case_match. Qed.

Create Rewrite HintDb client_fields.

Hint Rewrite done_calls done_pending done_ops done_seq done_header done_closing
  done_shutdown done_sending done_receiving done_next_call done_accepted : client_fields.

Ltac fields := repeat (progress (cbn; autorewrite with client_fields)).

Lemma done_signals p c call ch :
  calls c !! p = Some call → Done call = Some ch →
  signals (done p c) = signals c ++ [(ch, p)].
Proof. intros H1 H2. unfold done. by rewrite H1, H2. Qed.

(** C3. A turn of the receive loop on a decoded header [h].  With no
    pending call under [h.Seq] the body is read into the discard target and
    no completion is signaled.  With a pending call and a non-empty error
    text the body is read the same way, the error made from the text is
    attached to the call and completion is signaled.  Otherwise the body is
    read into the call's [Reply], a failure of that read is attached as a
    "reading body" error, and completion is signaled either way.  In all
    three cases the entry leaves the pending table. *)
Theorem receive_turn_cases (c : Client) (h : codec.Header) (r : option codec.io_error) :
  let c1 := receive_body r (receive_header (inr h) c) in
  pending c1 = delete (codec.Seq h) (pending c)
  ∧ match pending c !! codec.Seq h with
    | None =>
        ops c1 = ops c ++ [OpReadHeader; OpReadBody VNil]
        ∧ signals c1 = signals c
        ∧ calls c1 = calls c
    | Some p =>
        ∀ call ch, calls c !! p = Some call → Done call = Some ch →
        signals c1 = signals c ++ [(ch, p)]
        ∧ if decide (codec.Error h ≠ "") then
            ops c1 = ops c ++ [OpReadHeader; OpReadBody VNil]
            ∧ calls c1 !! p = Some (set_Error (fmt_Errorf (codec.Error h) []) call)
          else
            ops c1 = ops c ++ [OpReadHeader; OpReadBody (Reply call)]
            ∧ calls c1 !! p =
              Some (match r with
                    | Some err =>
                        set_Error (errors_New ("reading body " +:+ codec.io_message err)) call
                    | None => call
                    end)
    end.
Proof.
  intros c1. subst c1. unfold receive_header, removeCall. cbn.
  destruct (pending c !! codec.Seq h) as [p|] eqn:Hp.
  - destruct (decide (codec.Error h ≠ "")) as [He|He].
    + unfold receive_body. cbn. rewrite decide_True by done.
      split; [destruct r; by fields|].
      intros call ch Hc Hd.
      assert (Hs : ∀ x, signals (done p (did (OpReadBody VNil)
                   (set_receiving x (assign p (set_Error (fmt_Errorf (codec.Error h) []))
                      (set_pending (delete (codec.Seq h) (pending c)) (did OpReadHeader c))))))
                 = signals c ++ [(ch, p)]).
      { intros x.
        rewrite (done_signals p _ (set_Error (fmt_Errorf (codec.Error h) []) call) ch);
          [done| |done].
        cbn. by rewrite lookup_alter_eq, Hc. }
      destruct r; fields; rewrite Hs, <- app_assoc, lookup_alter_eq, Hc; done.
    + unfold receive_body. cbn. rewrite decide_False by done.
      split; [destruct r; by fields|].
      intros call ch Hc Hd. rewrite Hc. cbn.
      destruct r as [err|]; fields.
      * rewrite (done_signals p _
                   (set_Error (errors_New ("reading body " +:+ codec.io_message err)) call) ch);
          [| |done]; [|by (cbn; rewrite lookup_alter_eq, Hc)].
        cbn. by rewrite <- app_assoc, lookup_alter_eq, Hc.
      * rewrite (done_signals p _ call ch); [|done|done].
        cbn. by rewrite <- app_assoc.
  - unfold receive_body. cbn. destruct r; cbn; by rewrite <- app_assoc.
Qed.

Lemma receive_turn_cases_witness :
  let h := codec.mkHeader "Foo.Sum" 1 "boom" in
  let c1 := receive_body None (receive_header (inr h) one_pending) in
  signals c1 = [(mkChan (chan_of_Go 0%N) 10, 0%N)]
  ∧ ops c1 = ops one_pending ++ [OpReadHeader; OpReadBody VNil]
  ∧ Error <$> calls c1 !! 0%N = Some (Some (fmt_Errorf "boom" [])).
Proof.
  intros h c1.
  destruct (receive_turn_cases one_pending h None) as [_ H].
  change (pending one_pending !! codec.Seq h) with (Some 0%N) in H.
  destruct (H (mkCall 1 "Foo.Sum" (VInt 1) (VPtr 1%positive) None
                 (Some (mkChan (chan_of_Go 0%N) 10)))
              (mkChan (chan_of_Go 0%N) 10) eq_refl eq_refl) as [Hs Hrest].
  rewrite decide_True in Hrest by done.
  destruct Hrest as [Ho Hc].
  split; [exact Hs|]. split; [exact Ho|]. exact (f_equal (fmap Error) Hc).
Defined.

(** *** After [Close] or [terminateCalls] *)

Lemma terminateCalls_fields err c :
  let c1 := terminateCalls err c in
  shutdown c1 = true ∧ pending c1 = pending c ∧ closing c1 = closing c
  ∧ seq c1 = seq c ∧ sending c1 = sending c ∧ receiving c1 = receiving c
  ∧ ops c1 = ops c ∧ accepted c1 = accepted c ∧ next_call c1 = next_call c
  ∧ header c1 = header c.
Proof.
  unfold terminateCalls.
  assert (H : ∀ (l : list (Z * call_ptr)) c0,
            let c1 := foldl (λ c kp, done kp.2 (assign kp.2 (set_Error err) c)) c0 l in
            shutdown c1 = shutdown c0 ∧ pending c1 = pending c0 ∧ closing c1 = closing c0
            ∧ seq c1 = seq c0 ∧ sending c1 = sending c0 ∧ receiving c1 = receiving c0
            ∧ ops c1 = ops c0 ∧ accepted c1 = accepted c0 ∧ next_call c1 = next_call c0
            ∧ header c1 = header c0).
  { induction l as [|[k p] l IH]; intros c0; [done|].
    cbn [foldl]. specialize (IH (done p (assign p (set_Error err) c0))).
    cbn in IH. autorewrite with client_fields in IH. exact IH. }
  apply (H (map_to_list (pending c)) (set_shutdown true c)).
Qed.

Lemma step_keeps_flags c e c1 :
  step c e = Some c1 →
  (closing c = true → closing c1 = true) ∧ (shutdown c = true → shutdown c1 = true).
Proof.
  destruct e as [sm args reply dn|r|r|r| |r]; cbn.
  - destruct (sending c); [done|].
    destruct (new_call sm args reply dn c) as [[p c0]|] eqn:Hn; [|done].
    cbn. intros [= <-].
    unfold new_call in Hn. destruct (_ : option chan) as [ch|]; [|done].
    cbn in Hn. injection Hn as <- <-.
    unfold send_begin, registerCall. cbn.
    destruct (closing c || shutdown c) eqn:Hf; fields; [done|].
    apply orb_false_iff in Hf as [-> ->]. done.
  - destruct (sending c) as [[p s]|] eqn:Hs; [|done]. intros [= <-].
    unfold send_end. rewrite Hs.
    destruct r as [err|]; fields; [|done].
    destruct (pending c !! s); by fields.
  - destruct (receiving c); try done. intros [= <-].
    unfold receive_header. destruct r as [err|h]; fields; [done|].
    destruct (pending c !! codec.Seq h); [|done].
    by destruct (decide (codec.Error h ≠ "")); fields.
  - destruct (receiving c) as [|h call| |] eqn:Hr; try done. intros [= <-].
    unfold receive_body. rewrite Hr.
    destruct call as [p|]; [destruct (decide (codec.Error h ≠ ""))|];
      destruct r; by fields.
  - destruct (receiving c) as [| |err|] eqn:Hr; try done.
    destruct (sending c); [done|]. intros [= <-].
    unfold receive_exit. rewrite Hr. cbn.
    destruct (terminateCalls_fields (of_codec err) c) as (-> & _ & -> & _). done.
  - intros [= <-]. unfold Close. destruct (closing c) eqn:Hc; fields; by rewrite ?Hc.
Qed.

Lemma run_keeps_flags es : ∀ c c1,
  run c es = Some c1 →
  closing c || shutdown c = true → closing c1 || shutdown c1 = true.
Proof.
  induction es as [|e es IH]; intros c c1; cbn.
  - by intros [= <-].
  - destruct (step c e) as [c0|] eqn:Hs; [|done]. cbn. intros Hr Hf.
    apply (IH _ _ Hr). destruct (step_keeps_flags _ _ _ Hs) as [H1 H2].
    apply orb_true_iff in Hf as [Hf|Hf]; [rewrite (H1 Hf)|rewrite (H2 Hf)]; by rewrite ?orb_true_r.
Qed.

(** C7. [Close] marks the client closing and [terminateCalls] marks it shut
    down; from then on, whatever happens in between, [registerCall] returns
    [ErrShutdown] and leaves the client as it is (pending table and sequence
    counter included), and a [send] that gets the lock completes its call
    with [ErrShutdown]: the [Error] of the call is [ErrShutdown] and its
    other fields are as they were, one completion is sent on its [Done]
    channel, and nothing else changes: no call is made on the codec, and
    the pending table, the counter, the header, the other calls and the
    locks are as before. *)
Theorem submission_fails_after_shutdown (c : Client) (es : list event) (c1 : Client) :
  closing c || shutdown c = true →
  run c es = Some c1 →
  (∀ r, closing (Close r c1).1 = true)
  ∧ (∀ err, shutdown (terminateCalls err c1) = true)
  ∧ (∀ p, registerCall p c1 = (c1, (0, Some ErrShutdown)))
  ∧ (∀ p r call ch,
       sending c1 = None → calls c1 !! p = Some call → Done call = Some ch →
       let c2 := send p r c1 in
       calls c2 !! p
       = Some (mkCall (Seq call) (ServiceMethod call) (Args call) (Reply call)
                 (Some ErrShutdown) (Some ch))
       ∧ (∀ q, q ≠ p → calls c2 !! q = calls c1 !! q)
       ∧ signals c2 = signals c1 ++ [(ch, p)]
       ∧ ops c2 = ops c1
       ∧ pending c2 = pending c1
       ∧ seq c2 = seq c1
       ∧ header c2 = header c1
       ∧ sending c2 = None
       ∧ receiving c2 = receiving c1
       ∧ closing c2 = closing c1 ∧ shutdown c2 = shutdown c1
       ∧ next_call c2 = next_call c1 ∧ accepted c2 = accepted c1).
Proof.
  intros Hf Hr. pose proof (run_keeps_flags _ _ _ Hr Hf) as Hf1.
  split; [|split; [|split]].
  - intros r. unfold Close. by destruct (closing c1) eqn:Hc; fields.
  - intros err. apply terminateCalls_fields.
  - intros p. unfold registerCall. by rewrite Hf1.
  - intros p r call ch Hs Hc Hd c2.
    assert (Hsend : c2 =
              set_signals (signals c1 ++ [(ch, p)]) (assign p (set_Error ErrShutdown) c1)).
    { unfold c2, send, send_begin, registerCall. rewrite Hf1.
      unfold send_end. autorewrite with client_fields. cbn. rewrite Hs.
      unfold done. cbn. rewrite lookup_alter_eq, Hc. cbn. by rewrite Hd. }
    rewrite Hsend. cbn. split.
    { rewrite lookup_alter_eq, Hc. cbn. unfold set_Error. by rewrite Hd. }
    split; [intros q Hq; by rewrite lookup_alter_ne|].
    by repeat split.
Qed.

Lemma submission_fails_after_shutdown_witness :
  let c := (Close None one_pending).1 in
  let ch := mkChan (chan_of_Go 0%N) 10 in
  registerCall 7%N c = (c, (0, Some ErrShutdown))
  ∧ calls (send 0%N None c) !! 0%N
    = Some (mkCall 1 "Foo.Sum" (VInt 1) (VPtr 1%positive) (Some ErrShutdown) (Some ch))
  ∧ signals (send 0%N None c) = signals c ++ [(ch, 0%N)]
  ∧ ops (send 0%N None c) = ops c
  ∧ pending (send 0%N None c) = pending c
  ∧ seq (send 0%N None c) = seq c.
Proof.
  intros c ch.
  destruct (submission_fails_after_shutdown c [] c eq_refl eq_refl) as (_ & _ & Hreg & Hsend).
  split; [apply Hreg|].
  destruct (Hsend 0%N None
              (mkCall 1 "Foo.Sum" (VInt 1) (VPtr 1%positive) None (Some ch))
              ch eq_refl eq_refl eq_refl) as (Hc & _ & Hg & Ho & Hp & Hq & _).
  split; [exact Hc|]. split; [exact Hg|]. split; [exact Ho|]. split; [exact Hp|exact Hq].
Defined.

(** *** [Go] *)

Lemma lookup_alter_Done (f : Call → Call) (p q : call_ptr) (m : gmap call_ptr Call) :
  (∀ call, Done (f call) = Done call) →
  Done <$> alter f p m !! q = Done <$> m !! q.
Proof.
  intros Hf. destruct (decide (p = q)) as [->|Hne].
  - rewrite lookup_alter_eq. destruct (m !! q); cbn; [by rewrite Hf|done].
  - by rewrite lookup_alter_ne.
Qed.

Lemma send_begin_Done p c q :
  Done <$> calls (send_begin p c) !! q = Done <$> calls c !! q.
Proof.
  unfold send_begin, registerCall.
  destruct (closing c || shutdown c); fields; by rewrite lookup_alter_Done.
Qed.

Lemma send_end_Done r c q :
  Done <$> calls (send_end r c) !! q = Done <$> calls c !! q.
Proof.
  unfold send_end. destruct (sending c) as [[p s]|]; [|done].
  destruct r as [err|]; fields; [|done].
  destruct (pending c !! s); fields; [|done]. by rewrite lookup_alter_Done.
Qed.

(** C8. [Go] with a nil completion channel makes a channel of capacity 10
    for the call; with a channel of capacity 0 it panics, before any call is
    made or sent; with any other channel the call gets that channel. *)
Theorem Go_completion_channel (c : Client) (serviceMethod : string) (args reply : val)
    (dn : option chan) (r : option codec.io_error) :
  match dn with
  | None =>
      ∃ c1, Go serviceMethod args reply None r c = Some (next_call c, c1)
            ∧ Done <$> calls c1 !! next_call c
              = Some (Some (mkChan (chan_of_Go (next_call c)) 10))
  | Some ch =>
      if decide (cap ch = 0) then Go serviceMethod args reply (Some ch) r c = None
      else ∃ c1, Go serviceMethod args reply (Some ch) r c = Some (next_call c, c1)
                 ∧ Done <$> calls c1 !! next_call c = Some (Some ch)
  end.
Proof.
  unfold Go, new_call. destruct dn as [ch|]; cbn.
  - destruct (decide (cap ch = 0)); cbn; [done|].
    eexists. split; [done|]. unfold send.
    rewrite send_end_Done, send_begin_Done. cbn. by rewrite lookup_insert_eq.
  - eexists. split; [done|]. unfold send.
    rewrite send_end_Done, send_begin_Done. cbn. by rewrite lookup_insert_eq.
Qed.

(** *** [parseOptions] and [Dial] *)

Lemma parseOptions_one (m : options) (opt : opt_ptr) (o : Option) :
  m !! DefaultOption = Some (mkOption MagicNumber codec.GobType) →
  m !! opt = Some o →
  parseOptions [Some opt] m =
  Some (Some opt, None,
        <[opt := mkOption MagicNumber
                   (if decide (Option_CodecType o = "") then codec.GobType
                    else Option_CodecType o)]> m).
Proof.
  intros Hd Ho. unfold parseOptions. cbn. rewrite Hd, Ho. cbn.
  rewrite lookup_alter_eq, Ho. cbn.
  assert (Ha : alter (set_MagicNumber MagicNumber) opt m
               = <[opt := mkOption MagicNumber (Option_CodecType o)]> m).
  { apply map_eq. intros i. destruct (decide (opt = i)) as [->|Hne].
    - by rewrite lookup_alter_eq, lookup_insert_eq, Ho.
    - by rewrite lookup_alter_ne, lookup_insert_ne. }
  destruct (decide (Option_CodecType o = "")) as [He|He]; [|by rewrite Ha].
  rewrite Ha.
  destruct (decide (opt = DefaultOption)) as [->|Hne].
  - rewrite Hd in Ho. injection Ho as <-. done.
  - rewrite lookup_insert_ne, Hd by done. cbn. do 2 f_equal.
    apply map_eq. intros i. destruct (decide (opt = i)) as [->|Hne'].
    + by rewrite lookup_alter_eq, !lookup_insert_eq.
    + by rewrite lookup_alter_ne, !lookup_insert_ne.
Qed.

(** What [parseOptions] does right: no option, or nil alone, gives
    [DefaultOption]; one option gets the magic number of [DefaultOption] and,
    when its codec type is empty, the codec type of [DefaultOption]; two or
    more options with the first not nil give the error; and the variable
    that [DefaultOption] points to keeps its value. *)
Lemma parseOptions_cases (m : options) :
  m !! DefaultOption = Some (mkOption MagicNumber codec.GobType) →
  parseOptions [] m = Some (Some DefaultOption, None, m)
  ∧ parseOptions [None] m = Some (Some DefaultOption, None, m)
  ∧ (∀ opt o, m !! opt = Some o →
       ∃ m1, parseOptions [Some opt] m = Some (Some opt, None, m1)
             ∧ m1 !! opt = Some (mkOption MagicNumber
                                   (if decide (Option_CodecType o = "") then codec.GobType
                                    else Option_CodecType o))
             ∧ m1 !! DefaultOption = Some (mkOption MagicNumber codec.GobType))
  ∧ (∀ opt opt2 rest,
       parseOptions (Some opt :: opt2 :: rest) m
       = Some (None, Some (errors_New "number of options is more than 1"), m)).
Proof.
  intros Hd. split; [done|]. split; [done|]. split; [|done].
  intros opt o Ho. eexists. split; [by apply (parseOptions_one m opt o)|].
  split; [by rewrite lookup_insert_eq|].
  destruct (decide (opt = DefaultOption)) as [->|Hne].
  - rewrite lookup_insert_eq. rewrite Hd in Ho. by injection Ho as <-.
  - by rewrite lookup_insert_ne.
Qed.

(** A client that [Dial] makes has sent the magic number of the package. *)
Lemma Dial_sends_MagicNumber codecs opts (m : options) conn enc client err m1 l :
  m !! DefaultOption = Some (mkOption MagicNumber codec.GobType) →
  Dial codecs opts m conn enc = Some (client, err, m1, l) →
  ∀ o, EncodeOption o ∈ l → Option_MagicNumber o = MagicNumber.
Proof.
  intros Hd. unfold Dial.
  destruct (parseOptions opts m) as [[[opt perr] m0]|] eqn:Hp; [|done]. cbn.
  destruct perr as [perr|]; [by intros [= <- <- <- <-] o ?%elem_of_nil|].
  destruct conn as [cerr|].
  { intros [= <- <- <- <-] o Ho. by apply list_elem_of_singleton in Ho. }
  destruct opt as [opt|]; [|done]. cbn.
  assert (Hm : ∃ o, m0 !! opt = Some o ∧ Option_MagicNumber o = MagicNumber).
  { unfold parseOptions in Hp. destruct opts as [|[opt0|] rest].
    - injection Hp as <- <-. by eexists.
    - destruct rest; [|done].
      fold (parseOptions [Some opt0] m) in Hp.
      destruct (m !! opt0) as [o0|] eqn:Ho0.
      + rewrite (parseOptions_one m opt0 o0 Hd Ho0) in Hp. injection Hp as <- <-.
        eexists. by rewrite lookup_insert_eq.
      + unfold parseOptions in Hp. cbn in Hp. by rewrite Hd, Ho0 in Hp.
    - injection Hp as <- <-. by eexists. }
  destruct Hm as (o0 & Ho0 & Hmagic).
  unfold NewClient. rewrite Ho0. cbn.
  destruct (codecs !! Option_CodecType o0); cbn.
  - destruct enc; intros [= <- <- <- <-] o Ho; cbn in Ho;
      repeat (apply elem_of_cons in Ho as [Ho|Ho]; [try done; by injection Ho as ->|]);
      by apply elem_of_nil in Ho.
  - intros [= <- <- <- <-] o Ho. cbn in Ho.
    repeat (apply elem_of_cons in Ho as [Ho|Ho]; [done|]). by apply elem_of_nil in Ho.
Qed.

(** C9, where the code leaves it: with a nil first option, [parseOptions]
    returns [DefaultOption] and no error, however many options follow. *)
Theorem parseOptions_nil_then_more :
  let m : options := <[1%N := mkOption 5 codec.JsonType]> options_init in
  parseOptions [None; Some 1%N] m = Some (Some DefaultOption, None, m)
  ∧ ∀ (m : options) rest, parseOptions (None :: rest) m = Some (Some DefaultOption, None, m).
Proof. done. Qed.

(** *** The end of the connection *)

Lemma reachable_run c es c1 : reachable c → run c es = Some c1 → reachable c1.
Proof.
  revert c. induction es as [|e es IH]; intros c Hc; cbn.
  - by intros [= <-].
  - destruct (step c e) as [c0|] eqn:Hs; [|done]. cbn.
    apply IH. by eapply reachable_step.
Qed.

(** C2, as stated, fails: after the receive loop has ended and
    [terminateCalls] has run, the call of [one_pending] is still in the
    pending table. *)
Lemma terminateCalls_keeps_the_table :
  ∃ c, run newClientCodec
         [EvGo "Foo.Sum" (VInt 1) (VPtr 1%positive) None; EvWritten None;
          EvHeader (inl codec.EOF); EvTerminate] = Some c
       ∧ reachable c
       ∧ receiving c = Exited
       ∧ pending c !! 1 = Some 0%N.
Proof.
  eexists. split; [vm_compute; reflexivity|].
  split; [|split; vm_compute; reflexivity].
  apply (reachable_run newClientCodec
           [EvGo "Foo.Sum" (VInt 1) (VPtr 1%positive) None; EvWritten None;
            EvHeader (inl codec.EOF); EvTerminate]); [apply reachable_new|].
  vm_compute; reflexivity.
Qed.

(** *** The invariant of the pending table *)

Lemma done_eq p c ch :
  Done <$> calls c !! p = Some (Some ch) →
  done p c = set_signals (signals c ++ [(ch, p)]) c.
Proof.
  unfold done. destruct (calls c !! p) as [call|]; [|done]. cbn.
  intros [= ->]. done.
Qed.

Lemma lookup_alter_Seq (f : Call → Call) (p q : call_ptr) (m : gmap call_ptr Call) :
  (∀ call, Seq (f call) = Seq call) →
  Seq <$> alter f p m !! q = Seq <$> m !! q.
Proof.
  intros Hf. destruct (decide (p = q)) as [->|Hne].
  - rewrite lookup_alter_eq. destruct (m !! q); cbn; [by rewrite Hf|done].
  - by rewrite lookup_alter_ne.
Qed.

Lemma lookup_alter_is_None (f : Call → Call) (p q : call_ptr) (m : gmap call_ptr Call) :
  m !! q = None → alter f p m !! q = None.
Proof. intros H. by apply lookup_alter_None. Qed.

Lemma filter_signal (p q : call_ptr) (ch : chan) :
  filter (λ s : chan * call_ptr, s.2 = p) [(ch, q)] = if decide (q = p) then [(ch, q)] else [].
Proof.
  rewrite filter_cons. cbn. by destruct (decide (q = p)).
Qed.

(** A call that is not in the store has no signal. *)
Lemma consistent_fresh_quiet c p :
  consistent c → (next_call c ≤ p)%N → signals_of p c = [].
Proof.
  intros Hc Hp.
  destruct (signals_of p c) as [|[ch q] l] eqn:Hf; [done|].
  assert (Hin : (ch, q) ∈ signals_of p c)
    by (rewrite Hf; apply elem_of_cons; by left).
  unfold signals_of in Hin.
  apply list_elem_of_filter in Hin as [Hq Hin]. cbn in Hq. subst q.
  apply (cons_signals c Hc) in Hin. by rewrite (cons_fresh c Hc p Hp) in Hin.
Qed.

(** A call sits under one number of the table at most. *)
Lemma consistent_pending_inj c k1 k2 p :
  consistent c → pending c !! k1 = Some p → pending c !! k2 = Some p → k1 = k2.
Proof.
  intros Hc H1 H2.
  destruct (cons_pending c Hc _ _ H1) as [_ E1].
  destruct (cons_pending c Hc _ _ H2) as [_ E2].
  rewrite E1 in E2. by injection E2.
Qed.

Lemma consistent_running c :
  consistent c → receiving c ≠ Exited → shutdown c = false.
Proof.
  intros Hc Hr. destruct (shutdown c) eqn:Hs; [|done].
  by apply (cons_exited c Hc) in Hs.
Qed.

Lemma consistent_new : consistent newClientCodec.
Proof.
  constructor; cbn; try done.
  - intros p Hp. lia.
  - intros p Hp. by apply elem_of_nil in Hp.
  - intros ch p Hp. by apply elem_of_nil in Hp.
  - intros p. unfold signals_of. cbn. lia.
Qed.

Lemma consistent_Close r c : consistent c → consistent (Close r c).1.
Proof.
  intros Hc. unfold Close. destruct (closing c); [done|].
  destruct Hc. constructor; cbn; done.
Qed.

Lemma consistent_receive_header r c :
  consistent c → receiving c = AtReadHeader → consistent (receive_header r c).
Proof.
  intros Hc Hr.
  assert (Hsh : shutdown c = false) by (apply consistent_running; [done|by rewrite Hr]).
  unfold receive_header. destruct r as [err|h].
  { destruct Hc. constructor; cbn; try done.
    rewrite Hsh. split; done. }
  cbn. destruct (pending c !! codec.Seq h) as [p|] eqn:Hp.
  - assert (Hheld : p ∈ accepted c ∧ signals_of p c = []
                    ∧ ∀ k, delete (codec.Seq h) (pending c) !! k ≠ Some p).
    { split; [by apply (cons_pending c Hc _ _ Hp)|].
      split; [by apply (cons_quiet c Hc Hsh _ _ Hp)|].
      intros k Hk. apply lookup_delete_Some in Hk as [Hne Hk].
      by apply Hne, (consistent_pending_inj c _ _ p Hc). }
    assert (Hframe : ∀ cs : gmap call_ptr Call,
              (∀ q, Done <$> cs !! q = Done <$> calls c !! q) →
              (∀ q, Seq <$> cs !! q = Seq <$> calls c !! q) →
              (∀ q, calls c !! q = None → cs !! q = None) →
              consistent (set_receiving (AtReadBody h (Some p))
                            (set_calls cs
                               (set_pending (delete (codec.Seq h) (pending c))
                                  (did OpReadHeader c))))).
    { intros cs HD HS HN. destruct Hc. constructor; cbn.
      - intros q Hq. by apply HN, cons_fresh0.
      - intros q Hq. rewrite HD. by apply cons_Done0.
      - done.
      - intros k q Hk. apply lookup_delete_Some in Hk as [_ Hk]. rewrite HS. by apply cons_pending0.
      - intros _ k q Hk. apply lookup_delete_Some in Hk as [_ Hk]. by apply (cons_quiet0 Hsh k).
      - intros h' q [= _ <-]. exact Hheld.
      - intros ch q Hq. rewrite HD. by apply cons_signals0.
      - done.
      - by rewrite Hsh.
      - by rewrite Hsh. }
    destruct (decide (codec.Error h ≠ "")).
    + apply (Hframe (alter (set_Error (fmt_Errorf (codec.Error h) [])) p (calls c))).
      * intros q. by apply lookup_alter_Done.
      * intros q. by apply lookup_alter_Seq.
      * intros q. by apply lookup_alter_is_None.
    + assert (Hid : set_calls (calls c) (set_pending (delete (codec.Seq h) (pending c))
                                 (did OpReadHeader c))
                    = set_pending (delete (codec.Seq h) (pending c)) (did OpReadHeader c))
        by done.
      rewrite <- Hid. by apply Hframe.
  - destruct Hc. constructor; cbn; try done.
    + intros k q Hk. apply lookup_delete_Some in Hk as [_ Hk]. by apply cons_pending0.
    + intros _ k q Hk. apply lookup_delete_Some in Hk as [_ Hk]. by apply (cons_quiet0 Hsh k).
    + by rewrite Hsh.
Qed.

Lemma consistent_receive_body r c h call :
  consistent c → receiving c = AtReadBody h call → consistent (receive_body r c).
Proof.
  intros Hc Hr.
  assert (Hsh : shutdown c = false) by (apply consistent_running; [done|by rewrite Hr]).
  unfold receive_body. rewrite Hr.
  assert (Hnext : ∀ c0, receiving match r with
                                  | Some err => set_receiving (AtTerminate err) c0
                                  | None => set_receiving AtReadHeader c0
                                  end ≠ Exited) by (intros c0; by destruct r).
  destruct call as [p|].
  - destruct (cons_held c Hc h p Hr) as (Hacc & Hquiet & Hnp).
    destruct (cons_Done c Hc p (cons_accepted c Hc p Hacc)) as [ch Hch].
    assert (Hframe : ∀ (cs : gmap call_ptr Call) os,
              (∀ q, Done <$> cs !! q = Done <$> calls c !! q) →
              (∀ q, Seq <$> cs !! q = Seq <$> calls c !! q) →
              (∀ q, calls c !! q = None → cs !! q = None) →
              consistent match r with
                         | Some err => set_receiving (AtTerminate err)
                                         (done p (set_calls cs (set_ops os c)))
                         | None => set_receiving AtReadHeader
                                     (done p (set_calls cs (set_ops os c)))
                         end).
    { intros cs os HD HS HN.
      rewrite (done_eq p _ ch) by (cbn; by rewrite HD).
      destruct Hc. unfold signals_of in *.
      destruct r as [err|]; constructor; cbn.
      all: try done.
      all: try (intros q Hq; by apply HN, cons_fresh0).
      all: try (intros q Hq; rewrite HD; by apply cons_Done0).
      all: try (intros k q Hk; rewrite HS; by apply cons_pending0).
      all: try (intros _ k q Hk; rewrite filter_app, filter_signal;
                rewrite decide_False by (intros <-; by apply (Hnp k));
                rewrite app_nil_r; by apply (cons_quiet0 Hsh k)).
      all: try (intros ch' q Hq; rewrite HD; apply elem_of_app in Hq as [Hq|Hq];
                [by apply cons_signals0|apply list_elem_of_singleton in Hq as [= -> ->]; done]).
      all: try (intros q; rewrite filter_app, filter_signal; destruct (decide (p = q)) as [<-|];
                [by rewrite Hquiet|rewrite app_nil_r; apply cons_once0]).
      all: by rewrite Hsh. }
    destruct (decide (codec.Error h ≠ "")).
    + assert (Hid : did (OpReadBody VNil) c = set_calls (calls c) (set_ops (ops c ++ [OpReadBody VNil]) c))
        by done.
      rewrite Hid. by apply Hframe.
    + destruct r as [err|].
      * apply (Hframe (alter (set_Error (errors_New ("reading body " +:+ codec.io_message err)))
                         p (calls c)) (ops c ++ [OpReadBody (default VNil (Reply <$> calls c !! p))])).
        -- intros q. by apply lookup_alter_Done.
        -- intros q. by apply lookup_alter_Seq.
        -- intros q. by apply lookup_alter_is_None.
      * by apply (Hframe (calls c) (ops c ++ [OpReadBody (default VNil (Reply <$> calls c !! p))])).
  - destruct Hc. destruct r; constructor; cbn; try done; by rewrite Hsh.
Qed.

Lemma consistent_send_end r c :
  consistent c → is_Some (sending c) → consistent (send_end r c).
Proof.
  intros Hc [[p0 s] Hs].
  assert (Hsh : shutdown c = false).
  { destruct (shutdown c) eqn:E; [|done]. by rewrite (cons_lock c Hc E) in Hs. }
  unfold send_end. rewrite Hs.
  destruct r as [err|]; [|destruct Hc; constructor; cbn; try done; by rewrite Hsh].
  cbn. destruct (pending c !! s) as [q|] eqn:Hq.
  - destruct (cons_pending c Hc _ _ Hq) as [Hacc HSeq].
    pose proof (cons_quiet c Hc Hsh _ _ Hq) as Hquiet.
    destruct (cons_Done c Hc q (cons_accepted c Hc q Hacc)) as [ch Hch].
    rewrite (done_eq q _ ch) by (cbn; by rewrite lookup_alter_Done).
    assert (Hother : ∀ k q', delete s (pending c) !! k = Some q' → q ≠ q').
    { intros k q' Hk <-. apply lookup_delete_Some in Hk as [Hne Hk].
      by apply Hne, (consistent_pending_inj c _ _ q Hc). }
    destruct Hc. unfold signals_of in *. constructor; cbn.
    + intros q' Hq'. by apply lookup_alter_is_None, cons_fresh0.
    + intros q' Hq'. rewrite lookup_alter_Done by done. by apply cons_Done0.
    + done.
    + intros k q' Hk. rewrite lookup_alter_Seq by done.
      apply lookup_delete_Some in Hk as [_ Hk]. by apply cons_pending0.
    + intros _ k q' Hk. rewrite filter_app, filter_signal.
      rewrite decide_False by (by eapply Hother).
      rewrite app_nil_r. apply lookup_delete_Some in Hk as [_ Hk]. by apply (cons_quiet0 Hsh k).
    + intros h p Hr. destruct (cons_held0 h p Hr) as (Ha & Hqu & Hnp).
      split; [done|]. split.
      * rewrite filter_app, filter_signal.
        rewrite decide_False by (intros ->; by apply (Hnp s)).
        by rewrite app_nil_r.
      * intros k Hk. apply lookup_delete_Some in Hk as [_ Hk]. by apply (Hnp k).
    + intros ch' q' Hin. rewrite lookup_alter_Done by done.
      apply elem_of_app in Hin as [Hin|Hin]; [by apply cons_signals0|].
      by apply list_elem_of_singleton in Hin as [= -> ->].
    + intros q'. rewrite filter_app, filter_signal.
      destruct (decide (q = q')) as [<-|]; [by rewrite Hquiet|].
      rewrite app_nil_r. apply cons_once0.
    + done.
    + by rewrite Hsh.
  - destruct Hc. constructor; cbn; try done.
    + intros k q Hk. apply lookup_delete_Some in Hk as [_ Hk]. by apply cons_pending0.
    + intros _ k q Hk. apply lookup_delete_Some in Hk as [_ Hk]. by apply (cons_quiet0 Hsh k).
    + intros h p Hr. destruct (cons_held0 h p Hr) as (Ha & Hqu & Hnp).
      split; [done|]. split; [done|].
      intros k Hk. apply lookup_delete_Some in Hk as [_ Hk]. by apply (Hnp k).
Qed.

Lemma consistent_send_begin c serviceMethod args reply dn p c0 :
  consistent c →
  new_call serviceMethod args reply dn c = Some (p, c0) →
  consistent (send_begin p c0).
Proof.
  intros Hc Hn. unfold new_call in Hn.
  destruct (match dn with
            | Some ch => if decide (cap ch = 0) then None else Some ch
            | None => Some (mkChan (chan_of_Go (next_call c)) 10)
            end) as [ch|] eqn:Hch; [|done].
  cbn in Hn. injection Hn as <- <-.
  set (p := next_call c).
  pose proof (consistent_fresh_quiet c p Hc (N.le_refl _)) as Hquiet.
  assert (Hold : ∀ q, q ∈ accepted c → p ≠ q).
  { intros q Hq <-. apply (cons_accepted c Hc) in Hq. unfold p in Hq. lia. }
  assert (Hpend : ∀ k q, pending c !! k = Some q → p ≠ q).
  { intros k q Hk. apply Hold. by apply (cons_pending c Hc k). }
  assert (Hsig : ∀ ch' q, (ch', q) ∈ signals c → p ≠ q).
  { intros ch' q Hin <-. apply (cons_signals c Hc) in Hin.
    by rewrite (cons_fresh c Hc p (N.le_refl _)) in Hin. }
  unfold send_begin, registerCall. cbn.
  destruct (closing c || shutdown c) eqn:Hf; cbn.
  - rewrite (done_eq p _ ch) by (cbn; by rewrite lookup_alter_eq, lookup_insert_eq).
    destruct Hc. unfold signals_of in *. constructor; cbn.
    + intros q Hq. apply lookup_alter_is_None. rewrite lookup_insert_ne by (unfold p; lia).
      apply cons_fresh0. unfold p in *. lia.
    + intros q Hq. rewrite lookup_alter_Done by done.
      destruct (decide (p = q)) as [<-|Hne]; [rewrite lookup_insert_eq; by eexists|].
      rewrite lookup_insert_ne by done. apply cons_Done0. unfold p in *. lia.
    + intros q Hq. apply cons_accepted0 in Hq. lia.
    + intros k q Hk. rewrite lookup_alter_Seq by done.
      rewrite lookup_insert_ne by (by eapply Hpend). by apply cons_pending0.
    + intros Hsh k q Hk. rewrite filter_app, filter_signal.
      rewrite decide_False by (by eapply Hpend). rewrite app_nil_r. by apply (cons_quiet0 Hsh k).
    + intros h q Hr. destruct (cons_held0 h q Hr) as (Ha & Hqu & Hnp).
      split; [done|]. split; [|done].
      rewrite filter_app, filter_signal.
      rewrite decide_False by (by apply Hold). by rewrite app_nil_r.
    + intros ch' q Hin. rewrite lookup_alter_Done by done.
      apply elem_of_app in Hin as [Hin|Hin].
      * rewrite lookup_insert_ne by (by eapply Hsig). by apply cons_signals0.
      * apply list_elem_of_singleton in Hin as [= -> ->]. by rewrite lookup_insert_eq.
    + intros q. rewrite filter_app, filter_signal.
      destruct (decide (p = q)) as [<-|]; [by rewrite Hquiet|].
      rewrite app_nil_r. apply cons_once0.
    + done.
    + done.
  - apply orb_false_iff in Hf as [Hcl Hsh].
    destruct Hc. unfold signals_of in *. constructor; cbn.
    + intros q Hq. apply lookup_alter_is_None. rewrite lookup_insert_ne by (unfold p; lia).
      apply cons_fresh0. unfold p in *. lia.
    + intros q Hq. rewrite lookup_alter_Done by done.
      destruct (decide (p = q)) as [<-|Hne]; [rewrite lookup_insert_eq; by eexists|].
      rewrite lookup_insert_ne by done. apply cons_Done0. unfold p in *. lia.
    + intros q Hq. apply elem_of_app in Hq as [Hq|Hq].
      * apply cons_accepted0 in Hq. lia.
      * apply list_elem_of_singleton in Hq as ->. unfold p. lia.
    + intros k q Hk. apply lookup_insert_Some in Hk as [[<- <-]|[Hne Hk]].
      * split; [apply elem_of_app; right; by apply list_elem_of_singleton|].
        by rewrite lookup_alter_eq, lookup_insert_eq.
      * destruct (cons_pending0 k q Hk) as [Ha HS].
        split; [apply elem_of_app; by left|].
        rewrite lookup_alter_ne, lookup_insert_ne by (by apply Hold). done.
    + intros _ k q Hk. apply lookup_insert_Some in Hk as [[<- <-]|[Hne Hk]]; [done|].
      by apply (cons_quiet0 Hsh k).
    + intros h q Hr. destruct (cons_held0 h q Hr) as (Ha & Hqu & Hnp).
      split; [apply elem_of_app; by left|]. split; [done|].
      intros k Hk. apply lookup_insert_Some in Hk as [[<- Heq]|[Hne Hk]].
      * by apply (Hold q).
      * by apply (Hnp k).
    + intros ch' q Hin. rewrite lookup_alter_Done by done.
      rewrite lookup_insert_ne by (by eapply Hsig). by apply cons_signals0.
    + done.
    + done.
    + by rewrite Hsh.
Qed.

(** The loop of [terminateCalls] over calls that have a channel: each gets
    the error and one signal on its channel, and nothing else changes. *)
Lemma terminate_loop (err : error) (l : list (Z * call_ptr)) : ∀ c0,
  (∀ kp, kp ∈ l → ∃ ch, Done <$> calls c0 !! kp.2 = Some (Some ch)) →
  let c1 := foldl (λ c kp, done kp.2 (assign kp.2 (set_Error err) c)) c0 l in
  (∀ q, Done <$> calls c1 !! q = Done <$> calls c0 !! q)
  ∧ (∀ q, Seq <$> calls c1 !! q = Seq <$> calls c0 !! q)
  ∧ (∀ q, calls c0 !! q = None → calls c1 !! q = None)
  ∧ (∀ q, q ∈ l.*2 → Error <$> calls c1 !! q = Some (Some err))
  ∧ (∀ q, q ∉ l.*2 → calls c1 !! q = calls c0 !! q)
  ∧ ∃ sg, signals c1 = signals c0 ++ sg
          ∧ sg.*2 = l.*2
          ∧ ∀ ch q, (ch, q) ∈ sg → Done <$> calls c0 !! q = Some (Some ch).
Proof.
  induction l as [|[k p] l IH]; intros c0 Hl; cbn zeta.
  { cbn. repeat split; try done.
    - intros q Hq. by apply elem_of_nil in Hq.
    - exists []. rewrite app_nil_r. repeat split; try done.
      intros ch q Hq. by apply elem_of_nil in Hq. }
  cbn [foldl snd]. set (c0' := done p (assign p (set_Error err) c0)).
  destruct (Hl (k, p)) as [ch Hch]; [apply elem_of_cons; by left|]. cbn in Hch.
  assert (HD0 : ∀ q, Done <$> calls c0' !! q = Done <$> calls c0 !! q).
  { intros q. unfold c0'. rewrite done_calls. cbn. by apply lookup_alter_Done. }
  assert (HS0 : ∀ q, Seq <$> calls c0' !! q = Seq <$> calls c0 !! q).
  { intros q. unfold c0'. rewrite done_calls. cbn. by apply lookup_alter_Seq. }
  assert (Hsg0 : signals c0' = signals c0 ++ [(ch, p)]).
  { unfold c0'. rewrite (done_eq p _ ch); [done|]. cbn. by rewrite lookup_alter_Done. }
  destruct (IH c0') as (HD & HS & HN & HE & HU & sg & Hsg & Hsg2 & Hsgd).
  { intros kp Hkp. rewrite HD0. apply Hl. apply elem_of_cons. by right. }
  split; [intros q; by rewrite HD, HD0|].
  split; [intros q; by rewrite HS, HS0|].
  split.
  { intros q Hq. apply HN. unfold c0'. rewrite done_calls. cbn. by apply lookup_alter_is_None. }
  split.
  { intros q Hq. cbn in Hq. destruct (decide (q ∈ l.*2)) as [Hin|Hnin]; [by apply HE|].
    apply elem_of_cons in Hq as [->|Hq]; [|done].
    rewrite (HU p Hnin). unfold c0'. rewrite done_calls. cbn. rewrite lookup_alter_eq.
    destruct (calls c0 !! p); [done|]. by cbn in Hch. }
  split.
  { intros q Hq. cbn in Hq. apply not_elem_of_cons in Hq as [Hne Hq].
    rewrite (HU q Hq). unfold c0'. rewrite done_calls. cbn. by rewrite lookup_alter_ne. }
  exists ((ch, p) :: sg). split; [by rewrite Hsg, Hsg0, <- app_assoc|].
  split; [cbn; by rewrite Hsg2|].
  intros ch' q Hin. apply elem_of_cons in Hin as [[= -> ->]|Hin]; [done|].
  rewrite <- HD0. by apply Hsgd.
Qed.

(** In a list of signals for different calls, a call has one signal if it
    is among them and none otherwise. *)
Lemma filter_signals_NoDup (sg : list (chan * call_ptr)) (p : call_ptr) :
  NoDup sg.*2 →
  (p ∉ sg.*2 → filter (λ s, s.2 = p) sg = [])
  ∧ (p ∈ sg.*2 → ∃ ch, (ch, p) ∈ sg ∧ filter (λ s, s.2 = p) sg = [(ch, p)]).
Proof.
  induction sg as [|[ch q] sg IH]; intros Hnd.
  { split; [done|]. intros Hp. by apply elem_of_nil in Hp. }
  cbn in Hnd. apply NoDup_cons in Hnd as [Hq Hnd]. destruct (IH Hnd) as [IH0 IH1].
  rewrite filter_cons. cbn. destruct (decide (q = p)) as [->|Hne].
  - split; [intros Hp; contradict Hp; apply elem_of_cons; by left|].
    intros _. exists ch. split; [apply elem_of_cons; by left|]. by rewrite IH0.
  - split.
    + intros Hp. apply IH0. contradict Hp. apply elem_of_cons. by right.
    + intros Hp. apply elem_of_cons in Hp as [->|Hp]; [done|].
      destruct (IH1 Hp) as (ch' & Hin & Hf). exists ch'.
      split; [apply elem_of_cons; by right|done].
Qed.

Lemma consistent_pending_NoDup c :
  consistent c → NoDup (map_to_list (pending c)).*2.
Proof.
  intros Hc. apply NoDup_fmap_2_strong; [|apply NoDup_map_to_list].
  intros [k1 p1] [k2 p2] H1 H2 Heq. cbn in Heq. subst p2.
  apply elem_of_map_to_list in H1, H2.
  by rewrite (consistent_pending_inj c k1 k2 p1 Hc H1 H2).
Qed.

Lemma elem_of_pending_values c p :
  p ∈ (map_to_list (pending c)).*2 ↔ ∃ k, pending c !! k = Some p.
Proof.
  rewrite list_elem_of_fmap. split.
  - intros ([k q] & -> & Hin). exists k. by apply elem_of_map_to_list.
  - intros [k Hk]. exists (k, p). split; [done|]. by apply elem_of_map_to_list.
Qed.

(** [terminateCalls] on a consistent client that is not shut down. *)
Lemma terminateCalls_effect (err : error) (c : Client) :
  consistent c → shutdown c = false →
  let c1 := terminateCalls err c in
  (∀ q, Done <$> calls c1 !! q = Done <$> calls c !! q)
  ∧ (∀ q, Seq <$> calls c1 !! q = Seq <$> calls c !! q)
  ∧ (∀ q, calls c !! q = None → calls c1 !! q = None)
  ∧ (∀ k q, pending c !! k = Some q →
       Error <$> calls c1 !! q = Some (Some err)
       ∧ signals_of q c = []
       ∧ ∃ ch, Done <$> calls c !! q = Some (Some ch) ∧ signals_of q c1 = [(ch, q)])
  ∧ (∀ q, (∀ k, pending c !! k ≠ Some q) →
       calls c1 !! q = calls c !! q ∧ signals_of q c1 = signals_of q c)
  ∧ (∀ ch q, (ch, q) ∈ signals c1 → Done <$> calls c !! q = Some (Some ch)).
Proof.
  intros Hc Hsh. unfold terminateCalls.
  destruct (terminate_loop err (map_to_list (pending c)) (set_shutdown true c))
    as (HD & HS & HN & HE & HU & sg & Hsg & Hsg2 & Hsgd).
  { intros [k q] Hin. apply elem_of_map_to_list in Hin. cbn.
    apply (cons_Done c Hc), (cons_accepted c Hc). by apply (cons_pending c Hc k). }
  cbn zeta. cbn in HD, HS, HN, HU, Hsg, Hsgd.
  pose proof (consistent_pending_NoDup c Hc) as Hnd. rewrite <- Hsg2 in Hnd.
  split; [done|]. split; [done|]. split; [done|].
  split; [|split].
  - intros k q Hk.
    assert (Hin : q ∈ (map_to_list (pending c)).*2) by (apply elem_of_pending_values; by exists k).
    split; [by apply HE|].
    pose proof (cons_quiet c Hc Hsh k q Hk) as Hquiet.
    split; [done|].
    rewrite <- Hsg2 in Hin.
    destruct (proj2 (filter_signals_NoDup sg q Hnd) Hin) as (ch & Hch & Hf).
    exists ch. split; [by apply Hsgd|].
    unfold signals_of in *. by rewrite Hsg, filter_app, Hquiet, Hf.
  - intros q Hq.
    assert (Hnin : q ∉ (map_to_list (pending c)).*2).
    { intros [k Hk]%elem_of_pending_values. by apply (Hq k). }
    split; [by apply HU|].
    unfold signals_of. rewrite Hsg, filter_app.
    rewrite <- Hsg2 in Hnin.
    by rewrite (proj1 (filter_signals_NoDup sg q Hnd) Hnin), app_nil_r.
  - intros ch q Hin. rewrite Hsg in Hin. apply elem_of_app in Hin as [Hin|Hin].
    + by apply (cons_signals c Hc).
    + by apply Hsgd.
Qed.

Lemma consistent_receive_exit c err :
  consistent c → receiving c = AtTerminate err → sending c = None →
  consistent (receive_exit c).
Proof.
  intros Hc Hr Hs.
  assert (Hsh : shutdown c = false) by (apply consistent_running; [done|by rewrite Hr]).
  unfold receive_exit. rewrite Hr.
  destruct (terminateCalls_effect (of_codec err) c Hc Hsh) as (HD & HS & HN & HP & HU & HG).
  destruct (terminateCalls_fields (of_codec err) c)
    as (Esh & Epd & Ecl & Esq & Esd & Erc & Eops & Eac & Enc & Ehd).
  cbn zeta in *. set (c1 := terminateCalls (of_codec err) c) in *.
  unfold signals_of in *.
  constructor; cbn; rewrite ?Esh, ?Epd, ?Ecl, ?Esq, ?Esd, ?Eac, ?Enc.
  - intros q Hq. by apply HN, (cons_fresh c Hc).
  - intros q Hq. rewrite HD. by apply (cons_Done c Hc).
  - apply (cons_accepted c Hc).
  - intros k q Hk. rewrite HS. by apply (cons_pending c Hc).
  - done.
  - done.
  - intros ch q Hin. rewrite HD. by apply HG.
  - intros q. destruct (decide (q ∈ (map_to_list (pending c)).*2)) as [Hin|Hnin].
    + apply elem_of_pending_values in Hin as [k Hk].
      destruct (HP k q Hk) as (_ & _ & ch & _ & ->). done.
    + destruct (HU q) as [_ ->]; [|apply (cons_once c Hc)].
      intros k Hk. apply Hnin, elem_of_pending_values. by exists k.
  - done.
  - done.
Qed.

Lemma step_consistent c e c1 : consistent c → step c e = Some c1 → consistent c1.
Proof.
  intros Hc. destruct e as [sm args reply dn|r|r|r| |r]; cbn.
  - destruct (sending c); [done|].
    destruct (new_call sm args reply dn c) as [[p c0]|] eqn:Hn; [|done].
    cbn. intros [= <-]. by eapply consistent_send_begin.
  - destruct (sending c) eqn:Hs; [|done]. intros [= <-].
    apply consistent_send_end; [done|by rewrite Hs].
  - destruct (receiving c) eqn:Hr; try done. intros [= <-].
    by apply consistent_receive_header.
  - destruct (receiving c) eqn:Hr; try done. intros [= <-].
    by eapply consistent_receive_body.
  - destruct (receiving c) eqn:Hr; try done.
    destruct (sending c) eqn:Hs; [done|]. intros [= <-].
    by eapply consistent_receive_exit.
  - intros [= <-]. by apply consistent_Close.
Qed.

Lemma reachable_consistent c : reachable c → consistent c.
Proof.
  induction 1 as [|c e c1 _ IH Hs]; [apply consistent_new|by eapply step_consistent].
Qed.

(** *** No call is left behind while the counter has not come round *)

Lemma filter_snoc_nil (sg : list (chan * call_ptr)) (ch : chan) (q p : call_ptr) :
  filter (λ s, s.2 = p) (sg ++ [(ch, q)]) = [] →
  filter (λ s, s.2 = p) sg = [] ∧ q ≠ p.
Proof.
  rewrite filter_app, filter_signal. intros [H1 H2]%app_eq_nil.
  split; [done|]. by destruct (decide (q = p)).
Qed.

Lemma counted_new : counted newClientCodec.
Proof.
  constructor; cbn; [done|done|].
  intros p Hp. by apply elem_of_nil in Hp.
Qed.

Lemma counted_Close r c : counted c → counted (Close r c).1.
Proof.
  intros Hn. unfold Close. destruct (closing c); [done|].
  destruct Hn. constructor; cbn; done.
Qed.

Lemma counted_receive_header r c :
  consistent c → counted c → receiving c = AtReadHeader → counted (receive_header r c).
Proof.
  intros Hc Hn Hr. unfold receive_header. destruct r as [err|h].
  { destruct Hn. constructor; cbn; [done|done|].
    intros p Hp Hq. destruct (cnt_live0 p Hp Hq) as [?|[h Hh]]; [by left|].
    by rewrite Hr in Hh. }
  cbn.
  assert (Hlive : ∀ p, p ∈ accepted c → signals_of p c = [] →
            (shutdown c = false ∧ ∃ k, delete (codec.Seq h) (pending c) !! k = Some p)
            ∨ pending c !! codec.Seq h = Some p).
  { intros p Hp Hq. destruct (cnt_live c Hn p Hp Hq) as [[Hsh [k Hk]]|[h' Hh]].
    - destruct (decide (k = codec.Seq h)) as [->|Hne]; [by right|].
      left. split; [done|]. exists k. by rewrite lookup_delete_ne.
    - by rewrite Hr in Hh. }
  assert (Hframe : ∀ (cs : gmap call_ptr Call) call,
            (∀ q, Seq <$> cs !! q = Seq <$> calls c !! q) →
            (∀ p, pending c !! codec.Seq h = Some p → call = Some p) →
            counted (set_receiving (AtReadBody h call)
                       (set_calls cs (set_pending (delete (codec.Seq h) (pending c))
                                        (did OpReadHeader c))))).
  { intros cs call HS Hcall. destruct Hn. unfold signals_of in *. constructor; cbn.
    - done.
    - intros j p Hj. rewrite HS. by apply cnt_Seq0.
    - intros p Hp Hq. destruct (Hlive p Hp Hq) as [?|Hk]; [by left|].
      right. exists h. by rewrite (Hcall p Hk). }
  destruct (pending c !! codec.Seq h) as [p|] eqn:Hp.
  - destruct (decide (codec.Error h ≠ "")).
    + apply (Hframe (alter (set_Error (fmt_Errorf (codec.Error h) [])) p (calls c)) (Some p)).
      * intros q. by apply lookup_alter_Seq.
      * by intros p' [= ->].
    + by apply (Hframe (calls c) (Some p)); [|intros p' [= ->]].
  - by apply (Hframe (calls c) None).
Qed.

Lemma counted_receive_body r c h call :
  consistent c → counted c → receiving c = AtReadBody h call → counted (receive_body r c).
Proof.
  intros Hc Hn Hr. unfold receive_body. rewrite Hr.
  destruct call as [p|].
  - destruct (cons_held c Hc h p Hr) as (Hacc & Hquiet & Hnp).
    destruct (cons_Done c Hc p (cons_accepted c Hc p Hacc)) as [ch Hch].
    assert (Hframe : ∀ (cs : gmap call_ptr Call) os,
              (∀ q, Done <$> cs !! q = Done <$> calls c !! q) →
              (∀ q, Seq <$> cs !! q = Seq <$> calls c !! q) →
              counted match r with
                      | Some err => set_receiving (AtTerminate err)
                                      (done p (set_calls cs (set_ops os c)))
                      | None => set_receiving AtReadHeader
                                  (done p (set_calls cs (set_ops os c)))
                      end).
    { intros cs os HD HS.
      rewrite (done_eq p _ ch) by (cbn; by rewrite HD).
      destruct Hn. unfold signals_of in *.
      destruct r as [err|]; constructor; cbn.
      all: try done.
      all: try (intros j q Hj; rewrite HS; by apply cnt_Seq0).
      all: intros q Hq [Hqq Hne]%filter_snoc_nil;
        destruct (cnt_live0 q Hq Hqq) as [?|[h' Hh]]; [by left|];
        rewrite Hr in Hh; by injection Hh as _ ->. }
    destruct (decide (codec.Error h ≠ "")).
    + assert (Hid : did (OpReadBody VNil) c
                    = set_calls (calls c) (set_ops (ops c ++ [OpReadBody VNil]) c)) by done.
      rewrite Hid. by apply Hframe.
    + destruct r as [err|].
      * apply (Hframe (alter (set_Error (errors_New ("reading body " +:+ codec.io_message err)))
                         p (calls c)) (ops c ++ [OpReadBody (default VNil (Reply <$> calls c !! p))])).
        -- intros q. by apply lookup_alter_Done.
        -- intros q. by apply lookup_alter_Seq.
      * by apply (Hframe (calls c) (ops c ++ [OpReadBody (default VNil (Reply <$> calls c !! p))])).
  - destruct Hn. destruct r; constructor; cbn; try done.
    all: intros q Hq Hqq; destruct (cnt_live0 q Hq Hqq) as [?|[h' Hh]]; [by left|];
      by rewrite Hr in Hh.
Qed.

Lemma counted_send_end r c :
  consistent c → counted c → is_Some (sending c) → counted (send_end r c).
Proof.
  intros Hc Hn [[p0 s] Hs].
  unfold send_end. rewrite Hs.
  destruct r as [err|]; [|destruct Hn; constructor; cbn; done].
  cbn. destruct (pending c !! s) as [q|] eqn:Hq.
  - destruct (cons_pending c Hc _ _ Hq) as [Hacc HSeq].
    destruct (cons_Done c Hc q (cons_accepted c Hc q Hacc)) as [ch Hch].
    rewrite (done_eq q _ ch) by (cbn; by rewrite lookup_alter_Done).
    destruct Hn. unfold signals_of in *. constructor; cbn.
    + done.
    + intros j p Hj. rewrite lookup_alter_Seq by done. by apply cnt_Seq0.
    + intros p Hp [Hpp Hne]%filter_snoc_nil.
      destruct (cnt_live0 p Hp Hpp) as [[Hsh [k Hk]]|?]; [|by right].
      left. split; [done|]. exists k. rewrite lookup_delete_ne; [done|].
      intros <-. rewrite Hq in Hk. by injection Hk.
  - destruct Hn. constructor; cbn; [done|done|].
    intros p Hp Hpp.
    destruct (cnt_live0 p Hp Hpp) as [[Hsh [k Hk]]|?]; [|by right].
    left. split; [done|]. exists k. rewrite lookup_delete_ne; [done|].
    intros <-. by rewrite Hq in Hk.
Qed.

(** The numbers 1 + j of the first 2^64 calls are all different. *)
Lemma seq_numbers_differ (j n : Z) :
  0 ≤ j < n → n + 1 ≤ 2 ^ 64 → (1 + j) mod 2 ^ 64 ≠ (1 + n) mod 2 ^ 64.
Proof.
  intros Hj Hn. rewrite (Z.mod_small (1 + j)) by lia.
  destruct (decide (1 + n = 2 ^ 64)) as [->|Hne].
  - rewrite Z_mod_same_full. lia.
  - rewrite Z.mod_small by lia. lia.
Qed.

Lemma counted_send_begin c serviceMethod args reply dn p c0 :
  consistent c → counted c →
  new_call serviceMethod args reply dn c = Some (p, c0) →
  unwrapped (send_begin p c0) →
  counted (send_begin p c0).
Proof.
  intros Hc Hn Hnew. unfold new_call in Hnew.
  destruct (match dn with
            | Some ch => if decide (cap ch = 0) then None else Some ch
            | None => Some (mkChan (chan_of_Go (next_call c)) 10)
            end) as [ch|] eqn:Hch; [|done].
  cbn in Hnew. injection Hnew as <- <-.
  set (p := next_call c).
  assert (Hold : ∀ q, q ∈ accepted c → p ≠ q).
  { intros q Hq <-. apply (cons_accepted c Hc) in Hq. unfold p in Hq. lia. }
  unfold unwrapped, send_begin, registerCall. cbn.
  destruct (closing c || shutdown c) eqn:Hf; cbn.
  - intros _.
    rewrite (done_eq p _ ch) by (cbn; by rewrite lookup_alter_eq, lookup_insert_eq).
    destruct Hn. unfold signals_of in *. constructor; cbn.
    + done.
    + intros j q Hj.
      assert (p ≠ q) by (apply Hold; by eapply list_elem_of_lookup_2).
      rewrite lookup_alter_ne, lookup_insert_ne by done. by apply cnt_Seq0.
    + intros q Hq [Hqq Hne]%filter_snoc_nil. by apply cnt_live0.
  - apply orb_false_iff in Hf as [Hcl Hsh].
    autorewrite with client_fields. cbn. rewrite length_app. cbn. intros Hw.
    destruct Hn. unfold signals_of in *. constructor; cbn.
    + rewrite length_app. cbn. unfold uint64_succ. rewrite cnt_seq0.
      rewrite Zplus_mod_idemp_l. f_equal. lia.
    + intros j q Hj. apply lookup_app_Some in Hj as [Hj|[Hlen Hj]].
      * assert (p ≠ q) by (apply Hold; by eapply list_elem_of_lookup_2).
        rewrite lookup_alter_ne, lookup_insert_ne by done. by apply cnt_Seq0.
      * destruct (j - length (accepted c))%nat as [|?] eqn:Hd; [|done].
        injection Hj as <-. rewrite lookup_alter_eq, lookup_insert_eq. cbn.
        rewrite cnt_seq0. do 2 f_equal. lia.
    + intros q Hq Hqq. apply elem_of_app in Hq as [Hq|Hq].
      * destruct (cnt_live0 q Hq Hqq) as [[_ [k Hk]]|?]; [|by right].
        left. split; [done|]. exists k. rewrite lookup_insert_ne; [done|].
        destruct (cons_pending c Hc k q Hk) as [_ HSk].
        apply list_elem_of_lookup_1 in Hq as [j Hj].
        pose proof (cnt_Seq0 j q Hj) as HSj. rewrite HSk in HSj. injection HSj as ->.
        rewrite cnt_seq0. apply not_eq_sym, seq_numbers_differ; [|lia].
        apply lookup_lt_Some in Hj. lia.
      * apply list_elem_of_singleton in Hq as ->.
        left. split; [done|]. exists (seq c). by rewrite lookup_insert_eq.
Qed.

Lemma counted_receive_exit c err :
  consistent c → counted c → receiving c = AtTerminate err →
  counted (receive_exit c).
Proof.
  intros Hc Hn Hr.
  assert (Hsh : shutdown c = false) by (apply consistent_running; [done|by rewrite Hr]).
  unfold receive_exit. rewrite Hr.
  destruct (terminateCalls_effect (of_codec err) c Hc Hsh) as (HD & HS & HN & HP & HU & HG).
  destruct (terminateCalls_fields (of_codec err) c)
    as (Esh & Epd & Ecl & Esq & Esd & Erc & Eops & Eac & Enc & Ehd).
  cbn zeta in *. set (c1 := terminateCalls (of_codec err) c) in *.
  unfold signals_of in *.
  constructor; cbn; rewrite ?Esh, ?Epd, ?Ecl, ?Esq, ?Esd, ?Eac, ?Enc.
  - apply (cnt_seq c Hn).
  - intros j q Hj. rewrite HS. by apply (cnt_Seq c Hn).
  - intros q Hq Hqq. exfalso.
    destruct (decide (q ∈ (map_to_list (pending c)).*2)) as [Hin|Hnin].
    + apply elem_of_pending_values in Hin as [k Hk].
      destruct (HP k q Hk) as (_ & _ & ch & _ & Hone). by rewrite Hone in Hqq.
    + assert (Hnp : ∀ k, pending c !! k ≠ Some q).
      { intros k Hk. apply Hnin, elem_of_pending_values. by exists k. }
      destruct (HU q Hnp) as [_ Hsame]. rewrite Hsame in Hqq.
      destruct (cnt_live c Hn q Hq Hqq) as [[_ [k Hk]]|[h Hh]].
      * by apply (Hnp k).
      * by rewrite Hr in Hh.
Qed.

Lemma step_accepted c e c1 :
  step c e = Some c1 → (length (accepted c) ≤ length (accepted c1))%nat.
Proof.
  destruct e as [sm args reply dn|r|r|r| |r]; cbn.
  - destruct (sending c); [done|].
    destruct (new_call sm args reply dn c) as [[p c0]|] eqn:Hn; [|done].
    cbn. intros [= <-].
    unfold new_call in Hn. destruct (_ : option chan) as [ch|]; [|done].
    cbn in Hn. injection Hn as <- <-.
    unfold send_begin, registerCall. cbn.
    destruct (closing c || shutdown c); fields; [done|]. rewrite length_app. lia.
  - destruct (sending c) as [[p s]|] eqn:Hs; [|done]. intros [= <-].
    unfold send_end. rewrite Hs.
    destruct r as [err|]; fields; [|done].
    destruct (pending c !! s); by fields.
  - destruct (receiving c); try done. intros [= <-].
    unfold receive_header. destruct r as [err|h]; fields; [done|].
    destruct (pending c !! codec.Seq h); [|done].
    by destruct (decide (codec.Error h ≠ "")); fields.
  - destruct (receiving c) as [|h call| |] eqn:Hr; try done. intros [= <-].
    unfold receive_body. rewrite Hr.
    destruct call as [p|]; [destruct (decide (codec.Error h ≠ ""))|];
      destruct r; by fields.
  - destruct (receiving c) as [| |err|] eqn:Hr; try done.
    destruct (sending c); [done|]. intros [= <-].
    unfold receive_exit. rewrite Hr. cbn.
    destruct (terminateCalls_fields (of_codec err) c) as (_ & _ & _ & _ & _ & _ & _ & -> & _).
    done.
  - intros [= <-]. unfold Close. by destruct (closing c); fields.
Qed.

Lemma step_counted c e c1 :
  consistent c → counted c → step c e = Some c1 → unwrapped c1 → counted c1.
Proof.
  intros Hc Hn. destruct e as [sm args reply dn|r|r|r| |r]; cbn.
  - destruct (sending c); [done|].
    destruct (new_call sm args reply dn c) as [[p c0]|] eqn:Hnew; [|done].
    cbn. intros [= <-]. by eapply counted_send_begin.
  - destruct (sending c) eqn:Hs; [|done]. intros [= <-] _.
    apply counted_send_end; [done|done|by rewrite Hs].
  - destruct (receiving c) eqn:Hr; try done. intros [= <-] _.
    by apply counted_receive_header.
  - destruct (receiving c) eqn:Hr; try done. intros [= <-] _.
    by eapply counted_receive_body.
  - destruct (receiving c) eqn:Hr; try done.
    destruct (sending c) eqn:Hs; [done|]. intros [= <-] _.
    by eapply counted_receive_exit.
  - intros [= <-] _. by apply counted_Close.
Qed.

Lemma reachable_counted c : reachable c → unwrapped c → counted c.
Proof.
  induction 1 as [|c e c1 Hr IH Hs]; [intros _; apply counted_new|].
  intros Hw. eapply step_counted; [by apply reachable_consistent| |done|done].
  apply IH. unfold unwrapped in *. pose proof (step_accepted _ _ _ Hs). lia.
Qed.

(** *** When the counter comes round *)

Lemma flooded_new : flooded 0 newClientCodec.
Proof.
  unfold flooded. cbn. repeat split; try done. apply reachable_new.
Qed.

Lemma step_Go_accepted c serviceMethod args reply :
  sending c = None → closing c = false → shutdown c = false →
  ∃ c1, step c (EvGo serviceMethod args reply None) = Some c1
        ∧ sending c1 = Some (next_call c, seq c)
        ∧ receiving c1 = receiving c
        ∧ closing c1 = false ∧ shutdown c1 = false
        ∧ signals c1 = signals c
        ∧ next_call c1 = N.succ (next_call c)
        ∧ seq c1 = uint64_succ (seq c)
        ∧ pending c1 = <[seq c := next_call c]> (pending c)
        ∧ accepted c1 = accepted c ++ [next_call c].
Proof.
  intros Hs Hcl Hsh. eexists. split.
  { cbn. rewrite Hs. cbn. reflexivity. }
  unfold send_begin, registerCall. cbn. rewrite Hcl, Hsh. cbn. done.
Qed.

Lemma step_Written_ok c x :
  sending c = Some x →
  ∃ c1, step c (EvWritten None) = Some c1
        ∧ sending c1 = None
        ∧ receiving c1 = receiving c
        ∧ closing c1 = closing c ∧ shutdown c1 = shutdown c
        ∧ signals c1 = signals c
        ∧ next_call c1 = next_call c
        ∧ seq c1 = seq c
        ∧ pending c1 = pending c
        ∧ accepted c1 = accepted c.
Proof.
  intros Hs. eexists. split.
  { cbn. rewrite Hs. reflexivity. }
  unfold send_end. rewrite Hs. destruct x. cbn. done.
Qed.

Lemma flooded_next m c :
  flooded m c →
  ∃ c1, flooded (N.succ m) c1
        ∧ ∀ es, run c (EvGo "Foo.Sum" VNil VNil None :: EvWritten None :: es) = run c1 es.
Proof.
  intros (Hr & Hs & Hrc & Hcl & Hsh & Hsg & Hnc & Hsq & Hzero & Hlast).
  destruct (step_Go_accepted c "Foo.Sum" VNil VNil Hs Hcl Hsh)
    as (c1 & H1 & Es1 & Erc1 & Ecl1 & Esh1 & Esg1 & Enc1 & Esq1 & Epd1 & Eac1).
  destruct (step_Written_ok c1 _ Es1)
    as (c2 & H2 & Es2 & Erc2 & Ecl2 & Esh2 & Esg2 & Enc2 & Esq2 & Epd2 & Eac2).
  exists c2. split.
  - unfold flooded.
    rewrite Es2, Erc2, Ecl2, Esh2, Esg2, Enc2, Esq2, Epd2, Eac2.
    rewrite Erc1, Ecl1, Esh1, Esg1, Enc1, Esq1, Epd1, Eac1.
    rewrite Hnc.
    split; [eapply reachable_step; [|exact H2]; by eapply reachable_step|].
    split; [done|]. split; [done|]. split; [done|]. split; [done|]. split; [done|].
    split; [done|]. split; [|split; [|intros _; split]].
    + unfold uint64_succ. rewrite Hsq, Zplus_mod_idemp_l. f_equal. lia.
    + intros k Hk. apply lookup_insert_Some in Hk as [[<- ->]|[_ Hk]]; [|by apply Hzero].
      by rewrite Hsq.
    + destruct (decide (m = 0%N)) as [->|Hne].
      * apply elem_of_app. right. by apply list_elem_of_singleton.
      * apply elem_of_app. left. by apply Hlast.
    + rewrite N.pred_succ.
      replace (Z.of_N (N.succ m) mod 2 ^ 64) with (seq c) by (rewrite Hsq; f_equal; lia).
      by rewrite lookup_insert_eq.
  - intros es. cbn [run]. rewrite H1. cbn [mbind option_bind]. rewrite H2. done.
Qed.

Lemma flooded_run n : ∀ m c,
  flooded m c → ∃ c1, flooded (m + n) c1 ∧ run c (flood n) = run c1 (flood 0).
Proof.
  induction n as [|n IH] using N.peano_ind; intros m c Hf.
  - exists c. by rewrite N.add_0_r.
  - destruct (flooded_next m c Hf) as (c0 & Hf0 & Hrun).
    destruct (IH (N.succ m) c0 Hf0) as (c1 & Hf1 & Hrun1).
    exists c1. split.
    + by replace (m + N.succ n)%N with (N.succ m + n)%N by lia.
    + unfold flood at 1. rewrite N.iter_succ. fold (flood n). by rewrite Hrun.
Qed.

(** C1, as stated, fails when the sequence counter comes round.  Take
    2^64 + 1 calls that are written and never answered, and then the end of
    the stream: the last call is registered under the number 1 of the first
    call, which drops out of the pending table; [terminateCalls] completes
    the calls of the table, and the first call, though accepted, is left
    without any signal when [receive] has returned. *)
Lemma first_call_left_unsignaled :
  ∃ c, run newClientCodec (flood (2 ^ 64 + 1)) = Some c
       ∧ 0%N ∈ accepted c
       ∧ receiving c = Exited
       ∧ signals_of 0%N c = [].
Proof.
  destruct (flooded_run (2 ^ 64 + 1) 0 newClientCodec flooded_new)
    as (c & (Hr & Hs & Hrc & Hcl & Hsh & Hsg & Hnc & Hsq & Hzero & Hlast) & Hrun).
  rewrite Hrun. clear Hrun.
  destruct Hlast as [Hacc Hp]; [done|].
  assert (Hnone : ∀ k, pending c !! k ≠ Some 0%N).
  { intros k Hk. pose proof (Hzero k Hk) as ->.
    replace (Z.of_N (0 + (2 ^ 64 + 1)) mod 2 ^ 64) with 1 in Hp by done.
    rewrite Hk in Hp. by injection Hp. }
  set (c1 := receive_header (inl codec.EOF) c).
  assert (H1 : step c (EvHeader (inl codec.EOF)) = Some c1) by (cbn; by rewrite Hrc).
  assert (Hc1 : consistent c1).
  { apply reachable_consistent. by eapply reachable_step. }
  assert (H2 : step c1 EvTerminate = Some (receive_exit c1)) by (cbn; by rewrite Hs).
  exists (receive_exit c1). split.
  { unfold flood. cbn [N.iter run]. rewrite H1. cbn [mbind option_bind]. by rewrite H2. }
  assert (Ef : receive_exit c1
               = set_receiving Exited (terminateCalls (of_codec codec.EOF) c1)) by done.
  rewrite Ef.
  destruct (terminateCalls_effect (of_codec codec.EOF) c1 Hc1 Hsh) as (_ & _ & _ & _ & HU & _).
  destruct (terminateCalls_fields (of_codec codec.EOF) c1)
    as (_ & _ & _ & _ & _ & _ & _ & Eac & _).
  cbn zeta in HU, Eac.
  split; [|split; [done|]].
  - change (0%N ∈ accepted (terminateCalls (of_codec codec.EOF) c1)). by rewrite Eac.
  - change (signals_of 0%N (terminateCalls (of_codec codec.EOF) c1) = []).
    destruct (HU 0%N Hnone) as [_ ->]. unfold signals_of.
    change (signals c1) with (signals c). by rewrite Hsg.
Qed.

(** *** Every accepted call is completed once *)

Lemma signals_of_at_most_one c p ch :
  consistent c → Done <$> calls c !! p = Some (Some ch) →
  signals_of p c = [] ∨ signals_of p c = [(ch, p)].
Proof.
  intros Hc HD. pose proof (cons_once c Hc p) as Hlen.
  destruct (signals_of p c) as [|[ch' q] [|? ?]] eqn:Hs; [by left| |cbn in Hlen; lia].
  right.
  assert (Hin : (ch', q) ∈ signals_of p c) by (rewrite Hs; apply elem_of_cons; by left).
  unfold signals_of in Hin. apply list_elem_of_filter in Hin as [Hq Hin]. cbn in Hq. subst q.
  apply (cons_signals c Hc) in Hin. rewrite HD in Hin. by injection Hin as ->.
Qed.

(** C1, amended.  A call that the client accepted never gets two completion
    signals, and a signal it gets is on its own [Done] channel.  While at
    most 2^64 calls have been accepted on the connection, an accepted call
    without a signal is still in the pending table of a client that is not
    shut down, or is the call that [receive] has just taken out of the table
    and is completing; so once [receive] has returned, every accepted call
    has exactly one signal. *)
Theorem accepted_call_signaled_once (c : Client) (p : call_ptr) :
  reachable c → p ∈ accepted c →
  ∃ ch, Done <$> calls c !! p = Some (Some ch)
        ∧ (signals_of p c = [] ∨ signals_of p c = [(ch, p)])
        ∧ (unwrapped c →
           (signals_of p c = [] →
            (shutdown c = false ∧ ∃ k, pending c !! k = Some p)
            ∨ ∃ h, receiving c = AtReadBody h (Some p))
           ∧ (receiving c = Exited → signals_of p c = [(ch, p)])).
Proof.
  intros Hr Hp. pose proof (reachable_consistent c Hr) as Hc.
  destruct (cons_Done c Hc p (cons_accepted c Hc p Hp)) as [ch Hch].
  exists ch. split; [done|].
  pose proof (signals_of_at_most_one c p ch Hc Hch) as Hone.
  split; [done|]. intros Hw.
  pose proof (reachable_counted c Hr Hw) as Hn.
  split; [by apply (cnt_live c Hn)|].
  intros Hex. destruct Hone as [Hnil|Hone]; [|done].
  destruct (cnt_live c Hn p Hp Hnil) as [[Hsh _]|[h Hh]].
  - apply (cons_exited c Hc) in Hex. by rewrite Hex in Hsh.
  - by rewrite Hex in Hh.
Qed.

Lemma one_terminated_reachable : reachable one_terminated.
Proof.
  apply (reachable_run newClientCodec
           [EvGo "Foo.Sum" (VInt 1) (VPtr 1%positive) None; EvWritten None;
            EvHeader (inl codec.EOF); EvTerminate]); [apply reachable_new|].
  vm_compute. reflexivity.
Qed.

Lemma accepted_call_signaled_once_witness :
  signals_of 0%N one_terminated = [(mkChan (chan_of_Go 0%N) 10, 0%N)].
Proof.
  assert (Hin : 0%N ∈ accepted one_terminated).
  { change (accepted one_terminated) with [0%N]. apply elem_of_cons. by left. }
  destruct (accepted_call_signaled_once one_terminated 0%N one_terminated_reachable Hin)
    as (ch & HD & _ & Hw).
  assert (Hch : ch = mkChan (chan_of_Go 0%N) 10).
  { vm_compute in HD. by injection HD as <-. }
  subst ch. apply Hw; [|reflexivity].
  unfold unwrapped. change (accepted one_terminated) with [0%N]. cbn. lia.
Defined.

(** C2, amended.  When the receive loop has ended with an error [err] and
    [terminateCalls] runs, the client is marked shut down and every entry of
    the pending table is completed by force: its call, which had no signal,
    gets [err] as its error and one signal on its channel.  The entries are
    not removed: the table is the same after it. *)
Theorem terminateCalls_completes_pending (c c1 : Client) :
  reachable c → step c EvTerminate = Some c1 →
  shutdown c1 = true
  ∧ receiving c1 = Exited
  ∧ pending c1 = pending c
  ∧ ∃ err, receiving c = AtTerminate err
           ∧ ∀ k p, pending c !! k = Some p →
               signals_of p c = []
               ∧ Error <$> calls c1 !! p = Some (Some (of_codec err))
               ∧ ∃ ch, Done <$> calls c1 !! p = Some (Some ch)
                       ∧ signals_of p c1 = [(ch, p)].
Proof.
  intros Hr Hs. pose proof (reachable_consistent c Hr) as Hc. cbn in Hs.
  destruct (receiving c) as [| |err|] eqn:Hrc; try done.
  destruct (sending c) eqn:Hsd; [done|]. injection Hs as <-.
  assert (Hsh : shutdown c = false) by (apply consistent_running; [done|by rewrite Hrc]).
  unfold receive_exit. rewrite Hrc.
  destruct (terminateCalls_effect (of_codec err) c Hc Hsh) as (HD & _ & _ & HP & _).
  destruct (terminateCalls_fields (of_codec err) c) as (Esh & Epd & _).
  cbn zeta in *.
  split; [exact Esh|]. split; [done|]. split; [exact Epd|].
  exists err. split; [done|]. intros k p Hk.
  destruct (HP k p Hk) as (HE & Hq & ch & Hch & Hone).
  split; [done|]. split; [exact HE|].
  exists ch. split; [|exact Hone].
  change (Done <$> calls (terminateCalls (of_codec err) c) !! p = Some (Some ch)).
  by rewrite HD.
Qed.

Lemma terminateCalls_completes_pending_witness :
  shutdown one_terminated = true
  ∧ pending one_terminated = pending one_pending
  ∧ Error <$> calls one_terminated !! 0%N = Some (Some (of_codec codec.EOF))
  ∧ signals_of 0%N one_terminated = [(mkChan (chan_of_Go 0%N) 10, 0%N)].
Proof.
  assert (Hr : reachable (receive_header (inl codec.EOF) one_pending)).
  { apply (reachable_run newClientCodec
             [EvGo "Foo.Sum" (VInt 1) (VPtr 1%positive) None; EvWritten None;
              EvHeader (inl codec.EOF)]); [apply reachable_new|].
    vm_compute. reflexivity. }
  destruct (terminateCalls_completes_pending
              (receive_header (inl codec.EOF) one_pending) one_terminated Hr)
    as (Hsh & _ & Hpd & err & Herr & Hall).
  { vm_compute. reflexivity. }
  assert (Hk : pending (receive_header (inl codec.EOF) one_pending) !! 1 = Some 0%N)
    by (vm_compute; reflexivity).
  destruct (Hall 1 0%N Hk) as (_ & HE & ch & HD & Hone).
  assert (Hch : ch = mkChan (chan_of_Go 0%N) 10).
  { vm_compute in HD. by injection HD as <-. }
  assert (He : err = codec.EOF).
  { vm_compute in Herr. by injection Herr as <-. }
  subst ch err.
  split; [exact Hsh|]. split; [exact Hpd|]. split; [exact HE|exact Hone].
Defined.

(** ** More of the client *)

(** *** A completed call *)

Lemma signals_of_done_ne (p q : call_ptr) (c : Client) :
  q ≠ p →
  filter (λ s : chan * call_ptr, s.2 = p) (signals (done q c))
  = filter (λ s : chan * call_ptr, s.2 = p) (signals c).
Proof.
  intros Hne. unfold done. repeat case_match; try done.
  cbn. rewrite filter_app, filter_signal, decide_False by done. by rewrite app_nil_r.
Qed.

Lemma signaled_has_signal (p : call_ptr) (c : Client) :
  signals_of p c ≠ [] → ∃ ch, (ch, p) ∈ signals c.
Proof.
  unfold signals_of. intros Hs.
  destruct (filter _ (signals c)) as [|[ch q] l] eqn:E; [done|].
  assert (Hin : (ch, q) ∈ filter (λ s : chan * call_ptr, s.2 = p) (signals c)).
  { rewrite E. apply elem_of_cons. by left. }
  apply list_elem_of_filter in Hin as [Hq Hin]. cbn in Hq. subst q. by exists ch.
Qed.

(** A step leaves a call alone that has its signal. *)
Lemma step_signaled (c : Client) (e : event) (c1 : Client) (p : call_ptr) :
  consistent c → step c e = Some c1 → signals_of p c ≠ [] →
  calls c1 !! p = calls c !! p ∧ signals_of p c1 = signals_of p c.
Proof.
  intros Hc Hstep Hsig.
  destruct (signaled_has_signal p c Hsig) as [chp Hin].
  pose proof (cons_signals c Hc _ _ Hin) as HDone.
  assert (Hlt : (p < next_call c)%N).
  { destruct (decide (p < next_call c)%N) as [|Hge]; [done|].
    rewrite (cons_fresh c Hc p) in HDone by lia. done. }
  assert (Hpend : shutdown c = false → ∀ k, pending c !! k ≠ Some p).
  { intros Hsh k Hk. by apply Hsig, (cons_quiet c Hc Hsh k). }
  assert (Hheld : ∀ hd, receiving c ≠ AtReadBody hd (Some p)).
  { intros hd Hr. by destruct (cons_held c Hc hd p Hr) as (_ & Hq & _). }
  unfold signals_of in *.
  destruct e as [sm args reply dn|r|r|r| |r]; cbn in Hstep.
  - destruct (sending c); [done|].
    destruct (new_call sm args reply dn c) as [[p0 c0]|] eqn:Hn; [|done].
    cbn in Hstep. injection Hstep as <-.
    unfold new_call in Hn. destruct (_ : option chan) as [ch|]; [|done].
    cbn in Hn. injection Hn as <- <-.
    assert (Hne : next_call c ≠ p) by lia.
    unfold send_begin, registerCall. cbn.
    destruct (closing c || shutdown c); fields.
    + rewrite signals_of_done_ne by done. cbn.
      by rewrite lookup_alter_ne, lookup_insert_ne by done.
    + by rewrite lookup_alter_ne, lookup_insert_ne by done.
  - destruct (sending c) as [[p0 s]|] eqn:Hs; [|done]. injection Hstep as <-.
    assert (Hsh : shutdown c = false).
    { destruct (shutdown c) eqn:E; [|done]. by rewrite (cons_lock c Hc E) in Hs. }
    unfold send_end. rewrite Hs.
    destruct r as [err|]; fields; [|done].
    destruct (pending c !! s) as [q|] eqn:Hq; fields; [|done].
    assert (Hne : q ≠ p) by (intros ->; by apply (Hpend Hsh s)).
    rewrite signals_of_done_ne by done. cbn.
    by rewrite lookup_alter_ne by done.
  - destruct (receiving c) eqn:Hr; try done. injection Hstep as <-.
    assert (Hsh : shutdown c = false) by (apply consistent_running; [done|by rewrite Hr]).
    unfold receive_header. destruct r as [err|hd]; fields; [done|].
    destruct (pending c !! codec.Seq hd) as [q|] eqn:Hq; [|done].
    assert (Hne : q ≠ p) by (intros ->; by apply (Hpend Hsh (codec.Seq hd))).
    destruct (decide (codec.Error hd ≠ "")); fields; [|done].
    by rewrite lookup_alter_ne by done.
  - destruct (receiving c) as [|hd call| |] eqn:Hr; try done. injection Hstep as <-.
    unfold receive_body. rewrite Hr.
    destruct call as [q|].
    + assert (Hne : q ≠ p) by (intros ->; by apply (Hheld hd)).
      destruct (decide (codec.Error hd ≠ "")); destruct r as [err|]; fields;
        rewrite ?signals_of_done_ne by done; cbn;
        by rewrite ?lookup_alter_ne by done.
    + by destruct r.
  - destruct (receiving c) as [| |err|] eqn:Hr; try done.
    destruct (sending c); [done|]. injection Hstep as <-.
    assert (Hsh : shutdown c = false) by (apply consistent_running; [done|by rewrite Hr]).
    unfold receive_exit. rewrite Hr.
    destruct (terminateCalls_effect (of_codec err) c Hc Hsh) as (_ & _ & _ & _ & HU & _).
    destruct (HU p (Hpend Hsh)) as [H1 H2]. done.
  - injection Hstep as <-. unfold Close. by destruct (closing c).
Qed.

(** X9. Once a call has its completion signal it is never written again:
    whatever happens to the client afterwards (other calls, responses, the
    end of the stream, [Close]), the fields of the [Call], its [Error]
    among them, stay as they were when the signal was sent, and no second
    signal follows.  So the caller that received the call from [Done] reads
    a final result. *)
Theorem signaled_call_is_final (c : Client) (es : list event) (c1 : Client) (p : call_ptr) :
  reachable c → run c es = Some c1 → signals_of p c ≠ [] →
  calls c1 !! p = calls c !! p ∧ signals_of p c1 = signals_of p c.
Proof.
  revert c. induction es as [|e es IH]; intros c Hr; cbn.
  - by intros [= <-].
  - destruct (step c e) as [c0|] eqn:Hs; [|done]. cbn. intros Hrun Hsig.
    destruct (step_signaled c e c0 p (reachable_consistent c Hr) Hs Hsig) as [H1 H2].
    destruct (IH c0) as [H3 H4].
    + by eapply reachable_step.
    + done.
    + by rewrite H2.
    + by rewrite H3, H4.
Qed.

Lemma signaled_call_is_final_witness :
  let es := [EvClose None; EvGo "Foo.Sum" (VInt 2) (VPtr 2%positive) None] in
  ∃ c1, run one_terminated es = Some c1
        ∧ calls c1 !! 0%N = calls one_terminated !! 0%N
        ∧ signals_of 0%N c1 = signals_of 0%N one_terminated.
Proof.
  intros es.
  destruct (run one_terminated es) as [c1|] eqn:Hrun; [|by vm_compute in Hrun].
  exists c1. split; [done|].
  apply (signaled_call_is_final one_terminated es c1 0%N one_terminated_reachable Hrun).
  vm_compute. discriminate.
Defined.

(** *** The calls on the codec *)

(** What a step does on the codec. *)
Lemma step_ops (c : Client) (e : event) (c1 : Client) :
  step c e = Some c1 →
  ∃ l, ops c1 = ops c ++ l
       ∧ match e with
         | EvGo _ _ _ _ | EvTerminate => l = [] ∧ closing c1 = closing c
         | EvWritten _ => (∃ hd a, l = [OpWrite hd a]) ∧ closing c1 = closing c
         | EvHeader _ => l = [OpReadHeader] ∧ closing c1 = closing c
         | EvBody _ => (∃ t, l = [OpReadBody t]) ∧ closing c1 = closing c
         | EvClose _ => l = (if closing c then [] else [OpClose]) ∧ closing c1 = true
         end.
Proof.
  destruct e as [sm args reply dn|r|r|r| |r]; cbn.
  - destruct (sending c); [done|].
    destruct (new_call sm args reply dn c) as [[p c0]|] eqn:Hn; [|done].
    cbn. intros [= <-].
    unfold new_call in Hn. destruct (_ : option chan) as [ch|]; [|done].
    cbn in Hn. injection Hn as <- <-.
    exists []. rewrite app_nil_r.
    unfold send_begin, registerCall. cbn.
    by destruct (closing c || shutdown c); fields.
  - destruct (sending c) as [[p s]|] eqn:Hs; [|done]. intros [= <-].
    unfold send_end. rewrite Hs.
    exists [OpWrite (header c) (default VNil (Args <$> calls c !! p))].
    destruct r as [err|]; fields; [|by eauto].
    destruct (pending c !! s); fields; by eauto.
  - destruct (receiving c); try done. intros [= <-].
    exists [OpReadHeader].
    unfold receive_header. destruct r as [err|hd]; fields; [done|].
    destruct (pending c !! codec.Seq hd); [|done].
    by destruct (decide (codec.Error hd ≠ "")); fields.
  - destruct (receiving c) as [|hd call| |] eqn:Hr; try done. intros [= <-].
    unfold receive_body. rewrite Hr.
    destruct call as [p|]; [destruct (decide (codec.Error hd ≠ ""))|];
      destruct r; fields; by eauto.
  - destruct (receiving c) as [| |err|] eqn:Hr; try done.
    destruct (sending c); [done|]. intros [= <-].
    unfold receive_exit. rewrite Hr. cbn.
    destruct (terminateCalls_fields (of_codec err) c)
      as (_ & _ & -> & _ & _ & _ & -> & _).
    exists []. by rewrite app_nil_r.
  - intros [= <-]. unfold Close. destruct (closing c) eqn:Hcl; fields.
    + exists []. by rewrite app_nil_r.
    + by exists [OpClose].
Qed.

Lemma closes_app (l k : list op) : closes (l ++ k) = (closes l + closes k)%nat.
Proof. unfold closes. by rewrite filter_app, length_app. Qed.

Lemma closes_one (o : op) : closes [o] = if is_close o then 1%nat else 0%nat.
Proof. by destruct o. Qed.

(** X10. The codec is closed by [Close] and by nothing else, and at most
    once: in every state of a client, [cc.Close()] was called exactly once
    if the client is closing and never if it is not (the end of the stream
    and [terminateCalls] leave the codec open); a [Close] on a closing
    client returns [ErrShutdown] and does nothing. *)
Theorem codec_closed_once_by_Close (c : Client) :
  reachable c →
  closes (ops c) = (if closing c then 1 else 0)%nat
  ∧ ∀ r r', Close r' (Close r c).1 = ((Close r c).1, Some ErrShutdown).
Proof.
  intros Hr. split.
  - induction Hr as [|c e c1 _ IH Hs]; [done|].
    destruct (step_ops c e c1 Hs) as (l & -> & He).
    rewrite closes_app, IH.
    destruct e as [sm args reply dn|r|r|r| |r].
    + destruct He as [-> ->]. change (closes []) with 0%nat. lia.
    + destruct He as [(hd & a & ->) ->]. rewrite closes_one. cbn. lia.
    + destruct He as [-> ->]. rewrite closes_one. cbn. lia.
    + destruct He as [[t ->] ->]. rewrite closes_one. cbn. lia.
    + destruct He as [-> ->]. change (closes []) with 0%nat. lia.
    + destruct He as [-> ->]. destruct (closing c); [done|]. by rewrite closes_one.
  - intros r r'. unfold Close. destruct (closing c) eqn:Hcl; cbn.
    + by rewrite Hcl.
    + done.
Qed.

Lemma codec_closed_once_by_Close_witness :
  closes (ops (Close None one_terminated).1) = 1%nat
  ∧ closes (ops one_terminated) = 0%nat.
Proof.
  split.
  - apply (codec_closed_once_by_Close (Close None one_terminated).1).
    apply (reachable_step one_terminated (EvClose None));
      [apply one_terminated_reachable|reflexivity].
  - apply (codec_closed_once_by_Close one_terminated), one_terminated_reachable.
Defined.

(** *** The pending table and the sequence numbers *)

(** X11. Responses are matched by number: in every state of a client, the
    entry of the pending table under a number is a call that was accepted
    and whose [Seq] is that number; no call is in the table under two
    numbers; and while the client is not shut down, a call in the table has
    not been completed. *)
Theorem pending_entry_under_its_number (c : Client) (k : Z) (p : call_ptr) :
  reachable c → pending c !! k = Some p →
  Seq <$> calls c !! p = Some k
  ∧ p ∈ accepted c
  ∧ (∀ k', pending c !! k' = Some p → k' = k)
  ∧ (shutdown c = false → signals_of p c = []).
Proof.
  intros Hr Hk. pose proof (reachable_consistent c Hr) as Hc.
  destruct (cons_pending c Hc k p Hk) as [Ha Hs].
  split; [done|]. split; [done|]. split.
  - intros k' Hk'. by apply (consistent_pending_inj c k' k p).
  - intros Hsh. by apply (cons_quiet c Hc Hsh k).
Qed.

Lemma one_pending_reachable : reachable one_pending.
Proof.
  apply (reachable_run newClientCodec
           [EvGo "Foo.Sum" (VInt 1) (VPtr 1%positive) None; EvWritten None]);
    [apply reachable_new|].
  vm_compute. reflexivity.
Qed.

Lemma pending_entry_under_its_number_witness :
  Seq <$> calls one_pending !! 0%N = Some 1
  ∧ 0%N ∈ accepted one_pending
  ∧ (∀ k', pending one_pending !! k' = Some 0%N → k' = 1)
  ∧ (shutdown one_pending = false → signals_of 0%N one_pending = []).
Proof.
  apply (pending_entry_under_its_number one_pending 1 0%N one_pending_reachable).
  vm_compute. reflexivity.
Defined.

(** X12. The numbers are given in the order of acceptance, from 1 on:
    while fewer than 2^64 - 1 calls have been accepted, the counter is one
    more than the number of accepted calls, the j-th accepted call (from 0)
    has the number j + 1, and the number 0 is never given: no entry of the
    pending table is under 0. *)
Theorem numbers_in_order_of_acceptance (c : Client) :
  reachable c →
  Z.of_nat (length (accepted c)) < 2 ^ 64 - 1 →
  seq c = 1 + Z.of_nat (length (accepted c))
  ∧ pending c !! 0 = None
  ∧ ∀ (j : nat) p, accepted c !! j = Some p →
      Seq <$> calls c !! p = Some (1 + Z.of_nat j).
Proof.
  intros Hr Hn.
  assert (Hu : unwrapped c) by (unfold unwrapped; lia).
  pose proof (reachable_consistent c Hr) as Hc.
  destruct (reachable_counted c Hr Hu) as [Hseq HSeq _].
  assert (HS : ∀ (j : nat) p, accepted c !! j = Some p →
                 Seq <$> calls c !! p = Some (1 + Z.of_nat j)).
  { intros j p Hj. rewrite (HSeq j p Hj). f_equal.
    apply lookup_lt_Some in Hj. apply Z.mod_small. lia. }
  split; [rewrite Hseq; apply Z.mod_small; lia|]. split; [|exact HS].
  destruct (pending c !! 0) as [p|] eqn:Hp; [|done].
  destruct (cons_pending c Hc 0 p Hp) as [Ha Hs].
  apply list_elem_of_lookup_1 in Ha as [j Hj].
  rewrite (HS j p Hj) in Hs. injection Hs as Hs. lia.
Qed.

Lemma numbers_in_order_of_acceptance_witness :
  seq one_pending = 1 + Z.of_nat (length (accepted one_pending))
  ∧ pending one_pending !! 0 = None
  ∧ ∀ (j : nat) p, accepted one_pending !! j = Some p →
      Seq <$> calls one_pending !! p = Some (1 + Z.of_nat j).
Proof.
  apply (numbers_in_order_of_acceptance one_pending one_pending_reachable).
  vm_compute. reflexivity.
Defined.

(** *** A call from [Go] to its completion *)

(** [Go] on an available client, up to the call of [Write]: the call is
    registered under the next number. *)
Lemma Go_begin (c : Client) (sm : string) (args reply : val) :
  IsAvailable c = true →
  let p := next_call c in
  let call := mkCall (seq c) sm args reply None (Some (mkChan (chan_of_Go p) 10)) in
  ∃ c0, new_call sm args reply None c = Some (p, c0)
    ∧ sending (send_begin p c0) = Some (p, seq c)
    ∧ header (send_begin p c0) = codec.mkHeader sm (seq c) ""
    ∧ calls (send_begin p c0) = <[p := call]> (calls c)
    ∧ pending (send_begin p c0) = <[seq c := p]> (pending c)
    ∧ seq (send_begin p c0) = uint64_succ (seq c)
    ∧ ops (send_begin p c0) = ops c
    ∧ signals (send_begin p c0) = signals c
    ∧ receiving (send_begin p c0) = receiving c
    ∧ closing (send_begin p c0) = false ∧ shutdown (send_begin p c0) = false.
Proof.
  intros Hav p call. unfold IsAvailable in Hav.
  apply andb_true_iff in Hav as [Hsh Hcl].
  apply negb_true_iff in Hsh, Hcl.
  eexists. split; [reflexivity|].
  unfold send_begin, registerCall. cbn. rewrite Hsh, Hcl. cbn.
  rewrite lookup_alter_eq, lookup_insert_eq, alter_insert_eq. cbn.
  repeat split; done.
Qed.

(** The rest of [send] when [Write] returns no error. *)
Lemma send_end_written (c : Client) (p : call_ptr) (s : Z) :
  sending c = Some (p, s) →
  let c1 := send_end None c in
  ops c1 = ops c ++ [OpWrite (header c) (default VNil (Args <$> calls c !! p))]
  ∧ sending c1 = None ∧ calls c1 = calls c ∧ pending c1 = pending c
  ∧ seq c1 = seq c ∧ signals c1 = signals c ∧ receiving c1 = receiving c
  ∧ closing c1 = closing c ∧ shutdown c1 = shutdown c.
Proof. intros Hs. unfold send_end. rewrite Hs. cbn. repeat split; done. Qed.

(** The rest of [send] when [Write] fails and the call is still pending. *)
Lemma send_end_failed (c : Client) (p : call_ptr) (s : Z) (err : codec.io_error)
    (call : Call) (ch : chan) :
  sending c = Some (p, s) → pending c !! s = Some p →
  calls c !! p = Some call → Done call = Some ch →
  let c1 := send_end (Some err) c in
  ops c1 = ops c ++ [OpWrite (header c) (Args call)]
  ∧ sending c1 = None
  ∧ calls c1 = <[p := set_Error (of_codec err) call]> (calls c)
  ∧ pending c1 = delete s (pending c)
  ∧ seq c1 = seq c ∧ signals c1 = signals c ++ [(ch, p)].
Proof.
  intros Hs Hp Hc HD. unfold send_end. rewrite Hs. cbn. rewrite Hp, Hc. cbn.
  rewrite (done_eq p _ ch).
  2: { cbn. rewrite lookup_alter_eq, Hc. cbn. by rewrite HD. }
  cbn. repeat split; try done.
  apply map_eq. intros q. destruct (decide (q = p)) as [->|Hne].
  - by rewrite lookup_alter_eq, lookup_insert_eq, Hc.
  - by rewrite lookup_alter_ne, lookup_insert_ne by done.
Qed.

(** A turn of [receive] on the response of a pending call, without error. *)
Lemma receive_header_found (c : Client) (hd : codec.Header) (p : call_ptr) :
  pending c !! codec.Seq hd = Some p → codec.Error hd = "" →
  let c1 := receive_header (inr hd) c in
  receiving c1 = AtReadBody hd (Some p)
  ∧ pending c1 = delete (codec.Seq hd) (pending c)
  ∧ ops c1 = ops c ++ [OpReadHeader]
  ∧ calls c1 = calls c ∧ signals c1 = signals c ∧ sending c1 = sending c
  ∧ closing c1 = closing c ∧ shutdown c1 = shutdown c.
Proof.
  intros Hp He. unfold receive_header. cbn. rewrite Hp.
  rewrite decide_False by (by rewrite He; intros H; apply H).
  cbn. repeat split; done.
Qed.

Lemma receive_body_decoded (c : Client) (hd : codec.Header) (p : call_ptr)
    (call : Call) (ch : chan) :
  receiving c = AtReadBody hd (Some p) → codec.Error hd = "" →
  calls c !! p = Some call → Done call = Some ch →
  let c1 := receive_body None c in
  receiving c1 = AtReadHeader
  ∧ ops c1 = ops c ++ [OpReadBody (Reply call)]
  ∧ signals c1 = signals c ++ [(ch, p)]
  ∧ calls c1 = calls c ∧ pending c1 = pending c ∧ sending c1 = sending c
  ∧ closing c1 = closing c ∧ shutdown c1 = shutdown c.
Proof.
  intros Hr He Hc HD. unfold receive_body. rewrite Hr.
  rewrite decide_False by (by rewrite He; intros H; apply H).
  rewrite Hc. cbn. rewrite (done_eq p _ ch) by (cbn; rewrite Hc; cbn; by rewrite HD).
  cbn. repeat split; done.
Qed.

(** X13. A call that is written and answered comes back complete, and the
    client is as before.  On an available client whose lock is free and
    whose [receive] waits for a header, [Go] with a nil channel registers
    the call under the next number, the request goes out with that number
    and an empty error field, and when the response with that number and no
    error is read, the body is decoded into the call's [Reply], the call
    gets no error and one signal on the channel of capacity 10 that [Go]
    made; the pending table is again what it was, the lock is free, and
    [receive] waits for the next header. *)
Theorem answered_call_round_trip
    (c : Client) (sm : string) (args reply : val) (hd : codec.Header) :
  IsAvailable c = true → sending c = None → receiving c = AtReadHeader →
  pending c !! seq c = None →
  codec.Seq hd = seq c → codec.Error hd = "" →
  let p := next_call c in
  let ch := mkChan (chan_of_Go p) 10 in
  ∃ c1,
    run c [EvGo sm args reply None; EvWritten None; EvHeader (inr hd); EvBody None] = Some c1
    ∧ calls c1 !! p = Some (mkCall (seq c) sm args reply None (Some ch))
    ∧ signals c1 = signals c ++ [(ch, p)]
    ∧ ops c1 = ops c ++ [OpWrite (codec.mkHeader sm (seq c) "") args;
                         OpReadHeader; OpReadBody reply]
    ∧ pending c1 = pending c
    ∧ sending c1 = None ∧ receiving c1 = AtReadHeader ∧ IsAvailable c1 = true.
Proof.
  intros Hav Hlock Hrecv Hfree Hseq Herr p ch.
  destruct (Go_begin c sm args reply Hav)
    as (c0 & Hn & Hs1 & Hh1 & Hc1 & Hp1 & Hq1 & Ho1 & Hg1 & Hr1 & Hcl1 & Hsh1).
  fold p in Hn, Hs1, Hh1, Hc1, Hp1, Hq1, Ho1, Hg1, Hr1, Hcl1, Hsh1. fold ch in Hc1.
  set (call := mkCall (seq c) sm args reply None (Some ch)) in *.
  set (c1 := send_begin p c0) in *.
  assert (E1 : step c (EvGo sm args reply None) = Some c1).
  { cbn [step]. rewrite Hlock, Hn. done. }
  destruct (send_end_written c1 p (seq c) Hs1)
    as (Ho2 & Hs2 & Hc2 & Hp2 & Hq2 & Hg2 & Hr2 & Hcl2 & Hsh2).
  set (c2 := send_end None c1) in *.
  assert (E2 : step c1 (EvWritten None) = Some c2).
  { cbn [step]. by rewrite Hs1. }
  assert (Hpend : pending c2 !! codec.Seq hd = Some p).
  { by rewrite Hp2, Hp1, Hseq, lookup_insert_eq. }
  destruct (receive_header_found c2 hd p Hpend Herr)
    as (Hr3 & Hp3 & Ho3 & Hc3 & Hg3 & Hs3 & Hcl3 & Hsh3).
  set (c3 := receive_header (inr hd) c2) in *.
  assert (E3 : step c2 (EvHeader (inr hd)) = Some c3).
  { cbn [step]. by rewrite Hr2, Hr1, Hrecv. }
  assert (Hcall : calls c3 !! p = Some call).
  { by rewrite Hc3, Hc2, Hc1, lookup_insert_eq. }
  destruct (receive_body_decoded c3 hd p call ch Hr3 Herr Hcall eq_refl)
    as (Hr4 & Ho4 & Hg4 & Hc4 & Hp4 & Hs4 & Hcl4 & Hsh4).
  set (c4 := receive_body None c3) in *.
  assert (E4 : step c3 (EvBody None) = Some c4).
  { cbn [step]. by rewrite Hr3. }
  exists c4. split.
  { cbn [run]. rewrite E1. cbn [mbind option_bind]. rewrite E2. cbn [mbind option_bind].
    rewrite E3. cbn [mbind option_bind]. by rewrite E4. }
  split; [by rewrite Hc4|].
  split; [by rewrite Hg4, Hg3, Hg2, Hg1|].
  split.
  { rewrite Ho4, Ho3, Ho2, Ho1, Hh1, Hc1, lookup_insert_eq. cbn.
    by rewrite <- !app_assoc. }
  split.
  { rewrite Hp4, Hp3, Hp2, Hp1, Hseq. by apply delete_insert_id. }
  split; [by rewrite Hs4, Hs3|]. split; [done|].
  unfold IsAvailable. by rewrite Hsh4, Hsh3, Hsh2, Hsh1, Hcl4, Hcl3, Hcl2, Hcl1.
Qed.

Lemma answered_call_round_trip_witness :
  let ch := mkChan (chan_of_Go 0%N) 10 in
  ∃ c1,
    run newClientCodec
      [EvGo "Foo.Sum" (VInt 1) (VPtr 1%positive) None; EvWritten None;
       EvHeader (inr (codec.mkHeader "Foo.Sum" 1 "")); EvBody None] = Some c1
    ∧ calls c1 !! 0%N = Some (mkCall 1 "Foo.Sum" (VInt 1) (VPtr 1%positive) None (Some ch))
    ∧ signals c1 = [(ch, 0%N)]
    ∧ ops c1 = [OpWrite (codec.mkHeader "Foo.Sum" 1 "") (VInt 1);
                OpReadHeader; OpReadBody (VPtr 1%positive)]
    ∧ pending c1 = ∅
    ∧ sending c1 = None ∧ receiving c1 = AtReadHeader ∧ IsAvailable c1 = true.
Proof.
  apply (answered_call_round_trip newClientCodec "Foo.Sum" (VInt 1) (VPtr 1%positive)
           (codec.mkHeader "Foo.Sum" 1 "")); reflexivity.
Defined.

(** X14. A call whose [Write] fails is completed by [send] itself: on an
    available client, [Go] registers the call under the next number, and
    when [Write] returns an error the call is taken out of the table again,
    gets that error, and one signal; the pending table is what it was before
    [Go], and the number is used up. *)
Theorem failed_write_completes_the_call
    (c : Client) (sm : string) (args reply : val) (err : codec.io_error) :
  IsAvailable c = true → pending c !! seq c = None →
  let p := next_call c in
  let ch := mkChan (chan_of_Go p) 10 in
  ∃ c1,
    Go sm args reply None (Some err) c = Some (p, c1)
    ∧ calls c1 !! p = Some (mkCall (seq c) sm args reply (Some (of_codec err)) (Some ch))
    ∧ signals c1 = signals c ++ [(ch, p)]
    ∧ ops c1 = ops c ++ [OpWrite (codec.mkHeader sm (seq c) "") args]
    ∧ pending c1 = pending c
    ∧ seq c1 = uint64_succ (seq c)
    ∧ sending c1 = None.
Proof.
  intros Hav Hfree p ch.
  destruct (Go_begin c sm args reply Hav)
    as (c0 & Hn & Hs1 & Hh1 & Hc1 & Hp1 & Hq1 & Ho1 & Hg1 & Hr1 & Hcl1 & Hsh1).
  fold p in Hn, Hs1, Hh1, Hc1, Hp1, Hq1, Ho1, Hg1, Hr1, Hcl1, Hsh1. fold ch in Hc1.
  set (call := mkCall (seq c) sm args reply None (Some ch)) in *.
  set (c1 := send_begin p c0) in *.
  assert (Hpend : pending c1 !! seq c = Some p) by (by rewrite Hp1, lookup_insert_eq).
  assert (Hcall : calls c1 !! p = Some call) by (by rewrite Hc1, lookup_insert_eq).
  destruct (send_end_failed c1 p (seq c) err call ch Hs1 Hpend Hcall eq_refl)
    as (Ho2 & Hs2 & Hc2 & Hp2 & Hq2 & Hg2).
  exists (send_end (Some err) c1). split.
  { unfold Go. rewrite Hn. done. }
  split; [by rewrite Hc2, lookup_insert_eq|].
  split; [by rewrite Hg2, Hg1|].
  split; [by rewrite Ho2, Ho1, Hh1|].
  split; [rewrite Hp2, Hp1; by apply delete_insert_id|].
  split; [by rewrite Hq2, Hq1|done].
Qed.

Lemma failed_write_completes_the_call_witness :
  let ch := mkChan (chan_of_Go 0%N) 10 in
  ∃ c1,
    Go "Foo.Sum" (VInt 1) (VPtr 1%positive) None (Some (codec.io_err "broken pipe"))
      newClientCodec = Some (0%N, c1)
    ∧ calls c1 !! 0%N
      = Some (mkCall 1 "Foo.Sum" (VInt 1) (VPtr 1%positive)
                (Some (of_codec (codec.io_err "broken pipe"))) (Some ch))
    ∧ signals c1 = [(ch, 0%N)]
    ∧ ops c1 = [OpWrite (codec.mkHeader "Foo.Sum" 1 "") (VInt 1)]
    ∧ pending c1 = ∅
    ∧ seq c1 = 2
    ∧ sending c1 = None.
Proof.
  apply (failed_write_completes_the_call newClientCodec "Foo.Sum" (VInt 1) (VPtr 1%positive)
           (codec.io_err "broken pipe")); reflexivity.
Defined.

(** *** [Dial] *)

(** X15. [Dial] returns a client or an error, never both and never
    neither.  With a client, the connection was made, the option was
    encoded on it for a codec type that has a constructor, and the
    connection is open.  With an error, either nothing was done (the options
    were refused), or [net.Dial] failed, or the connection was made and the
    last thing done on it is [conn.Close()]. *)
Theorem Dial_returns_client_or_closes
    (codecs : gmap codec.Type_ codec.NewCodecFun) (opts : list (option opt_ptr))
    (m : options) (conn enc : option codec.io_error)
    (client : option Client) (err : option error) (m1 : options) (l : list dial_event) :
  Dial codecs opts m conn enc = Some (client, err, m1, l) →
  match client, err with
  | Some c, None =>
      c = newClientCodec ∧ conn = None ∧ enc = None
      ∧ ∃ o, l = [DialNet; EncodeOption o] ∧ is_Some (codecs !! Option_CodecType o)
  | None, Some e =>
      l = []
      ∨ (l = [DialNet] ∧ is_Some conn)
      ∨ (conn = None ∧ ∃ l', l = DialNet :: l' ++ [ConnClose])
  | _, _ => False
  end.
Proof.
  unfold Dial.
  destruct (parseOptions opts m) as [[[opt perr] m0]|]; [|done]. cbn.
  destruct perr as [perr|].
  { intros [= <- <- <- <-]. by left. }
  destruct conn as [cerr|].
  { intros [= <- <- <- <-]. right. left. split; [done|]. by eexists. }
  destruct opt as [opt|]; [|done]. cbn.
  unfold NewClient. destruct (m0 !! opt) as [o|]; [|done]. cbn.
  destruct (codecs !! Option_CodecType o) as [f|] eqn:Hf.
  - destruct enc as [eerr|]; cbn; intros [= <- <- <- <-].
    + right. right. split; [done|]. by exists [EncodeOption o; ConnClose].
    + split; [done|]. split; [done|]. split; [done|]. exists o. split; [done|].
      rewrite Hf. by eexists.
  - cbn. intros [= <- <- <- <-]. right. right. split; [done|]. by exists [].
Qed.

Lemma Dial_returns_client_or_closes_witness :
  ∃ o, [DialNet; EncodeOption (mkOption MagicNumber codec.GobType)] = [DialNet; EncodeOption o]
       ∧ is_Some (codec.NewCodecFuncMap !! Option_CodecType o).
Proof.
  assert (H : Dial codec.NewCodecFuncMap [] options_init None None
              = Some (Some newClientCodec, None, options_init,
                      [DialNet; EncodeOption (mkOption MagicNumber codec.GobType)])).
  { vm_compute. reflexivity. }
  apply (Dial_returns_client_or_closes _ _ _ _ _ _ _ _ _ H).
Defined.

End ClientProperties.

Section HandlerProperties.
Import reflect service.













End HandlerProperties.

Section DiscoveryProperties.
Import discovery.

Lemma int_wrap_small (x : Z) : - 2 ^ 63 ≤ x < 2 ^ 63 → int_wrap x = x.
Proof. intros Hx. unfold int_wrap. rewrite Z.mod_small; lia. Qed.


(** A call of [Get(RoundRobinSelect)] on servers, from a position in range. *)
Lemma Get_round_robin (d : MultiServersDiscovery) (rnd : Z) :
  in_range d → servers d ≠ [] →
  let n := Z.of_nat (length (servers d)) in
  ∃ s, servers d !! Z.to_nat (index d mod n) = Some s
       ∧ Get RoundRobinSelect rnd d
         = Some ({| servers := servers d; index := (index d + 1) mod n |}, (s, None)).
Proof.
  intros [Hi Hn] Hne n.
  assert (Hpos : 0 < n) by (subst n; destruct (servers d); [done|cbn; lia]).
  unfold Get. fold n. rewrite decide_False by lia.
  rewrite decide_False by done. rewrite decide_True by done.
  rewrite int_wrap_small by lia.
  rewrite !Z.rem_mod_nonneg by lia.
  pose proof (Z.mod_pos_bound (index d) n Hpos) as Hb.
  unfold at_index. rewrite decide_True by lia.
  destruct (lookup_lt_is_Some_2 (servers d) (Z.to_nat (index d mod n))) as [s Hs]; [lia|].
  exists s. split; [done|]. by rewrite Hs.
Qed.



(** Calls of [Get(RoundRobinSelect)] in a row, from a position in range. *)
Lemma round_robin_from (k : nat) : ∀ d,
  in_range d → servers d ≠ [] →
  let n := Z.of_nat (length (servers d)) in
  ∃ rs, round_robin k d
        = Some ({| servers := servers d;
                   index := match k with
                            | O => index d
                            | S _ => (index d + Z.of_nat k) mod n
                            end |}, rs)
        ∧ length rs = k
        ∧ ∀ j : nat, (j < k)%nat →
            rs !! j = (λ s, (s, None)) <$> servers d !! Z.to_nat ((index d + Z.of_nat j) mod n).
Proof.
  induction k as [|k IH]; intros d Hd Hne n.
  { exists []. cbn. split; [by destruct d|]. split; [done|]. intros j Hj. lia. }
  assert (Hpos : 0 < n) by (subst n; destruct (servers d); [done|cbn; lia]).
  destruct (Get_round_robin d 0 Hd Hne) as (s & Hs & HG). fold n in Hs, HG.
  set (d1 := {| servers := servers d; index := (index d + 1) mod n |}) in *.
  assert (Hd1 : in_range d1).
  { destruct Hd as [Hi Hn]. unfold in_range. cbn. fold n.
    pose proof (Z.mod_pos_bound (index d + 1) n Hpos). fold n in Hn. lia. }
  destruct (IH d1 Hd1 Hne) as (rs & Hrs & Hlen & Hl).
  cbn [servers index d1] in Hrs, Hl. fold n in Hrs, Hl.
  exists ((s, None) :: rs). cbn [round_robin]. rewrite HG. cbn. rewrite Hrs. cbn.
  split.
  { f_equal. f_equal. f_equal. destruct k as [|k]; [done|].
    rewrite Zplus_mod_idemp_l. f_equal. lia. }
  split; [by rewrite Hlen|].
  intros [|j] Hj.
  - cbn. rewrite Z.add_0_r, Hs. done.
  - cbn [lookup list_lookup]. rewrite Hl by lia.
    rewrite Zplus_mod_idemp_l. do 3 f_equal. f_equal. lia.
Qed.

(** X17. The round robin is fair: on [n] servers, [n] calls of
    [Get(RoundRobinSelect)] in a row return every server once, in the order
    of the list from the position on and around, each without error; after
    them the position is where the first call found it (modulo [n]). *)
Theorem round_robin_serves_each_in_turn (d : MultiServersDiscovery) :
  in_range d → servers d ≠ [] →
  let n := length (servers d) in
  let i := Z.to_nat (index d mod Z.of_nat n) in
  round_robin n d
  = Some ({| servers := servers d; index := index d mod Z.of_nat n |},
          (λ s, (s, None)) <$> rotate i (servers d)).
Proof.
  intros Hd Hne n i.
  assert (Hpos : (0 < n)%nat) by (subst n; destruct (servers d); [done|cbn; lia]).
  destruct (round_robin_from n d Hd Hne) as (rs & Hrs & Hlen & Hl).
  cbv zeta in Hrs, Hl. fold n in Hrs, Hl.
  rewrite Hrs. f_equal. f_equal.
  - f_equal. destruct n as [|n'] eqn:En; [lia|]. rewrite <- En.
    rewrite <- (Z.mod_add (index d) 1 (Z.of_nat n)) by lia. f_equal. lia.
  - apply list_eq. intros j. destruct (decide (j < n)%nat) as [Hj|Hj].
    + rewrite (Hl j Hj), list_lookup_fmap. f_equal.
      rewrite lookup_rotate_r by done. fold n. f_equal.
      unfold rotate_nat_add, i.
      pose proof (Z.mod_pos_bound (index d) (Z.of_nat n)).
      rewrite Z2Nat.id by lia. by rewrite Zplus_mod_idemp_l.
    + rewrite !lookup_ge_None_2; [done| |].
      * rewrite length_fmap, length_rotate. fold n. lia.
      * lia.
Qed.

Lemma round_robin_serves_each_in_turn_witness :
  round_robin 3 (NewMultiServerDiscovery ["a"; "b"; "c"] 7)
  = Some ({| servers := ["a"; "b"; "c"]; index := 1 |},
          [("b", None); ("c", None); ("a", None)]).
Proof.
  apply (round_robin_serves_each_in_turn (NewMultiServerDiscovery ["a"; "b"; "c"] 7)).
  - unfold in_range. cbn. lia.
  - done.
Defined.

End DiscoveryProperties.

Section RegistryProperties.
Import regi.

(** The loop of [aliveServers]: the servers that pass the test are
    appended in the order of the loop, the others are deleted. *)
Lemma alive_loop (r : GoRegistry) (now : string → Z) (l : list (string * ServerItem)) :
  ∀ (m : gmap string ServerItem) (a : list string),
  let res :=
    foldl (λ (acc : gmap string ServerItem * list string) (kv : string * ServerItem),
             if is_alive r (now kv.1) kv.2
             then (acc.1, acc.2 ++ [kv.1])
             else (delete kv.1 acc.1, acc.2)) (m, a) l in
  res.2 = a ++ (filter (λ kv, is_alive r (now kv.1) kv.2 = true) l).*1
  ∧ ∀ k, res.1 !! k
         = if decide (k ∈ (filter (λ kv, is_alive r (now kv.1) kv.2 = false) l).*1)
           then None else m !! k.
Proof.
  induction l as [|[k0 s0] l IH]; intros m a.
  { cbn. split; [by rewrite app_nil_r|]. intros k. rewrite decide_False; [done|].
    apply not_elem_of_nil. }
  cbn [foldl fst snd]. destruct (is_alive r (now k0) s0) eqn:Hal.
  - destruct (IH m (a ++ [k0])) as [H1 H2]. cbv zeta in *. split.
    + rewrite H1. rewrite filter_cons_True by done. cbn. by rewrite <- app_assoc.
    + intros k. rewrite H2. rewrite (filter_cons_False _ (k0, s0)); [done|].
      cbn. by rewrite Hal.
  - destruct (IH (delete k0 m) a) as [H1 H2]. cbv zeta in *. split.
    + rewrite H1. rewrite filter_cons_False; [done|]. cbn. by rewrite Hal.
    + intros k. rewrite H2. rewrite (filter_cons_True _ (k0, s0)) by done.
      cbn. destruct (decide (k = k0)) as [->|Hne].
      * rewrite lookup_delete_eq. rewrite (decide_True (P := k0 ∈ k0 :: _)).
        -- by case_decide.
        -- apply elem_of_cons. by left.
      * rewrite lookup_delete_ne by done.
        destruct (decide (k ∈ _)) as [Hin|Hnin].
        -- rewrite decide_True; [done|]. apply elem_of_cons. by right.
        -- rewrite decide_False; [done|]. intros [?|?]%elem_of_cons; done.
Qed.

Lemma is_alive_true (r : GoRegistry) (now : Z) (s : ServerItem) :
  is_alive r now s = true ↔ timeout r = 0 ∨ now < start s + timeout r.
Proof.
  unfold is_alive. rewrite orb_true_iff, !bool_decide_eq_true. done.
Qed.

(** What [aliveServers] leaves in the map and what it returns. *)
Lemma aliveServers_effect (now : string → Z) (r : GoRegistry) :
  (∀ addr s, servers (aliveServers now r).1 !! addr = Some s
             ↔ servers r !! addr = Some s ∧ is_alive r (now addr) s = true)
  ∧ (∀ addr, addr ∈ (aliveServers now r).2
             ↔ ∃ s, servers r !! addr = Some s ∧ is_alive r (now addr) s = true).
Proof.
  unfold aliveServers.
  destruct (alive_loop r now (map_to_list (servers r)) (servers r) []) as [H1 H2].
  cbv zeta in *. cbn [fst snd servers]. split.
  - intros addr s. rewrite H2. case_decide as Hd.
    + split; [done|]. intros [Hs Hal].
      apply list_elem_of_fmap in Hd as ([k s'] & -> & Hin).
      apply list_elem_of_filter in Hin as [Hdead Hin]. cbn in *.
      apply elem_of_map_to_list in Hin. rewrite Hin in Hs. injection Hs as ->.
      by rewrite Hal in Hdead.
    + split; [|by intros [? _]]. intros Hs. split; [done|].
      destruct (is_alive r (now addr) s) eqn:Hal; [done|].
      exfalso. apply Hd. apply list_elem_of_fmap. exists (addr, s). split; [done|].
      apply list_elem_of_filter. split; [done|]. by apply elem_of_map_to_list.
  - intros addr. unfold sort_Strings. rewrite merge_sort_Permutation, H1. cbn.
    rewrite list_elem_of_fmap. split.
    + intros ([k s] & -> & Hin). apply list_elem_of_filter in Hin as [Hal Hin].
      apply elem_of_map_to_list in Hin. by exists s.
    + intros (s & Hs & Hal). exists (addr, s). split; [done|].
      apply list_elem_of_filter. split; [done|]. by apply elem_of_map_to_list.
Qed.

(** X18. [aliveServers] returns the living and forgets the others: a
    server stays in the map when the timeout is zero or when its start plus
    the timeout is after the instant read for it, and is deleted otherwise;
    the addresses returned are exactly those that stay, each once, in
    increasing order; the timeout is as before. *)
Theorem aliveServers_keeps_the_living (now : string → Z) (r : GoRegistry) :
  let r1 := (aliveServers now r).1 in
  let alive := (aliveServers now r).2 in
  timeout r1 = timeout r
  ∧ (∀ addr s, servers r1 !! addr = Some s
               ↔ servers r !! addr = Some s
                 ∧ (timeout r = 0 ∨ now addr < start s + timeout r))
  ∧ (∀ addr, addr ∈ alive ↔ is_Some (servers r1 !! addr))
  ∧ NoDup alive
  ∧ StronglySorted String.le alive.
Proof.
  intros r1 alive. destruct (aliveServers_effect now r) as [Hm Hl].
  fold r1 in Hm. fold alive in Hl.
  split; [done|]. split.
  { intros addr s. by rewrite Hm, is_alive_true. }
  split.
  { intros addr. rewrite Hl. split.
    - intros (s & Hs). exists s. by apply Hm.
    - intros [s Hs]. exists s. by apply Hm. }
  split.
  - subst alive. unfold aliveServers, sort_Strings. cbn [snd].
    rewrite merge_sort_Permutation.
    destruct (alive_loop r now (map_to_list (servers r)) (servers r) []) as [-> _].
    cbn. apply NoDup_fmap_fst.
    + intros k s1 s2 [_ H1]%list_elem_of_filter [_ H2]%list_elem_of_filter.
      apply elem_of_map_to_list in H1, H2. congruence.
    + apply NoDup_filter, NoDup_map_to_list.
  - subst alive. unfold aliveServers, sort_Strings. cbn [snd].
    apply StronglySorted_merge_sort; apply _.
Qed.

Lemma putServer_lookup (addr : string) (t : Z) (r : GoRegistry) :
  start <$> servers (putServer addr t r) !! addr = Some t
  ∧ ∀ k, k ≠ addr → servers (putServer addr t r) !! k = servers r !! k.
Proof.
  unfold putServer. destruct (servers r !! addr) as [s|]; cbn.
  - rewrite lookup_insert_eq. split; [done|]. intros k Hk. by rewrite lookup_insert_ne.
  - rewrite lookup_insert_eq. split; [done|]. intros k Hk. by rewrite lookup_insert_ne.
Qed.

(** X19. A heartbeat keeps a server alive for one timeout: after
    [putServer] at the instant [t] the server has the start [t], whether it
    was new or known, the other servers are untouched, and [aliveServers]
    returns its address exactly when the timeout is zero or the instant it
    reads for the server is before [t] plus the timeout; otherwise the
    server is deleted. *)
Theorem putServer_keeps_alive (addr : string) (t : Z) (now : string → Z) (r : GoRegistry) :
  let r1 := putServer addr t r in
  start <$> servers r1 !! addr = Some t
  ∧ timeout r1 = timeout r
  ∧ (∀ k, k ≠ addr → servers r1 !! k = servers r !! k)
  ∧ (addr ∈ (aliveServers now r1).2 ↔ timeout r = 0 ∨ now addr < t + timeout r)
  ∧ (is_Some (servers (aliveServers now r1).1 !! addr)
     ↔ timeout r = 0 ∨ now addr < t + timeout r).
Proof.
  intros r1. destruct (putServer_lookup addr t r) as [Hst Hk]. fold r1 in Hst, Hk.
  assert (Ht : timeout r1 = timeout r).
  { subst r1. unfold putServer. by destruct (servers r !! addr). }
  destruct (aliveServers_effect now r1) as [Hm Hl].
  destruct (servers r1 !! addr) as [s|] eqn:Hs; [|done].
  injection Hst as Hst.
  split; [cbn; by f_equal|]. split; [done|]. split; [done|]. split.
  - rewrite Hl. split.
    + intros (s' & Heq & Hal). rewrite Hs in Heq. injection Heq as <-.
      apply is_alive_true in Hal. by rewrite Ht, Hst in Hal.
    + intros Hal. exists s. split; [done|]. apply is_alive_true. by rewrite Ht, Hst.
  - split.
    + intros [s' Hs']. apply Hm in Hs' as [Heq Hal].
      rewrite Hs in Heq. injection Heq as <-.
      apply is_alive_true in Hal. by rewrite Ht, Hst in Hal.
    + intros Hal. exists s. apply Hm. split; [done|].
      apply is_alive_true. by rewrite Ht, Hst.
Qed.

Lemma putServer_keeps_alive_witness :
  "tcp@a:1" ∈ (aliveServers (λ _, 20) (putServer "tcp@a:1" 10 (New 15))).2
  ↔ timeout (New 15) = 0 ∨ 20 < 10 + timeout (New 15).
Proof.
  apply (putServer_keeps_alive "tcp@a:1" 10 (λ _, 20) (New 15)).
Defined.

(** X20. The registry over HTTP.  A POST without the header
    [X-goRPC-Server] is answered with the status 500 and a request that is
    neither a GET nor a POST with the status 405, and both leave the
    registry as it is; a POST with an address registers it and writes no
    status; and a GET that follows, reading for the address an instant
    before its start plus the timeout, writes no status and sets the header
    [X-goRPC-Servers] to the living addresses, the posted one among them,
    in increasing order and joined by commas. *)
Theorem ServeHTTP_post_then_get
    (addr method : string) (t : Z) (nows : string → Z) (r : GoRegistry) :
  addr ≠ "" →
  timeout r = 0 ∨ nows addr < t + timeout r →
  method ≠ "GET" → method ≠ "POST" →
  ServeHTTP "POST" "" t nows r
  = (r, {| status := Some 500; X_goRPC_Servers := None |})
  ∧ ServeHTTP method addr t nows r
    = (r, {| status := Some 405; X_goRPC_Servers := None |})
  ∧ ∃ r1 r2 alive,
      ServeHTTP "POST" addr t nows r = (r1, {| status := None; X_goRPC_Servers := None |})
      ∧ ServeHTTP "GET" "" t nows r1
        = (r2, {| status := None; X_goRPC_Servers := Some (Join alive ",") |})
      ∧ addr ∈ alive ∧ StronglySorted String.le alive
      ∧ ∀ a, a ∈ alive ↔ is_Some (servers r2 !! a).
Proof.
  intros Haddr Hal Hm1 Hm2. split; [done|]. split.
  { unfold ServeHTTP. by rewrite !decide_False by done. }
  exists (putServer addr t r), (aliveServers nows (putServer addr t r)).1,
    (aliveServers nows (putServer addr t r)).2.
  split.
  { unfold ServeHTTP. rewrite decide_False by done. rewrite decide_True by done.
    by rewrite decide_False by done. }
  split.
  { unfold ServeHTTP. rewrite decide_True by done.
    by destruct (aliveServers nows (putServer addr t r)). }
  destruct (aliveServers_effect nows (putServer addr t r)) as [Hm Hl].
  destruct (putServer_lookup addr t r) as [Hst _].
  assert (Ht : timeout (putServer addr t r) = timeout r).
  { unfold putServer. by destruct (servers r !! addr). }
  split; [|split].
  - apply Hl. destruct (servers (putServer addr t r) !! addr) as [s|] eqn:Hs; [|done].
    injection Hst as Hst. exists s. split; [done|].
    apply is_alive_true. by rewrite Ht, Hst.
  - unfold aliveServers, sort_Strings. cbn [snd].
    apply StronglySorted_merge_sort; apply _.
  - intros a. rewrite Hl. split.
    + intros (s & Hs). exists s. by apply Hm.
    + intros [s Hs]. exists s. by apply Hm.
Qed.

Lemma ServeHTTP_post_then_get_witness :
  ∃ r1 r2 alive,
    ServeHTTP "POST" "tcp@b:1" 10 (λ _, 20) (putServer "tcp@a:1" 0 (New 15))
    = (r1, {| status := None; X_goRPC_Servers := None |})
    ∧ ServeHTTP "GET" "" 10 (λ _, 20) r1
      = (r2, {| status := None; X_goRPC_Servers := Some (Join alive ",") |})
    ∧ "tcp@b:1" ∈ alive ∧ StronglySorted String.le alive
    ∧ ∀ a, a ∈ alive ↔ is_Some (servers r2 !! a).
Proof.
  apply (ServeHTTP_post_then_get "tcp@b:1" "PUT" 10 (λ _, 20)
           (putServer "tcp@a:1" 0 (New 15))).
  - done.
  - right. vm_compute. reflexivity.
  - done.
  - done.
Defined.

End RegistryProperties.

Section XClientProperties.
Import reflect xclient.
Context {Client error : Type}.
Variable IsAvailable : Client → bool.

(** X21. [dial] keeps the cache true.  When it returns a client, that
    client is in the cache under the address, and it is the cached client
    if that one was available (then [XDial] is not called and nothing is
    closed), or else the client that [XDial] returned.  When it returns an
    error, it is the error of [XDial] and nothing is cached under the
    address.  In both cases the clients of the other addresses are
    untouched, and a cached client that was not available has been closed
    before [XDial] was called. *)
Theorem dial_keeps_the_cache (rpcAddr : string) (xdial : error + Client)
    (xc : XClient (Client := Client)) :
  let xc1 := (dial IsAvailable rpcAddr xdial xc).1 in
  let res := (dial IsAvailable rpcAddr xdial xc).2 in
  (∀ k, k ≠ rpcAddr → clients xc1 !! k = clients xc !! k)
  ∧ match clients xc !! rpcAddr with
    | Some cached =>
        if IsAvailable cached
        then xc1 = xc ∧ res = (Some cached, None)
        else log xc1 = log xc ++ [EvClientClose cached; EvXDial rpcAddr]
    | None => log xc1 = log xc ++ [EvXDial rpcAddr]
    end
  ∧ match res with
    | (Some client, None) => clients xc1 !! rpcAddr = Some client
    | (None, Some err) => clients xc1 !! rpcAddr = None ∧ xdial = inl err
    | _ => False
    end.
Proof.
  intros xc1 res. subst xc1 res. unfold dial.
  destruct (clients xc !! rpcAddr) as [cached|] eqn:Hc.
  - destruct (IsAvailable cached) eqn:Hav; cbn.
    + by rewrite Hc.
    + destruct xdial as [err|client]; cbn.
      * split; [intros k Hk; by rewrite lookup_delete_ne|].
        split; [by rewrite <- app_assoc|]. by rewrite lookup_delete_eq.
      * split; [intros k Hk; by rewrite lookup_insert_ne, lookup_delete_ne|].
        split; [by rewrite <- app_assoc|]. by rewrite lookup_insert_eq.
  - destruct xdial as [err|client]; cbn.
    + by rewrite Hc.
    + split; [intros k Hk; by rewrite lookup_insert_ne|].
      split; [done|]. by rewrite lookup_insert_eq.
Qed.

(** The loop of [Close]. *)
Lemma Close_loop (l : list (string * Client)) : ∀ xc : XClient (Client := Client),
  let xc1 := foldl (λ (xc : XClient) (kc : string * Client),
                      {| clients := delete kc.1 (clients xc);
                         log := log xc ++ [EvClientClose kc.2] |}) xc l in
  log xc1 = log xc ++ (EvClientClose <$> l.*2)
  ∧ ∀ k, clients xc1 !! k = if decide (k ∈ l.*1) then None else clients xc !! k.
Proof.
  induction l as [|[k0 c0] l IH]; intros xc.
  { cbn. split; [by rewrite app_nil_r|]. intros k. rewrite decide_False; [done|].
    apply not_elem_of_nil. }
  cbn [foldl fst snd]. destruct (IH {| clients := delete k0 (clients xc);
                                       log := log xc ++ [EvClientClose c0] |}) as [H1 H2].
  cbv zeta in *. split.
  - rewrite H1. cbn. by rewrite <- app_assoc.
  - intros k. rewrite H2. cbn. destruct (decide (k = k0)) as [->|Hne].
    + rewrite lookup_delete_eq. rewrite (decide_True (P := k0 ∈ k0 :: _)).
      * by case_decide.
      * apply elem_of_cons. by left.
    + rewrite lookup_delete_ne by done.
      destruct (decide (k ∈ l.*1)) as [Hin|Hnin].
      * rewrite decide_True; [done|]. apply elem_of_cons. by right.
      * rewrite decide_False; [done|]. intros [?|?]%elem_of_cons; done.
Qed.

(** X22. [Close] of the [XClient] empties the cache and closes what was in
    it: afterwards no client is cached, [client.Close()] has been called
    once for every entry of the cache and for nothing else, and the result
    is nil. *)
Theorem Close_closes_every_client (xc : XClient (Client := Client)) :
  clients (Close (error := error) xc).1 = ∅
  ∧ (Close (error := error) xc).2 = None
  ∧ ∃ closed, log (Close (error := error) xc).1 = log xc ++ (EvClientClose <$> closed)
              ∧ closed ≡ₚ (map_to_list (clients xc)).*2.
Proof.
  unfold Close. cbn [fst snd].
  destruct (Close_loop (map_to_list (clients xc)) xc) as [H1 H2]. cbv zeta in *.
  split; [|split; [done|]].
  - apply map_eq. intros k. rewrite H2, lookup_empty. case_decide as Hk; [done|].
    destruct (clients xc !! k) as [c|] eqn:Hc; [|done].
    exfalso. apply Hk. apply list_elem_of_fmap. exists (k, c). split; [done|].
    by apply elem_of_map_to_list.
  - by exists (map_to_list (clients xc)).*2.
Qed.

(** The critical sections of [Broadcast], from any state. *)
Lemma Broadcast_loop (results : list (option error * val)) : ∀ st : shared (error := error),
  let out := foldl join st results in
  e out = (if e st is Some x then Some x else head (omap fst results))
  ∧ reply out = (if replyDone st then reply st
                 else if head (omap (λ r : option error * val,
                                       if r.1 is None then Some r.2 else None) results)
                        is Some v then Some v else reply st)
  ∧ cancels out = (cancels st
                   + (if e st is Some _ then 0 else if e out is Some _ then 1 else 0))%nat.
Proof.
  induction results as [|[[err|] v] results IH]; intros st.
  - cbn. destruct (e st), (replyDone st); repeat split; lia.
  - cbn [foldl]. destruct (IH (join st (Some err, v))) as (H1 & H2 & H3).
    cbv zeta in *.
    assert (Hj : e (join st (Some err, v)) = (if e st is Some x then Some x else Some err)
                 ∧ replyDone (join st (Some err, v)) = replyDone st
                 ∧ reply (join st (Some err, v)) = reply st
                 ∧ cancels (join st (Some err, v))
                   = (cancels st + if e st is Some _ then 0 else 1)%nat).
    { unfold join. cbn. destruct (e st) eqn:He; cbn; rewrite ?He; repeat split; lia. }
    destruct Hj as (J1 & J2 & J3 & J4).
    set (st1 := join st (Some err, v)) in *. set (out := foldl join st1 results) in *.
    rewrite J1 in H1. rewrite J2, J3 in H2. rewrite J1, J4 in H3. cbn.
    destruct (e st) as [x|]; cbn in *; rewrite H1 in *; repeat split; try done; lia.
  - cbn [foldl]. destruct (IH (join st (None, v))) as (H1 & H2 & H3).
    cbv zeta in *.
    assert (Hj : e (join st (None, v)) = e st
                 ∧ replyDone (join st (None, v)) = true
                 ∧ reply (join st (None, v))
                   = (if replyDone st then reply st else Some v)
                 ∧ cancels (join st (None, v)) = cancels st).
    { unfold join. cbn. destruct (e st) eqn:He, (replyDone st) eqn:Hd; cbn;
        by rewrite ?He, ?Hd. }
    destruct Hj as (J1 & J2 & J3 & J4).
    set (st1 := join st (None, v)) in *. set (out := foldl join st1 results) in *.
    rewrite J1 in H1. rewrite J2, J3 in H2. rewrite J1, J4 in H3. cbn.
    split; [done|]. split; [|done]. rewrite H2. by destruct (replyDone st).
Qed.

(** X23. [Broadcast] returns the first failure and keeps the first
    success, in the order in which the calls come back: its result is nil
    exactly when no call failed, and otherwise the error of the call that
    failed first; [cancel] is called once if a call failed and never if
    none did; a reply that is not nil holds the reply of the call that
    succeeded first, even when [Broadcast] returns an error, and is left as
    it was when no call succeeded. *)
Theorem Broadcast_first_error_first_reply
    (reply0 : option val) (results : list (option error * val)) :
  let out := Broadcast (error := error) reply0 results in
  e out = head (omap fst results)
  ∧ (e out = None ↔ Forall (λ r, r.1 = None) results)
  ∧ cancels out = (if e out is Some _ then 1 else 0)%nat
  ∧ reply out = match reply0 with
                | None => None
                | Some v0 =>
                    Some (default v0
                            (head (omap (λ r : option error * val,
                                           if r.1 is None then Some r.2 else None) results)))
                end.
Proof.
  intros out. subst out. unfold Broadcast.
  destruct (Broadcast_loop results
              {| e := None; replyDone := bool_decide (reply0 = None);
                 reply := reply0; cancels := 0 |}) as (H1 & H2 & H3).
  cbv zeta in *. cbn [e replyDone reply cancels] in *.
  split; [done|]. split; [|split; [done|]].
  - rewrite H1. clear. induction results as [|[[err|] v] results IH]; cbn.
    + split; [constructor|done].
    + split; [done|]. by intros [[=] _]%Forall_cons.
    + rewrite IH. split; [by constructor|]. by intros [_ ?]%Forall_cons.
  - rewrite H2. destruct reply0 as [v0|]; cbn; [|done].
    by match goal with |- match ?x with Some _ => _ | None => _ end = _ => destruct x end.
Qed.

End XClientProperties.

Lemma dial_keeps_the_cache_witness :
  let xc := xclient.mkXClient (Client := nat) {[ "a" := 1%nat ]} [] in
  let available := λ n : nat, bool_decide (n = 0%nat) in
  xclient.clients (xclient.dial (error := string) available "a" (inr 0%nat) xc).1 !! "b"
  = xclient.clients xc !! "b".
Proof.
  intros xc available.
  apply (proj1 (dial_keeps_the_cache (error := string) available "a" (inr 0%nat) xc)).
  done.
Defined.
